(** * TreeLine: node formats and the tree structure

    A shallow embedding of [nodeformat.py] (class [NodeFormat]) and
    [treestructure.py] (class [TreeStructure]).

    Python text is a [string]; a character is a code point below 256.
    Python dictionaries are finite maps ([gmap]); objects that are shared
    and mutated (tree nodes) live in an explicit store indexed by their
    address. *)

From Stdlib Require Import Ascii String List Bool Arith Lia.
From stdpp Require Import base gmap strings list.
From Equations Require Import Equations.
Import ListNotations.

Local Open Scope stdpp_scope.

(** ** Text: the parts of Python's [str] and [re] that the code uses *)

Module Text.

Definition code (c : ascii) : nat := nat_of_ascii c.

Definition between (lo hi n : nat) : bool := (lo <=? n) && (n <=? hi).

(** [str.isspace] on one character: the separators of [str.split()] and
    the characters removed by [str.strip()]. *)
Definition isspace (c : ascii) : bool :=
  let n := code c in
  between 9 13 n || between 28 32 n || (n =? 133) || (n =? 160).

(** The class [\w] of a [str] pattern: alphanumeric or underscore. *)
Definition isword (c : ascii) : bool :=
  let n := code c in
  between 48 57 n || between 65 90 n || (n =? 95) || between 97 122 n
  || (n =? 170) || between 178 179 n || (n =? 181) || between 185 186 n
  || between 188 190 n || between 192 214 n || between 216 246 n
  || between 248 255 n.

(** The class [[\w_\-.]] of the field-name part of a field reference. *)
Definition isnamechar (c : ascii) : bool :=
  isword c || Ascii.eqb c "_" || Ascii.eqb c "-" || Ascii.eqb c ".".

Definition isstar (c : ascii) : bool := Ascii.eqb c "*".

(** The one-character modifiers [\?|!|&|#]. *)
Definition ismark (c : ascii) : bool :=
  Ascii.eqb c "?" || Ascii.eqb c "!" || Ascii.eqb c "&" || Ascii.eqb c "#".

(** [.] of a pattern compiled without DOTALL: anything but a newline. *)
Definition isdot (c : ascii) : bool := negb (Ascii.eqb c "010").

Definition isempty (s : string) : bool :=
  match s with EmptyString => true | String _ _ => false end.

Fixpoint all (p : ascii -> bool) (s : string) : bool :=
  match s with
  | EmptyString => true
  | String c s' => p c && all p s'
  end.

(** The longest prefix of [s] whose characters satisfy [p], and the rest:
    what a greedy [[class]*] consumes. *)
Fixpoint span (p : ascii -> bool) (s : string) : string * string :=
  match s with
  | EmptyString => (EmptyString, EmptyString)
  | String c s' =>
      if p c then let (a, b) := span p s' in (String c a, b)
      else (EmptyString, s)
  end.

(** [s.startswith(p)], returning the remainder. *)
Fixpoint stripPrefix (p s : string) : option string :=
  match p, s with
  | EmptyString, _ => Some s
  | String a p', String b s' =>
      if Ascii.eqb a b then stripPrefix p' s' else None
  | String _ _, EmptyString => None
  end.

Fixpoint take (n : nat) (s : string) : string :=
  match n, s with
  | S n', String c s' => String c (take n' s')
  | _, _ => EmptyString
  end.

Fixpoint drop (n : nat) (s : string) : string :=
  match n, s with
  | S n', String _ s' => drop n' s'
  | _, _ => s
  end.

(** [''.join(parts)] *)
Definition concat (parts : list string) : string :=
  fold_right String.append EmptyString parts.

(** [sep.join(parts)] *)
Fixpoint join (sep : string) (parts : list string) : string :=
  match parts with
  | [] => EmptyString
  | [w] => w
  | w :: ws => w +:+ sep +:+ join sep ws
  end.

(** [text.split()]: the maximal runs of non-whitespace characters.
    [cur] is the word being read, [None] between words. *)
Fixpoint split_go (cur : option string) (s : string) : list string :=
  match s with
  | EmptyString => match cur with Some w => [w] | None => [] end
  | String c s' =>
      if isspace c
      then match cur with
           | Some w => w :: split_go None s'
           | None => split_go None s'
           end
      else split_go (Some (match cur with
                           | Some w => w +:+ String c EmptyString
                           | None => String c EmptyString
                           end)) s'
  end.

Definition split (s : string) : list string := split_go None s.

(** [' '.join(text.split())] *)
Definition normalize (s : string) : string := join " " (split s).

Fixpoint lstrip (s : string) : string :=
  match s with
  | String c s' => if isspace c then lstrip s' else s
  | EmptyString => EmptyString
  end.

(** [s.rstrip()]: drop the whitespace at the end. *)
Fixpoint rstrip (s : string) : string :=
  match s with
  | EmptyString => EmptyString
  | String c s' =>
      match rstrip s' with
      | EmptyString => if isspace c then EmptyString else String c EmptyString
      | r => String c r
      end
  end.

(** [s.strip()] *)
Definition strip (s : string) : string := rstrip (lstrip s).

(** [xml.sax.saxutils.escape]: [&], [>] and [<] become entities. The
    library replaces [&] first, so the entities it inserts are not
    escaped again and the replacement acts character by character. *)
Fixpoint escape (s : string) : string :=
  match s with
  | EmptyString => EmptyString
  | String c s' =>
      (if Ascii.eqb c "&" then "&amp;"
       else if Ascii.eqb c ">" then "&gt;"
       else if Ascii.eqb c "<" then "&lt;"
       else String c EmptyString) +:+ escape s'
  end.

End Text.

(** ** Field objects *)

Module FieldFormat.

(** Modelled from the spec: the field classes of [fieldformat.py], which
    is not among the sources. A field object carries its name and the
    name of its field type; what it renders and parses is an opaque
    capability, taken as a parameter where [NodeFormat] calls it.
    [objId] is the identity of the object: the references to one object
    agree on it, and two objects differ in it even when they have the
    same name and type. *)
Record t : Type := Build { name : string; typeName : string; objId : nat }.

#[global] Instance eq_dec : EqDecision t.
Proof. solve_decision. Defined.

(** Modelled from the spec: [sepName] of [fieldformat.py]; "each field
    token serializes back to its canonical [{*name*}] form". *)
Definition sepName (f : t) : string := "{*" +:+ name f +:+ "*}".

End FieldFormat.

Abbreviation FieldFormat := FieldFormat.t.

(** ** Exceptions and outcomes of a call *)

Inductive Exn : Type :=
| IndexError | ValueError | KeyError | AttributeError | RecursionError.

(** What a call that mutates its receiver leaves behind: it returns, or an
    exception leaves it with the changes made so far. *)
Inductive Outcome (R S : Type) : Type :=
| Return (r : R) (s : S)
| Raise (e : Exn) (s : S).
Arguments Return {R S} r s.
Arguments Raise {R S} e s.

(** ** [nodeformat.py] *)

Module NodeFormat.
Import Text.

(** One element of a parsed format line: literal text or a field object
    ([hasattr(part, 'outputText')], [hasattr(part, 'sepName')] and
    [hasattr(seg, 'name')] all tell the two apart). *)
Inductive Part : Type :=
| PText (text : string)
| PField (field : FieldFormat).

Record t : Type := Build {
  name : string;
  fieldDict : gmap string FieldFormat;
  titleLine : list Part;
  outputLines : list (list Part);
  origOutputLines : list (list Part);
  siblingPrefix : string;
  siblingSuffix : string;
  spaceBetween : bool;
  formatHtml : bool;
  useBullets : bool;
  useTables : bool
}.

(** *** The field-reference patterns

    [_fieldSplitRe] is [({\*(?:\**|\?|!|&|#)[\w_\-.]+\*})] and
    [_fieldPartRe] is [{\*(\**|\?|!|&|#)([\w_\-.]+)\*}]: one pattern with
    two groupings. *)

(** [[\w_\-.]+\*}] at the start of [s]: the name and what follows the
    match. The class holds neither [*] nor [}], so the greedy run is the
    only one that [\*}] can follow. *)
Definition matchName (s : string) : option (string * string) :=
  match span isnamechar s with
  | (String c n, String "*" (String "}" rest)) => Some (String c n, rest)
  | _ => None
  end.

(** The whole pattern at the start of [s]: modifier, field name and what
    follows the match. The first alternative [\**] is greedy; giving an
    asterisk back would leave it where the name must start, so only the
    full run can succeed, and when the run is empty the one-character
    alternatives are tried in turn. *)
Definition matchFieldRef (s : string) : option (string * string * string) :=
  match s with
  | String "{" (String "*" s0) =>
      let (stars, s1) := span isstar s0 in
      match matchName s1 with
      | Some (n, rest) => Some (stars, n, rest)
      | None =>
          match s0 with
          | String c s2 =>
              if ismark c then
                match matchName s2 with
                | Some (n, rest) => Some (String c EmptyString, n, rest)
                | None => None
                end
              else None
          | EmptyString => None
          end
      end
  | _ => None
  end.

(** [_fieldPartRe.match(text)]: [group(1)] and [group(2)]; the match is
    anchored at the start of [text] only. *)
Definition _fieldPartRe_match (text : string) : option (string * string) :=
  match matchFieldRef text with
  | Some (modifier, fieldName, _) => Some (modifier, fieldName)
  | None => None
  end.

Definition refText (modifier fieldName : string) : string :=
  "{*" +:+ modifier +:+ fieldName +:+ "*}".

(** Facts on text that the termination of the split needs. *)
Lemma app_String c (s t : string) : String c s +:+ t = String c (s +:+ t).
Proof. reflexivity. Qed.

Lemma append_nil_r (s : string) : s +:+ "" = s.
Proof. induction s as [|c s IH]; [reflexivity|]. now rewrite app_String, IH. Qed.

Lemma append_assoc (s t u : string) : (s +:+ t) +:+ u = s +:+ t +:+ u.
Proof.
  induction s as [|c s IH]; [reflexivity|]. now rewrite !app_String, IH.
Qed.

Lemma append_length (s t : string) :
  String.length (s +:+ t) = String.length s + String.length t.
Proof.
  induction s as [|c s IH]; [reflexivity|].
  rewrite app_String. simpl. now rewrite IH.
Qed.

Lemma span_app p s a b : span p s = (a, b) -> s = a +:+ b.
Proof.
  revert a b. induction s as [|c s IH]; simpl; intros a b H.
  - now inversion H.
  - destruct (p c).
    + destruct (span p s) as [a' b'] eqn:E. inversion H; subst.
      rewrite app_String. f_equal. now apply IH.
    + now inversion H.
Qed.

Lemma matchName_sound s n rest :
  matchName s = Some (n, rest) -> s = n +:+ "*}" +:+ rest.
Proof.
  unfold matchName. destruct (span isnamechar s) as [a b] eqn:E.
  intros H. apply span_app in E. subst s.
  destruct a as [|c a]; [discriminate|].
  destruct b as [|[[] [] [] [] [] [] [] []] b]; try discriminate.
  destruct b as [|[[] [] [] [] [] [] [] []] b]; try discriminate.
  now inversion H.
Qed.

(** Every match consumes the text of the reference it found. *)
Lemma matchFieldRef_sound s modifier fieldName rest :
  matchFieldRef s = Some (modifier, fieldName, rest) ->
  s = refText modifier fieldName +:+ rest.
Proof.
  unfold matchFieldRef, refText.
  destruct s as [|[[] [] [] [] [] [] [] []] s]; try discriminate.
  destruct s as [|[[] [] [] [] [] [] [] []] s0]; try discriminate.
  destruct (span isstar s0) as [stars s1] eqn:E.
  destruct (matchName s1) as [[n r]|] eqn:M.
  - intros H; inversion H; subst. apply span_app in E.
    apply matchName_sound in M. subst.
    rewrite ?append_assoc. reflexivity.
  - destruct s0 as [|c s2]; [discriminate|].
    destruct (ismark c); [|discriminate].
    destruct (matchName s2) as [[n r]|] eqn:M2; [|discriminate].
    intros H; inversion H; subst. apply matchName_sound in M2. subst.
    rewrite ?append_assoc. reflexivity.
Qed.

Lemma matchFieldRef_shorter s modifier fieldName rest :
  matchFieldRef s = Some (modifier, fieldName, rest) ->
  String.length rest < String.length s.
Proof.
  intros H. apply matchFieldRef_sound in H. subst s.
  unfold refText. rewrite !append_length. simpl. lia.
Qed.

Definition inspect {A : Type} (a : A) : {b : A | a = b} := exist _ a eq_refl.

(** [_fieldSplitRe.split(text)]: the text before the first reference, the
    reference (the pattern is one capturing group), the text up to the
    next reference, and so on; empty strings included. The scan tries
    the pattern at each position from the left and resumes after a
    match. [acc] is the text read since the last match. *)
Equations? split_go (acc s : string) : list string
  by wf (String.length s) lt :=
  split_go acc EmptyString := [acc];
  split_go acc (String c s') with inspect (matchFieldRef (String c s')) := {
    | exist _ (Some (modifier, fieldName, rest)) e =>
        acc :: refText modifier fieldName :: split_go EmptyString rest;
    | exist _ None _ => split_go (acc +:+ String c EmptyString) s' }.
Proof.
  exact (matchFieldRef_shorter (String c s') _ _ _ e).
Qed.

Definition _fieldSplitRe_split (text : string) : list string :=
  split_go EmptyString text.

(** *** Parsing and serializing format lines *)

Definition parseField (self : t) (text : string) : Part :=
  match _fieldPartRe_match text with
  | Some (modifier, fieldName) =>
      if isempty modifier then
        match fieldDict self !! fieldName with
        | Some field => PField field
        | None => PText text          (* KeyError, caught *)
        end
      else PText text
  | None => PText text
  end.

Definition parseLine (self : t) (text : string) : list Part :=
  let text := normalize text in
  let segments := List.filter (fun part => negb (isempty part))
                              (_fieldSplitRe_split text) in
  List.map (parseField self) segments.

Definition partText (part : Part) : string :=
  match part with
  | PField field => FieldFormat.sepName field
  | PText text => text
  end.

Definition lineText (line : list Part) : string :=
  concat (List.map partText line).

Definition getTitleLine (self : t) : string := lineText (titleLine self).

Definition isnil {A : Type} (l : list A) : bool :=
  match l with [] => true | _ :: _ => false end.

Definition getOutputLines (self : t) (useOriginal : bool) : list string :=
  let lines :=
    if useOriginal && negb (isnil (origOutputLines self))
    then origOutputLines self else outputLines self in
  let lines := List.map lineText lines in
  if isnil lines then [EmptyString] else lines.

Definition set_titleLine (v : list Part) (self : t) : t :=
  Build (name self) (fieldDict self) v (outputLines self)
    (origOutputLines self) (siblingPrefix self) (siblingSuffix self)
    (spaceBetween self) (formatHtml self) (useBullets self) (useTables self).

Definition set_outputLines (v : list (list Part)) (self : t) : t :=
  Build (name self) (fieldDict self) (titleLine self) v
    (origOutputLines self) (siblingPrefix self) (siblingSuffix self)
    (spaceBetween self) (formatHtml self) (useBullets self) (useTables self).

Definition set_origOutputLines (v : list (list Part)) (self : t) : t :=
  Build (name self) (fieldDict self) (titleLine self) (outputLines self)
    v (siblingPrefix self) (siblingSuffix self)
    (spaceBetween self) (formatHtml self) (useBullets self) (useTables self).

Definition set_sibling (prefix suffix : string) (self : t) : t :=
  Build (name self) (fieldDict self) (titleLine self) (outputLines self)
    (origOutputLines self) prefix suffix
    (spaceBetween self) (formatHtml self) (useBullets self) (useTables self).

Definition set_fieldDict (v : gmap string FieldFormat) (self : t) : t :=
  Build (name self) v (titleLine self) (outputLines self)
    (origOutputLines self) (siblingPrefix self) (siblingSuffix self)
    (spaceBetween self) (formatHtml self) (useBullets self) (useTables self).

(** [getattr(fieldformat, typeName, fieldformat.TextField)]: the class
    of that name when [fieldformat.py], which is not among the sources,
    has one, and the text field otherwise. [hasFieldClass] tells which
    names it has. *)
Definition fieldClass (hasFieldClass : string -> bool) (typeName : string)
  : string :=
  if hasFieldClass typeName then typeName else "TextField".

(** [addField(name, fieldData)]: a new field object is created with the
    name it is filed under; [fieldtype] is [fieldData.get('fieldtype')],
    for which ['Text'] is the default. [objId] is the identity of the
    object that the call creates. *)
Definition addField (hasFieldClass : string -> bool) (self : t)
    (name : string) (fieldtype : option string) (objId : nat) : t :=
  let typeName := default "Text" fieldtype +:+ "Field" in
  let field :=
    FieldFormat.Build name (fieldClass hasFieldClass typeName) objId in
  set_fieldDict (<[name := field]> (fieldDict self)) self.

(** [removeField(field)]: every occurrence of the field object leaves the
    title line and the output lines, and the output lines left without a
    part are dropped. [field in line] and [line.remove(field)] compare
    the parts with the object itself: another object of the same name
    and type is not an occurrence, and a literal part never is. *)
Definition isField (field : FieldFormat) (part : Part) : bool :=
  match part with
  | PField f => bool_decide (f = field)
  | PText _ => false
  end.

Definition removeField (self : t) (field : FieldFormat) : t :=
  let without := List.filter (fun part => negb (isField field part)) in
  let self := set_titleLine (without (titleLine self)) self in
  set_outputLines
    (List.filter (fun line => negb (isnil line))
                 (List.map without (outputLines self))) self.

Definition updateLineParsing (self : t) : t :=
  let self := set_titleLine (parseLine self (getTitleLine self)) self in
  let self := set_outputLines
                (List.map (parseLine self) (getOutputLines self false)) self in
  if negb (isnil (origOutputLines self))
  then set_origOutputLines
         (List.map (parseLine self) (getOutputLines self true)) self
  else self.

(** *** Bullets and tables *)

Definition mapFirst {A : Type} (f : A -> A) (l : list A) : list A :=
  match l with
  | [] => []
  | x :: l' => f x :: l'
  end.

Fixpoint mapLast {A : Type} (f : A -> A) (l : list A) : list A :=
  match l with
  | [] => []
  | [x] => [f x]
  | x :: l' => x :: mapLast f l'
  end.

(** A list of text lines assigned to [self.outputLines]: the code reads
    such a line back only through [getOutputLines], which joins its
    characters, so it is held as one literal part. *)
Definition rawLines (lines : list string) : list (list Part) :=
  List.map (fun line => [PText line]) lines.

Definition addBullets (self : t) : t :=
  let self := set_sibling "<ul>" "</ul>" self in
  let lines := getOutputLines self true in
  let lines :=
    if decide (lines = [EmptyString]) then lines
    else mapLast (fun l => l +:+ "</li>")
                 (mapFirst (fun l => "<li>" +:+ l) lines) in
  let self := set_origOutputLines (outputLines self) self in
  let self := set_outputLines (rawLines lines) self in
  updateLineParsing self.

(** [line.split(':', 1)] when the line holds a colon. *)
Fixpoint splitColon (line : string) : option (string * string) :=
  match line with
  | EmptyString => None
  | String c rest =>
      if Ascii.eqb c ":" then Some (EmptyString, rest)
      else match splitColon rest with
           | Some (head, tail) => Some (String c head, tail)
           | None => None
           end
  end.

Definition hasColon (s : string) : bool :=
  match splitColon s with Some _ => true | None => false end.

(** The loop of [addTables] over the non-empty lines: the new lines and
    the headings, or the exception that ends it. *)
Fixpoint tableLines (self : t) (lines : list string)
  : Exn + (list string * list string) :=
  match lines with
  | [] => inr ([], [])
  | line :: lines' =>
      match parseLine self line with
      | [] => inl IndexError
      | firstPart :: _ =>
          let split :=
            match firstPart with
            | PText text =>
                if hasColon text then
                  match splitColon line with
                  | Some (head, line') => inr (head, line')
                  | None => inl ValueError
                  end
                else inr (EmptyString, line)
            | PField _ => inr (EmptyString, line)
            end in
          match split with
          | inl e => inl e
          | inr (head, line) =>
              match tableLines self lines' with
              | inl e => inl e
              | inr (newLines, headings) =>
                  inr (strip line :: newLines, strip head :: headings)
              end
          end
      end
  end.

Definition dquote : string := String (ascii_of_nat 34) EmptyString.

Definition tableOpen : string :=
  "<table border=" +:+ dquote +:+ "1" +:+ dquote +:+ " cellpadding="
    +:+ dquote +:+ "3" +:+ dquote +:+ ">".

Definition addTables (self : t) : Outcome unit t :=
  let lines := List.filter (fun line => negb (isempty line))
                           (getOutputLines self true) in
  match tableLines self lines with
  | inl e => Raise e self
  | inr (newLines, headings) =>
      let prefix := tableOpen in
      let prefix :=
        if isnil (List.filter (fun head => negb (isempty head)) headings)
        then prefix
        else fold_left (fun p head => p +:+ "<th>" +:+ head +:+ "</th>")
                       headings (prefix +:+ "<tr>") +:+ "</tr>" in
      let self := set_sibling prefix "</table>" self in
      let newLines :=
        List.map (fun line => "<td>" +:+ line +:+ "</td>") newLines in
      match newLines with
      | [] => Raise IndexError self
      | _ :: _ =>
          let newLines :=
            mapLast (fun l => l +:+ "</tr>")
                    (mapFirst (fun l => "<tr>" +:+ l) newLines) in
          let self := set_origOutputLines (outputLines self) self in
          let self := set_outputLines (rawLines newLines) self in
          Return tt (updateLineParsing self)
      end
  end.

Definition clearBulletsAndTables (self : t) : t :=
  let self := set_sibling EmptyString EmptyString self in
  let self :=
    if negb (isnil (origOutputLines self))
    then updateLineParsing (set_outputLines (origOutputLines self) self)
    else self in
  set_origOutputLines [] self.

(** *** Output *)

(** [_endTagRe] is [.*(<br[ /]*?>|<BR[ /]*?>|<hr[ /]*?>|<HR[ /]*?>)$]. *)

Definition isblankslash (c : ascii) : bool :=
  Ascii.eqb c " " || Ascii.eqb c "/".

(** One alternative of the group followed by [$], at the start of [s]:
    the tag that [group(1)] holds. [>] is not in [[ /]], so the lazy run
    stops exactly where the blanks and slashes end; [$] accepts the end
    of the text and the position before a final newline. *)
Definition matchTag (tagOpen s : string) : option string :=
  match stripPrefix tagOpen s with
  | Some r =>
      let (run, r') := span isblankslash r in
      match r' with
      | String ">" EmptyString | String ">" (String "010" EmptyString) =>
          Some (tagOpen +:+ run +:+ ">")
      | _ => None
      end
  | None => None
  end.

Definition matchEndTag (s : string) : option string :=
  match matchTag "<br" s with
  | Some tag => Some tag
  | None =>
  match matchTag "<BR" s with
  | Some tag => Some tag
  | None =>
  match matchTag "<hr" s with
  | Some tag => Some tag
  | None => matchTag "<HR" s
  end end end.

(** The greedy [.*] gives back one character at a time until the rest of
    the pattern matches: [k] is the number of characters it holds. *)
Fixpoint endTagSearch (k : nat) (line : string) : option string :=
  match matchEndTag (drop k line) with
  | Some tag => Some tag
  | None =>
      match k with
      | O => None
      | S k' => endTagSearch k' line
      end
  end.

(** [_endTagRe.match(line)]: [group(1)] of the match, if any. *)
Definition _endTagRe_match (line : string) : option string :=
  endTagSearch (String.length (fst (span isdot line))) line.

Section Output.
(** The node object and what [fieldformat.py] (not among the sources)
    provides: a field's [outputText(node, oneLine, formatHtml)] and
    the function [removeMarkup]. *)
Context {Node : Type}.
Variable outputText : FieldFormat -> Node -> bool -> bool -> string.
Variable removeMarkup : string -> string.

(** The inner loop of [formatOutput] over the parts of one line. *)
Fixpoint formatLine (self : t) (node : Node) (plainText : bool)
    (lineData : list Part) (line : string)
    (numEmptyFields numFullFields : nat) : string * nat * nat :=
  match lineData with
  | [] => (line, numEmptyFields, numFullFields)
  | PField field :: lineData' =>
      let text := outputText field node plainText (formatHtml self) in
      if negb (isempty text)
      then formatLine self node plainText lineData' (line +:+ text)
                      numEmptyFields (numFullFields + 1)
      else formatLine self node plainText lineData' (line +:+ text)
                      (numEmptyFields + 1) numFullFields
  | PText part :: lineData' =>
      let part :=
        if negb (formatHtml self) && negb plainText then escape part
        else if formatHtml self && plainText then removeMarkup part
        else part in
      formatLine self node plainText lineData' (line +:+ part)
                 numEmptyFields numFullFields
  end.

(** One round of the outer loop. *)
Definition formatOutputStep (self : t) (node : Node)
    (plainText keepBlanks : bool)
    (result : list string) (lineData : list Part) : list string :=
  let '(line, numEmptyFields, numFullFields) :=
    formatLine self node plainText lineData EmptyString 0 0 in
  if keepBlanks || negb (numFullFields =? 0) || (numEmptyFields =? 0)
  then result ++ [line]
  else if formatHtml self && negb plainText && negb (isnil result)
  then match _endTagRe_match line with
       | Some tag => mapLast (fun l => l +:+ tag) result
       | None => result
       end
  else result.

Definition formatOutput (self : t) (node : Node)
    (plainText keepBlanks : bool) : list string :=
  fold_left (formatOutputStep self node plainText keepBlanks)
            (outputLines self) [].

End Output.

(** *** Reading field data back from a title *)

(** The pattern that [extractTitleData] builds: a group around [.*] for
    a field and the escaped text for a separator. *)
Inductive Pat : Type :=
| Group
| Lit (text : string).

(** [re.match(pattern, titleString)]: the groups of the first match that
    backtracking finds. Each group starts with the longest run of
    characters other than a newline and gives back one at a time. The
    match need not reach the end of the text. *)
Fixpoint reMatch (pattern : list Pat) (s : string) : option (list string) :=
  match pattern with
  | [] => Some []
  | Lit text :: pattern' =>
      match stripPrefix text s with
      | Some r => reMatch pattern' r
      | None => None
      end
  | Group :: pattern' =>
      (fix backtrack (k : nat) : option (list string) :=
         match reMatch pattern' (drop k s) with
         | Some groups => Some (take k s :: groups)
         | None =>
             match k with
             | O => None
             | S k' => backtrack k'
             end
         end) (String.length (fst (span isdot s)))
  end.

Section Title.
(** A field's [storedTextFromTitle(text)] from [fieldformat.py];
    [None] stands for the [ValueError] that the code catches. *)
Variable storedTextFromTitle : FieldFormat -> string -> option string.

(** The loop over [enumerate(fields)] in the branch of a match. *)
Fixpoint storeGroups (fields : list FieldFormat) (groups : list string)
    (data : gmap string string) : Outcome bool (gmap string string) :=
  match fields, groups with
  | [], _ => Return true data
  | field :: fields', text :: groups' =>
      match storedTextFromTitle field text with
      | Some stored =>
          storeGroups fields' groups'
                      (<[FieldFormat.name field := stored]> data)
      | None => Return false data
      end
  | _ :: _, [] => Raise IndexError data
  end.

Definition extractTitleData (self : t) (titleString : string)
    (data : gmap string string) : Outcome bool (gmap string string) :=
  let fields :=
    flat_map (fun seg => match seg with
                         | PField field => [field]
                         | PText _ => []
                         end) (titleLine self) in
  let pattern :=
    List.map (fun seg => match seg with
                         | PField _ => Group
                         | PText text => Lit text
                         end) (titleLine self) in
  let extraText :=
    concat (flat_map (fun seg => match seg with
                                 | PField _ => []
                                 | PText text => [text]
                                 end) (titleLine self)) in
  match reMatch pattern titleString with
  | Some groups => storeGroups fields groups data
  | None =>
      if isempty (strip extraText) then
        match fields with
        | [] => Raise IndexError data
        | field0 :: fields' =>
            match storedTextFromTitle field0 titleString with
            | Some text =>
                Return true
                  (fold_left
                     (fun d field => <[FieldFormat.name field := EmptyString]> d)
                     fields' (<[FieldFormat.name field0 := text]> data))
            | None => Return false data
            end
        end
      else Return false data
  end.

End Title.

(** *** Titles, and changes of the format lines *)

(** [text.split('\n', 1)[0]]: the text before the first newline. *)
Fixpoint firstLine (s : string) : string :=
  match s with
  | EmptyString => EmptyString
  | String c s' =>
      if Ascii.eqb c "010" then EmptyString else String c (firstLine s')
  end.

Section TitleOutput.
Context {Node : Type}.
Variable outputText : FieldFormat -> Node -> bool -> bool -> string.

(** [formatTitle(node)]: fields are rendered with [oneLine] set; literal
    parts go in as they are. *)
Definition formatTitle (self : t) (node : Node) : string :=
  let line :=
    concat (List.map (fun part =>
                        match part with
                        | PField field =>
                            outputText field node true (formatHtml self)
                        | PText text => text
                        end) (titleLine self)) in
  firstLine (strip line).

End TitleOutput.

(** [addFieldIfNew(name, fieldData)]. [objId] is the identity of the
    object created, when one is. *)
Definition addFieldIfNew (hasFieldClass : string -> bool) (self : t)
    (name : string) (fieldtype : option string) (objId : nat) : t :=
  match fieldDict self !! name with
  | Some _ => self
  | None => addField hasFieldClass self name fieldtype objId
  end.

(** [changeTitleLine(text)]: an empty parse is replaced by the one
    literal ['']. *)
Definition changeTitleLine (self : t) (text : string) : t :=
  let line := parseLine self text in
  set_titleLine (if isnil line then [PText EmptyString] else line) self.

(** [changeOutputLines(lines, keepBlanks)]. With both [useBullets] and
    [useTables] set the tables are added to the lines that already carry
    the bullets. *)
Definition changeOutputLines (self : t) (lines : list string)
    (keepBlanks : bool) : Outcome unit t :=
  let self :=
    set_outputLines
      (List.filter (fun newLine => keepBlanks || negb (isnil newLine))
                   (List.map (parseLine self) lines)) self in
  let self :=
    if useBullets self
    then addBullets (set_origOutputLines (outputLines self) self)
    else self in
  if useTables self
  then addTables (set_origOutputLines (outputLines self) self)
  else Return tt self.

Definition addOutputLine (self : t) (line : string) : t :=
  let newLine := parseLine self line in
  if isnil newLine then self
  else set_outputLines (outputLines self ++ [newLine]) self.

(** One round of the first loop of [addFieldList]. [next] counts the
    objects created so far, and a new field object takes the count as
    its identity. *)
Definition addFieldListStep (hasFieldClass : string -> bool)
    (st : t * nat) (name : string) : t * nat :=
  let (self, next) := st in
  (addFieldIfNew hasFieldClass self name None next,
   match fieldDict self !! name with
   | Some _ => next
   | None => S next
   end).

(** [addFieldList(nameList, addFirstTitle, addToOutput)]: text fields for
    the names that are new, then the reference [{*name*}] to the first
    name as title line and the references to all names as output lines.
    [nameList[0]] raises [IndexError] on an empty list. The state is the
    format and the count of objects created. *)
Definition addFieldList (hasFieldClass : string -> bool) (self : t)
    (nameList : list string) (addFirstTitle addToOutput : bool)
    (next : nat) : Outcome unit (t * nat) :=
  let (self, next) :=
    fold_left (addFieldListStep hasFieldClass) nameList (self, next) in
  let titled :=
    if addFirstTitle then
      match nameList with
      | [] => Raise IndexError self
      | first :: _ =>
          Return tt (changeTitleLine self (refText EmptyString first))
      end
    else Return tt self in
  match titled with
  | Raise e self => Raise e (self, next)
  | Return _ self =>
      if addToOutput
      then
        match changeOutputLines self (List.map (refText EmptyString) nameList)
                                false with
        | Return r self => Return r (self, next)
        | Raise e self => Raise e (self, next)
        end
      else Return tt (self, next)
  end.

End NodeFormat.

(** * [treestructure.py] *)

(** ** Tree nodes and spots *)

(** The identity of a node object: its address in the store. Child lists
    and the node dictionary hold references to node objects, so a change
    of a node's [uId] or of its spots is seen through every reference. *)
Definition addr := nat.

#[local] Set Warnings "-register-all".

(** Modelled from the spec: the spot objects of [treespot.py], which is
    not among the sources; "Spot: (nodeId, parentSpot: optional reference
    to another Spot)". [deleteNodeSpot] reads [spot.nodeRef] and
    [spot.parentSpot]. *)
Inductive TreeSpot : Type :=
| Spot (nodeRef : addr) (parentSpot : option TreeSpot).

Definition nodeRef (spot : TreeSpot) : addr :=
  match spot with Spot n _ => n end.

Definition parentSpot (spot : TreeSpot) : option TreeSpot :=
  match spot with Spot _ p => p end.

Fixpoint spot_eqb (s1 s2 : TreeSpot) : bool :=
  match s1, s2 with
  | Spot n1 p1, Spot n2 p2 =>
      (n1 =? n2) &&
      match p1, p2 with
      | None, None => true
      | Some q1, Some q2 => spot_eqb q1 q2
      | _, _ => false
      end
  end.

Module TreeNode.

(** Modelled from the spec: the node objects of [treenode.py], which is
    not among the sources; "a unique id, a type reference, a field-value
    map, and a list of child identities", and the set of spots the node
    occupies ([spotRefs], held here without repetition). *)
Record t : Type := Build {
  uId : string;
  formatRef : string;
  data : gmap string string;
  childList : list addr;
  spotRefs : list TreeSpot
}.

Definition set_uId (v : string) (node : t) : t :=
  Build v (formatRef node) (data node) (childList node) (spotRefs node).

Definition set_childList (v : list addr) (node : t) : t :=
  Build (uId node) (formatRef node) (data node) v (spotRefs node).

Definition set_spotRefs (v : list TreeSpot) (node : t) : t :=
  Build (uId node) (formatRef node) (data node) (childList node) v.

End TreeNode.

(** The node objects that exist, by address. *)
Abbreviation Store := (gmap addr TreeNode.t).

Module TreeStructure.

(** The structure object: the node dictionary, the format table and, as
    a [TreeNode] itself, the list of top-level nodes. *)
Record t : Type := Build {
  nodeDict : gmap string addr;
  childList : list addr;
  treeFormats : gmap string NodeFormat.t
}.

Definition set_nodeDict (v : gmap string addr) (self : t) : t :=
  Build v (childList self) (treeFormats self).

Definition set_childList (v : list addr) (self : t) : t :=
  Build (nodeDict self) v (treeFormats self).

Definition set_treeFormats (v : gmap string NodeFormat.t) (self : t) : t :=
  Build (nodeDict self) (childList self) v.

(** Modelled from the spec: [descendantGen] of [treenode.py]: the node
    itself, then the descendants of each child in turn, depth first. The
    walk follows references through the store; [fuel] bounds its depth,
    and [None] stands for a walk that does not end (a cycle of child
    references). *)
Fixpoint descend (fuel : nat) (store : Store) (a : addr) : option (list addr) :=
  match fuel with
  | O => None
  | S fuel' =>
      match store !! a with
      | None => None
      | Some node =>
          (fix children (cs : list addr) : option (list addr) :=
             match cs with
             | [] => Some []
             | c :: cs' =>
                 match descend fuel' store c, children cs' with
                 | Some l1, Some l2 => Some (l1 ++ l2)
                 | _, _ => None
                 end
             end) (TreeNode.childList node)
          ≫= fun l => Some (a :: l)
      end
  end.

(** Modelled from the spec: [descendantGen] of [treenode.py], as the walk
    above with fuel for the longest chain of child references that has
    no cycle: one step for each node of the store. *)
Definition descendantGen (store : Store) (a : addr) : option (list addr) :=
  descend (S (size store)) store a.

(** [list.remove(x)]: without the first occurrence of [x]; [None] stands
    for the [ValueError] raised when there is none. *)
Fixpoint list_remove (x : addr) (l : list addr) : option (list addr) :=
  match l with
  | [] => None
  | y :: l' =>
      if x =? y then Some l'
      else match list_remove x l' with
           | Some r => Some (y :: r)
           | None => None
           end
  end.

(** [list.insert(position, x)] for a position that is not negative: past
    the end it appends. *)
Definition list_insert_at (position : nat) (x : addr) (l : list addr)
  : list addr :=
  firstn position l ++ x :: skipn position l.

Definition removeNodeDictRef (self : t) (node : TreeNode.t) : t :=
  set_nodeDict (delete (TreeNode.uId node) (nodeDict self)) self.

Definition addNodeDictRef (self : t) (a : addr) (node : TreeNode.t) : t :=
  set_nodeDict (<[TreeNode.uId node := a]> (nodeDict self)) self.

(** Modelled from the spec: the validity of a spot, which
    [removeInvalidSpotRefs] of [treenode.py] tests; a spot is "destroyed
    when the specific parent-child edge is removed". A spot under a parent spot is valid when the node is in the
    child list of the parent spot's node and that node still has the
    parent spot; a spot without a parent is valid when the node is in the
    top-level list. *)
Definition spotValid (store : Store) (self : t) (a : addr) (spot : TreeSpot)
  : bool :=
  match parentSpot spot with
  | None => existsb (Nat.eqb a) (childList self)
  | Some p =>
      match store !! nodeRef p with
      | Some parent =>
          existsb (Nat.eqb a) (TreeNode.childList parent)
          && existsb (spot_eqb p) (TreeNode.spotRefs parent)
      | None => false
      end
  end.

(** Modelled from the spec: [removeInvalidSpotRefs(False)] of
    [treenode.py], "recompute remaining spot count": the node at [a] keeps
    its valid spots; its children are not visited. *)
Definition validSpotRefs (store : Store) (self : t) (a : addr) : Store :=
  match store !! a with
  | Some node =>
      <[a := TreeNode.set_spotRefs
               (List.filter (spotValid store self a) (TreeNode.spotRefs node))
               node]> store
  | None => store
  end.

Section Methods.
(** What [treenode.py] (not among the sources) provides to the methods
    below: [node.removeInvalidSpotRefs(False)] and
    [node.addSpotRef(parent)]. Both are methods of a node: they can change
    node objects, not the structure's dictionary. *)
Variable removeInvalidSpotRefs : Store -> t -> addr -> Store.
Variable addSpotRef : Store -> addr -> option addr -> Store.

(** The body of the loop of [deleteNodeSpot] for one node. *)
Definition deleteStep (st : Store * t) (a : addr) : Store * t :=
  let (store, self) := st in
  match store !! a with
  | Some node =>
      if length (TreeNode.spotRefs node) <=? 1
      then (<[a := TreeNode.set_spotRefs [] node]> store,
            removeNodeDictRef self node)
      else (removeInvalidSpotRefs store self a, self)
  | None => st
  end.

(** [deleteNodeSpot(spot)]. The child lists do not change while the loop
    runs, so the nodes that the generator yields are those of the walk
    made after the removal from the parent's list. *)
Definition deleteNodeSpot (store : Store) (self : t) (spot : TreeSpot)
  : Outcome unit (Store * t) :=
  let removed :=
    match parentSpot spot with
    | Some p =>
        match store !! nodeRef p with
        | Some parentNode =>
            match list_remove (nodeRef spot) (TreeNode.childList parentNode) with
            | Some l =>
                inr (<[nodeRef p := TreeNode.set_childList l parentNode]> store,
                     self)
            | None => inl ValueError
            end
        | None => inl AttributeError
        end
    | None =>
        match list_remove (nodeRef spot) (childList self) with
        | Some l => inr (store, set_childList l self)
        | None => inl ValueError
        end
    end in
  match removed with
  | inl e => Raise e (store, self)
  | inr (store, self) =>
      match descendantGen store (nodeRef spot) with
      | Some nodes => Return tt (fold_left deleteStep nodes (store, self))
      | None => Raise RecursionError (store, self)
      end
  end.

(** [uuid.uuid1().hex]: the identifiers that the generator hands out, in
    the order of the calls; the state carries the number of calls made. *)
Variable uuid1 : nat -> string.

(** The body of the loop of [replaceDuplicateIds] for one node of the
    snapshot [list(self.nodeDict.values())]. [del] raises [KeyError] when
    the node's id is not a key. *)
Definition replaceStep (duplicateDict : gmap string addr)
    (st : Store * t * nat) (a : addr) : Exn + Store * t * nat :=
  let '(store, self, calls) := st in
  match store !! a with
  | Some node =>
      if decide (is_Some (duplicateDict !! TreeNode.uId node)) then
        match nodeDict self !! TreeNode.uId node with
        | Some _ =>
            let self := set_nodeDict
                          (delete (TreeNode.uId node) (nodeDict self)) self in
            let node := TreeNode.set_uId (uuid1 calls) node in
            let store := <[a := node]> store in
            let self := addNodeDictRef self a node in
            inr (store, self, S calls)
        | None => inl KeyError
        end
      else inr st
  | None => inr st
  end.

Fixpoint replaceLoop (duplicateDict : gmap string addr)
    (nodes : list addr) (st : Store * t * nat)
  : Outcome unit (Store * t * nat) :=
  match nodes with
  | [] => Return tt st
  | a :: nodes' =>
      match replaceStep duplicateDict st a with
      | inr st' => replaceLoop duplicateDict nodes' st'
      | inl e => Raise e st
      end
  end.

Definition replaceDuplicateIds (store : Store) (self : t) (calls : nat)
    (duplicateDict : gmap string addr) : Outcome unit (Store * t * nat) :=
  replaceLoop duplicateDict (snd <$> map_to_list (nodeDict self))
              (store, self, calls).

(** Modelled from the spec: [addTypeIfMissing] of [treeformats.py], which
    is not among the sources; "a type missing here is copied in; a
    same-named type already present is assumed compatible and not
    overwritten". *)
Definition addTypeIfMissing (formats : gmap string NodeFormat.t)
    (nodeFormat : NodeFormat.t) : gmap string NodeFormat.t :=
  match formats !! NodeFormat.name nodeFormat with
  | Some _ => formats
  | None => <[NodeFormat.name nodeFormat := nodeFormat]> formats
  end.

(** The [parent] argument of [addNodesFromStruct]: the structure itself,
    a node, or [None]. *)
Inductive Parent : Type :=
| ParentSelf
| ParentNode (a : addr)
| ParentNone.

(** The first loop over nodes: [self.nodeDict[node.uId] = node] for each
    node of the other structure's dictionary. *)
Definition mergeNodeDict (store : Store) (target : gmap string addr)
    (source : gmap string addr) : gmap string addr :=
  fold_left (fun nd entry =>
               match store !! snd entry with
               | Some node => <[TreeNode.uId node := snd entry]> nd
               | None => nd
               end)
            (map_to_list source) target.

(** The loop over the top-level nodes of the other structure. A negative
    [position] appends. After the first round with the structure as
    parent, [parent] is [None] and its [childList] cannot be read. *)
Fixpoint addTopNodes (nodes : list addr) (st : Store * t)
    (parent : Parent) (position : Z) : Outcome unit (Store * t) :=
  match nodes with
  | [] => Return tt st
  | a :: nodes' =>
      let (store, self) := st in
      let place (l : list addr) : list addr :=
        if (0 <=? position)%Z then list_insert_at (Z.to_nat position) a l
        else l ++ [a] in
      let position :=
        if (0 <=? position)%Z then (position + 1)%Z else position in
      match parent with
      | ParentNone => Raise AttributeError st
      | ParentSelf =>
          let self := set_childList (place (childList self)) self in
          addTopNodes nodes' (addSpotRef store a None, self)
                      ParentNone position
      | ParentNode p =>
          match store !! p with
          | Some parentNode =>
              let store :=
                <[p := TreeNode.set_childList
                         (place (TreeNode.childList parentNode)) parentNode]>
                  store in
              addTopNodes nodes' (addSpotRef store a (Some p), self)
                          parent position
          | None => Raise AttributeError st
          end
      end
  end.

Definition addNodesFromStruct (store : Store) (self treeStruct : t)
    (parent : Parent) (position : Z) : Outcome unit (Store * t) :=
  let self :=
    set_treeFormats
      (fold_left (fun formats entry => addTypeIfMissing formats (snd entry))
                 (map_to_list (treeFormats treeStruct)) (treeFormats self))
      self in
  let self :=
    set_nodeDict
      (mergeNodeDict store (nodeDict self) (nodeDict treeStruct)) self in
  addTopNodes (childList treeStruct) (store, self) parent position.

End Methods.

(** The loop of [applyConfigDialogFormats] over the renamed fields of one
    type, for the data of one node: the values of the renamed fields are
    collected under their new names while the old names are deleted, and
    written back afterwards ([node.data.update(tmpDataDict)]). [st] is
    the pair of [tmpDataDict] and [node.data]. *)
Definition renameStep (st : gmap string string * gmap string string)
    (entry : string * string) : gmap string string * gmap string string :=
  let (tmpDataDict, data) := st in
  let (oldName, newName) := entry in
  match data !! oldName with
  | Some value => (<[newName := value]> tmpDataDict, delete oldName data)
  | None => st
  end.

(** [fieldRenameDict] is given by its items, in the order in which the
    dictionary yields them. *)
Definition renameFields (fieldRenameDict : list (string * string))
    (data : gmap string string) : gmap string string :=
  let (tmpDataDict, data) :=
    fold_left renameStep fieldRenameDict (∅, data) in
  tmpDataDict ∪ data.

End TreeStructure.

(** * Properties of [nodeformat.py] *)

Import Text NodeFormat.

(** ** Characters and runs *)

Lemma ismark_not_star c : ismark c = true -> isstar c = false.
Proof. destruct c as [[] [] [] [] [] [] [] []]; vm_compute; congruence. Qed.

Lemma ismark_not_namechar c : ismark c = true -> isnamechar c = false.
Proof. destruct c as [[] [] [] [] [] [] [] []]; vm_compute; congruence. Qed.

Lemma namechar_not_star c : isnamechar c = true -> isstar c = false.
Proof. destruct c as [[] [] [] [] [] [] [] []]; vm_compute; congruence. Qed.

(** [headFails p s]: [s] does not start with a character of the class. *)
Definition headFails (p : ascii -> bool) (s : string) : Prop :=
  match s with
  | EmptyString => True
  | String c _ => p c = false
  end.

Lemma span_run p a b :
  all p a = true -> headFails p b -> span p (a +:+ b) = (a, b).
Proof.
  intros Ha Hb. induction a as [|c a IH].
  - change ("" +:+ b) with b. destruct b as [|d b]; [reflexivity|].
    simpl in *. now rewrite Hb.
  - rewrite app_String. simpl in *. apply andb_true_iff in Ha as [Hc Ha].
    rewrite Hc, (IH Ha). reflexivity.
Qed.

Lemma span_all p s a b : span p s = (a, b) -> all p a = true /\ headFails p b.
Proof.
  revert a b. induction s as [|c s IH]; simpl; intros a b H.
  - inversion H; subst. now split.
  - destruct (p c) eqn:Hc.
    + destruct (span p s) as [a' b'] eqn:E. inversion H; subst.
      destruct (IH _ _ eq_refl) as [Ha Hb]. simpl. now rewrite Hc, Ha.
    + inversion H; subst. simpl. now split.
Qed.

(** ** Field references *)

(** A modifier as the pattern reads it: a run of asterisks (the empty run
    included) or one of [?], [!], [&], [#]. *)
Definition validModifier (modifier : string) : Prop :=
  all isstar modifier = true \/
  exists c, ismark c = true /\ modifier = String c EmptyString.

(** A field name as the pattern reads it: one or more characters of
    [[\w_\-.]]. *)
Definition validName (fieldName : string) : Prop :=
  fieldName <> EmptyString /\ all isnamechar fieldName = true.

Lemma matchName_complete fieldName rest :
  validName fieldName ->
  matchName (fieldName +:+ "*}" +:+ rest) = Some (fieldName, rest).
Proof.
  intros [Hne Hall]. unfold matchName.
  rewrite (span_run isnamechar fieldName ("*}" +:+ rest) Hall); [|reflexivity].
  destruct fieldName; [congruence|reflexivity].
Qed.

Lemma matchName_mark c s : ismark c = true -> matchName (String c s) = None.
Proof.
  intros H. unfold matchName. simpl. now rewrite (ismark_not_namechar c H).
Qed.

Lemma matchFieldRef_complete modifier fieldName rest :
  validModifier modifier -> validName fieldName ->
  matchFieldRef (refText modifier fieldName +:+ rest)
  = Some (modifier, fieldName, rest).
Proof.
  intros Hm Hn.
  assert (Hs : refText modifier fieldName +:+ rest
               = String "{" (String "*"
                   (modifier +:+ fieldName +:+ "*}" +:+ rest))).
  { unfold refText. rewrite ?append_assoc. reflexivity. }
  rewrite Hs. unfold matchFieldRef.
  destruct Hm as [Hstars | (c & Hc & ->)].
  - rewrite (span_run isstar modifier (fieldName +:+ "*}" +:+ rest) Hstars).
    + now rewrite (matchName_complete _ _ Hn).
    + destruct Hn as [Hne Hall]. destruct fieldName as [|d n]; [congruence|].
      simpl in *. apply andb_true_iff in Hall as [Hd _].
      now apply namechar_not_star.
  - change (String c "" +:+ fieldName +:+ "*}" +:+ rest)
      with (String c (fieldName +:+ "*}" +:+ rest)).
    simpl. rewrite (ismark_not_star c Hc).
    rewrite (matchName_mark c _ Hc), Hc.
    now rewrite (matchName_complete _ _ Hn).
Qed.

Lemma fieldPartRe_reference modifier fieldName :
  validModifier modifier -> validName fieldName ->
  _fieldPartRe_match (refText modifier fieldName) = Some (modifier, fieldName).
Proof.
  intros Hm Hn. unfold _fieldPartRe_match.
  rewrite <- (append_nil_r (refText modifier fieldName)).
  now rewrite (matchFieldRef_complete _ _ EmptyString Hm Hn).
Qed.

(** C3. For a segment [{*<modifier><fieldname>*}], [parseField] returns a
    field object exactly when the modifier is empty and the name is a key
    of the format's field table, and the object is the one registered
    under that name; in every other case (name not registered, or a
    modifier of asterisks, [?], [!], [&] or [#]) it returns the segment
    itself, unchanged, as literal text. [parseField] is a total function:
    the [KeyError] of the lookup is caught and nothing else can raise. *)
Theorem parseField_reference (self : NodeFormat.t) modifier fieldName :
  validModifier modifier -> validName fieldName ->
  (forall field,
      parseField self (refText modifier fieldName) = PField field <->
      modifier = EmptyString /\ fieldDict self !! fieldName = Some field) /\
  (modifier <> EmptyString \/ fieldDict self !! fieldName = None ->
   parseField self (refText modifier fieldName)
   = PText (refText modifier fieldName)).
Proof.
  intros Hm Hn. unfold parseField.
  rewrite (fieldPartRe_reference _ _ Hm Hn).
  destruct modifier as [|c m]; simpl.
  - destruct (fieldDict self !! fieldName) as [f|] eqn:E; split.
    + intros field. split.
      * intros H. inversion H. now split.
      * intros [_ H]. now inversion H.
    + intros [H|H]; congruence.
    + intros field. split; [discriminate|]. intros [_ H]. discriminate.
    + reflexivity.
  - split.
    + intros field. split; [discriminate|]. intros [H _]. discriminate.
    + reflexivity.
Qed.

(** ** Whitespace normalization *)

Definition notspace (c : ascii) : bool := negb (isspace c).

(** A word of [str.split()]: not empty and free of whitespace. *)
Definition isWord (w : string) : Prop :=
  w <> EmptyString /\ all notspace w = true.

Definition curText (cur : option string) : string :=
  match cur with Some w => w | None => EmptyString end.

Lemma app_not_empty (s : string) c t : s +:+ String c t <> EmptyString.
Proof. destruct s; discriminate. Qed.

Lemma all_app p (s t : string) : all p (s +:+ t) = all p s && all p t.
Proof.
  induction s as [|c s IH]; [reflexivity|].
  rewrite app_String. simpl. now rewrite IH, andb_assoc.
Qed.

Lemma split_go_words cur s :
  match cur with Some w => isWord w | None => True end ->
  Forall isWord (Text.split_go cur s).
Proof.
  revert cur. induction s as [|c s IH]; intros cur Hcur; simpl.
  - destruct cur; auto.
  - destruct (isspace c) eqn:Hc.
    + destruct cur; [constructor; [assumption|]|]; now apply IH.
    + apply IH. destruct cur as [w|].
      * destruct Hcur as [Hne Hall]. split; [apply app_not_empty|].
        rewrite all_app, Hall. simpl. unfold notspace. now rewrite Hc.
      * split; [discriminate|]. simpl. unfold notspace. now rewrite Hc.
Qed.

Lemma split_go_run cur w t :
  isWord w ->
  Text.split_go cur (w +:+ t) = Text.split_go (Some (curText cur +:+ w)) t.
Proof.
  intros [Hne Hall]. revert cur. induction w as [|c w IH]; [congruence|].
  intros cur. rewrite app_String. simpl in *.
  apply andb_true_iff in Hall as [Hc Hall].
  unfold notspace in Hc. apply negb_true_iff in Hc. rewrite Hc.
  assert (Hcur : match cur with
                 | Some w0 => w0 +:+ String c ""
                 | None => String c ""
                 end = curText cur +:+ String c "") by now destruct cur.
  rewrite Hcur. destruct w as [|d w].
  - reflexivity.
  - rewrite IH; [|discriminate|assumption]. simpl.
    now rewrite append_assoc.
Qed.

Lemma split_join ws : Forall isWord ws -> Text.split (join " " ws) = ws.
Proof.
  unfold Text.split. induction 1 as [|w ws Hw Hws IH]; [reflexivity|].
  destruct ws as [|w2 ws].
  - simpl. rewrite <- (append_nil_r w) at 1. now rewrite split_go_run.
  - change (join " " (w :: w2 :: ws))
      with (w +:+ " " +:+ join " " (w2 :: ws)).
    rewrite split_go_run by assumption.
    change (" " +:+ join " " (w2 :: ws))
      with (String " " (join " " (w2 :: ws))).
    assert (Hsp : forall v t, Text.split_go (Some v) (String " " t)
                              = v :: Text.split_go None t) by reflexivity.
    rewrite Hsp, IH. reflexivity.
Qed.

Lemma normalize_idempotent s : normalize (normalize s) = normalize s.
Proof.
  unfold normalize. rewrite split_join; [reflexivity|].
  apply split_go_words. exact I.
Qed.

(** ** Splitting a line at its field references *)

Lemma matchName_valid s fieldName rest :
  matchName s = Some (fieldName, rest) -> validName fieldName.
Proof.
  unfold matchName. destruct (span isnamechar s) as [a b] eqn:E.
  apply span_all in E as [Ha _].
  destruct a as [|c a]; [discriminate|].
  destruct b as [|[[] [] [] [] [] [] [] []] b]; try discriminate.
  destruct b as [|[[] [] [] [] [] [] [] []] b]; try discriminate.
  intros H; inversion H; subst. split; [discriminate|assumption].
Qed.

Lemma matchFieldRef_valid s modifier fieldName rest :
  matchFieldRef s = Some (modifier, fieldName, rest) ->
  validModifier modifier /\ validName fieldName.
Proof.
  unfold matchFieldRef.
  destruct s as [|[[] [] [] [] [] [] [] []] s]; try discriminate.
  destruct s as [|[[] [] [] [] [] [] [] []] s0]; try discriminate.
  destruct (span isstar s0) as [stars s1] eqn:E.
  destruct (matchName s1) as [[n r]|] eqn:M.
  - intros H; inversion H; subst. apply span_all in E as [Hs _].
    split; [now left|]. eapply matchName_valid; eassumption.
  - destruct s0 as [|c s2]; [discriminate|].
    destruct (ismark c) eqn:Hc; [|discriminate].
    destruct (matchName s2) as [[n r]|] eqn:M2; [|discriminate].
    intros H; inversion H; subst. split.
    + right. now exists c.
    + eapply matchName_valid; eassumption.
Qed.

(** A match does not look past its end: text added after it changes
    nothing. *)
Lemma matchFieldRef_extend a b modifier fieldName rest :
  matchFieldRef a = Some (modifier, fieldName, rest) ->
  matchFieldRef (a +:+ b) = Some (modifier, fieldName, rest +:+ b).
Proof.
  intros H. destruct (matchFieldRef_valid _ _ _ _ H) as [Hm Hn].
  apply matchFieldRef_sound in H. subst a.
  rewrite append_assoc. now apply matchFieldRef_complete.
Qed.

Lemma matchFieldRef_prefix_none a b :
  matchFieldRef (a +:+ b) = None -> matchFieldRef a = None.
Proof.
  intros H. destruct (matchFieldRef a) as [[[m n] r]|] eqn:E; [|reflexivity].
  apply (matchFieldRef_extend a b) in E. congruence.
Qed.

Lemma split_go_concat acc s : concat (NodeFormat.split_go acc s) = acc +:+ s.
Proof.
  funelim (NodeFormat.split_go acc s); simp split_go.
  - reflexivity.
  - unfold concat in *. simpl. rewrite H.
    rewrite (matchFieldRef_sound _ _ _ _ e). reflexivity.
  - rewrite H. rewrite append_assoc. reflexivity.
Qed.

Lemma concat_filter parts :
  concat (List.filter (fun part => negb (isempty part)) parts) = concat parts.
Proof.
  induction parts as [|p parts IH]; [reflexivity|].
  destruct p; simpl; [exact IH|]. unfold concat in *. simpl. now rewrite IH.
Qed.

(** What a segment of the split can be: text at whose start the pattern
    does not match, or one well-formed reference. *)
Definition isSegment (p : string) : Prop :=
  matchFieldRef p = None \/
  exists modifier fieldName,
    validModifier modifier /\ validName fieldName /\
    p = refText modifier fieldName.

Lemma split_go_segments acc s :
  acc = EmptyString \/ matchFieldRef (acc +:+ s) = None ->
  Forall isSegment (NodeFormat.split_go acc s).
Proof.
  funelim (NodeFormat.split_go acc s); simp split_go; intros Hacc.
  - constructor; [|constructor]. left.
    destruct Hacc as [-> | Hacc]; [reflexivity|].
    now rewrite append_nil_r in Hacc.
  - constructor; [|constructor].
    + left. destruct Hacc as [-> | Hacc]; [reflexivity|].
      eapply matchFieldRef_prefix_none; eassumption.
    + right. exists modifier, fieldName.
      destruct (matchFieldRef_valid _ _ _ _ e) as [Hm Hn].
      split; [exact Hm | split; [exact Hn | reflexivity]].
    + apply H. now left.
  - apply H. right. rewrite append_assoc.
    destruct Hacc as [-> | Hacc]; [exact e|exact Hacc].
Qed.

(** ** Round trip of a format line *)

(** The field table files every field object under its own name, as
    [addField] does. *)
Definition fieldsNamed (self : NodeFormat.t) : Prop :=
  forall key field,
    fieldDict self !! key = Some field -> FieldFormat.name field = key.

Lemma addField_fieldsNamed hasFieldClass self fieldName fieldtype objId :
  fieldsNamed self ->
  fieldsNamed (addField hasFieldClass self fieldName fieldtype objId).
Proof.
  intros H key field. unfold addField. simpl.
  destruct (decide (fieldName = key)) as [->|Hne].
  - rewrite lookup_insert_eq. intros E; inversion E. reflexivity.
  - rewrite lookup_insert_ne by assumption. apply H.
Qed.

Lemma partText_parseField self p :
  fieldsNamed self -> isSegment p -> partText (parseField self p) = p.
Proof.
  intros Hnamed [Hnone | (m & n & Hm & Hn & ->)]; unfold parseField.
  - unfold _fieldPartRe_match. now rewrite Hnone.
  - rewrite (fieldPartRe_reference _ _ Hm Hn).
    destruct m as [|c m]; simpl; [|reflexivity].
    destruct (fieldDict self !! n) as [f|] eqn:E; [|reflexivity].
    simpl. unfold FieldFormat.sepName. now rewrite (Hnamed _ _ E).
Qed.

Lemma lineText_segments self ps :
  fieldsNamed self -> Forall isSegment ps ->
  lineText (List.map (parseField self) ps) = concat ps.
Proof.
  intros Hnamed. induction 1 as [|p ps Hp Hps IH]; [reflexivity|].
  unfold lineText, concat in *. simpl.
  now rewrite (partText_parseField self p Hnamed Hp), IH.
Qed.

Lemma Forall_filter_segments f ps :
  Forall isSegment ps -> Forall isSegment (List.filter f ps).
Proof.
  induction 1 as [|p ps Hp Hps IH]; simpl; [constructor|].
  destruct (f p); [constructor|]; assumption.
Qed.

(** Serializing a parsed line gives back the normalized text. *)
Lemma lineText_parseLine self s :
  fieldsNamed self -> lineText (parseLine self s) = normalize s.
Proof.
  intros Hnamed. unfold parseLine, _fieldSplitRe_split.
  rewrite lineText_segments.
  - now rewrite concat_filter, split_go_concat.
  - exact Hnamed.
  - apply Forall_filter_segments, split_go_segments. now left.
Qed.

Lemma parseLine_normalize self s : parseLine self (normalize s) = parseLine self s.
Proof. unfold parseLine. now rewrite normalize_idempotent. Qed.

(** C6. Parsing a raw line, writing the parsed line back as text (field
    objects by [sepName], literals as they are) and parsing that text
    again gives the parsed line of the first pass. The text written back
    is the raw line with every run of whitespace collapsed to one space
    and the whitespace at both ends removed. *)
Theorem parseLine_roundtrip (self : NodeFormat.t) (s : string) :
  fieldsNamed self ->
  lineText (parseLine self s) = normalize s /\
  parseLine self (lineText (parseLine self s)) = parseLine self s.
Proof.
  intros Hnamed. split.
  - now apply lineText_parseLine.
  - rewrite lineText_parseLine by assumption. apply parseLine_normalize.
Qed.

(** ** Output lines *)

Section OutputFacts.
Context {Node : Type}.
Variable outputText : FieldFormat -> Node -> bool -> bool -> string.
Variable removeMarkup : string -> string.
Variable self : NodeFormat.t.
Variable node : Node.
Variable plainText : bool.

(** The text that one part contributes to its line. *)
Definition renderPart (part : Part) : string :=
  match part with
  | PField field => outputText field node plainText (formatHtml self)
  | PText text =>
      if negb (formatHtml self) && negb plainText then escape text
      else if formatHtml self && plainText then removeMarkup text
      else text
  end.

Definition renderedLine (lineData : list Part) : string :=
  concat (List.map renderPart lineData).

(** What the field tokens of a line render, in order. *)
Definition fieldOutputs (lineData : list Part) : list string :=
  flat_map (fun part => match part with
                        | PField field =>
                            [outputText field node plainText (formatHtml self)]
                        | PText _ => []
                        end) lineData.

Definition countEmpty (outs : list string) : nat :=
  length (List.filter isempty outs).

Definition countFull (outs : list string) : nat :=
  length (List.filter (fun text => negb (isempty text)) outs).

Lemma formatLine_spec lineData line numEmptyFields numFullFields :
  formatLine outputText removeMarkup self node plainText lineData line
             numEmptyFields numFullFields
  = (line +:+ renderedLine lineData,
     numEmptyFields + countEmpty (fieldOutputs lineData),
     numFullFields + countFull (fieldOutputs lineData)).
Proof.
  revert line numEmptyFields numFullFields.
  induction lineData as [|part lineData IH]; intros line ne nf.
  - unfold renderedLine, countEmpty, countFull. simpl.
    now rewrite append_nil_r, !Nat.add_0_r.
  - destruct part as [text|field]; simpl formatLine.
    + rewrite IH. unfold renderedLine, concat. simpl.
      now rewrite append_assoc.
    + unfold countEmpty, countFull, renderedLine, concat in *. simpl.
      destruct (isempty (outputText field node plainText (formatHtml self)));
        simpl; rewrite IH, append_assoc;
        (apply f_equal2; [apply f_equal2; [reflexivity|]|]); simpl; lia.
Qed.

Lemma countFull_zero outs :
  countFull outs = 0 <-> Forall (fun text => text = EmptyString) outs.
Proof.
  unfold countFull. induction outs as [|o outs IH]; simpl.
  - split; [constructor|reflexivity].
  - destruct o; simpl.
    + rewrite IH. split; [now constructor|now inversion 1].
    + split; [discriminate|]. inversion 1; discriminate.
Qed.

Lemma countFull_pos outs :
  countFull outs <> 0 -> Exists (fun text => text <> EmptyString) outs.
Proof.
  unfold countFull. induction outs as [|o outs IH]; simpl; [congruence|].
  destruct o; simpl; intros H.
  - apply Exists_cons_tl, IH, H.
  - now apply Exists_cons_hd.
Qed.

Lemma countEmpty_zero_nil outs :
  countFull outs = 0 -> countEmpty outs = 0 -> outs = [].
Proof.
  unfold countFull, countEmpty. destruct outs as [|o outs]; [reflexivity|].
  simpl. destruct o; simpl; discriminate.
Qed.

(** The test [keepBlanks or numFullFields or not numEmptyFields]. *)
Definition keepsLine (keepBlanks : bool) (lineData : list Part) : Prop :=
  keepBlanks = true \/
  Exists (fun text => text <> EmptyString) (fieldOutputs lineData) \/
  fieldOutputs lineData = [].

Definition dropsLine (keepBlanks : bool) (lineData : list Part) : Prop :=
  keepBlanks = false /\
  fieldOutputs lineData <> [] /\
  Forall (fun text => text = EmptyString) (fieldOutputs lineData).

Lemma keeps_or_drops keepBlanks lineData :
  {keepsLine keepBlanks lineData} + {dropsLine keepBlanks lineData}.
Proof.
  unfold keepsLine, dropsLine. destruct keepBlanks; [left; now left|].
  destruct (fieldOutputs lineData) as [|o outs] eqn:E; [left; auto|].
  destruct (countFull (o :: outs)) as [|n] eqn:C.
  - right. apply countFull_zero in C. repeat split; [discriminate|exact C].
  - left. right. left. apply countFull_pos. congruence.
Qed.

Lemma keeps_not_drops keepBlanks lineData :
  keepsLine keepBlanks lineData -> dropsLine keepBlanks lineData -> False.
Proof.
  intros [Hk | [He | Hn]] (Hb & Hne & Hall); [congruence| |congruence].
  apply Exists_exists in He as (t & Hin & Ht).
  rewrite Forall_forall in Hall. apply Ht, Hall, Hin.
Qed.

Lemma formatOutputStep_keeps keepBlanks result lineData :
  keepsLine keepBlanks lineData ->
  formatOutputStep outputText removeMarkup self node plainText keepBlanks
                   result lineData
  = result ++ [renderedLine lineData].
Proof.
  intros Hk. unfold formatOutputStep. rewrite formatLine_spec. simpl.
  destruct keepBlanks; [reflexivity|]. simpl.
  destruct Hk as [Hk | [He | Hn]]; [discriminate| |].
  - destruct (countFull (fieldOutputs lineData)) as [|n] eqn:C;
      [|reflexivity].
    apply countFull_zero in C. exfalso.
    apply Exists_exists in He as (t & Hin & Ht).
    rewrite Forall_forall in C. apply Ht, C, Hin.
  - rewrite Hn. reflexivity.
Qed.

Lemma formatOutputStep_drops keepBlanks result lineData :
  dropsLine keepBlanks lineData ->
  formatOutputStep outputText removeMarkup self node plainText keepBlanks
                   result lineData
  = if formatHtml self && negb plainText && negb (isnil result)
    then match _endTagRe_match (renderedLine lineData) with
         | Some tag => mapLast (fun l => l +:+ tag) result
         | None => result
         end
    else result.
Proof.
  intros (Hb & Hne & Hall). unfold formatOutputStep.
  rewrite formatLine_spec. simpl. subst keepBlanks. simpl.
  apply countFull_zero in Hall. rewrite Hall. simpl.
  destruct (countEmpty (fieldOutputs lineData)) as [|n] eqn:C.
  - exfalso. now apply Hne, countEmpty_zero_nil.
  - reflexivity.
Qed.

Lemma mapLast_length {A : Type} (f : A -> A) l :
  length (mapLast f l) = length l.
Proof.
  induction l as [|x l IH]; [reflexivity|].
  destruct l; [reflexivity|]. simpl in *. now rewrite IH.
Qed.

Lemma formatOutputStep_drops_length keepBlanks result lineData :
  dropsLine keepBlanks lineData ->
  length (formatOutputStep outputText removeMarkup self node plainText
                           keepBlanks result lineData)
  = length result.
Proof.
  intros Hd. rewrite formatOutputStep_drops by assumption.
  destruct (formatHtml self && negb plainText && negb (isnil result));
    [|reflexivity].
  destruct (_endTagRe_match (renderedLine lineData)); [|reflexivity].
  apply mapLast_length.
Qed.

End OutputFacts.

Lemma formatLine_formatHtml {Node : Type}
    (outputText : FieldFormat -> Node -> bool -> bool -> string)
    (removeMarkup : string -> string) (self1 self2 : NodeFormat.t)
    node plainText lineData line numEmptyFields numFullFields :
  formatHtml self1 = formatHtml self2 ->
  formatLine outputText removeMarkup self1 node plainText lineData line
             numEmptyFields numFullFields
  = formatLine outputText removeMarkup self2 node plainText lineData line
               numEmptyFields numFullFields.
Proof.
  intros H. revert line numEmptyFields numFullFields.
  induction lineData as [|[text|field] lineData IH]; intros; simpl.
  - reflexivity.
  - rewrite H. apply IH.
  - rewrite H, !IH. reflexivity.
Qed.

Lemma formatOutputStep_formatHtml {Node : Type}
    (outputText : FieldFormat -> Node -> bool -> bool -> string)
    (removeMarkup : string -> string) (self1 self2 : NodeFormat.t)
    node plainText keepBlanks result lineData :
  formatHtml self1 = formatHtml self2 ->
  formatOutputStep outputText removeMarkup self1 node plainText keepBlanks
                   result lineData
  = formatOutputStep outputText removeMarkup self2 node plainText keepBlanks
                     result lineData.
Proof.
  intros H. unfold formatOutputStep.
  rewrite (formatLine_formatHtml _ _ self1 self2) by assumption.
  now rewrite H.
Qed.

Lemma fold_left_pointwise {A B : Type} (f g : A -> B -> A) l a :
  (forall x y, f x y = g x y) -> fold_left f l a = fold_left g l a.
Proof.
  intros H. revert a. induction l as [|y l IH]; intros a; [reflexivity|].
  simpl. rewrite H. apply IH.
Qed.

(** [formatOutput] on the lines [lines] followed by one more line is one
    more round of the loop. *)
Lemma formatOutput_snoc {Node : Type}
    (outputText : FieldFormat -> Node -> bool -> bool -> string)
    (removeMarkup : string -> string) (self : NodeFormat.t)
    node plainText keepBlanks lines lineData :
  formatOutput outputText removeMarkup
               (set_outputLines (lines ++ [lineData]) self)
               node plainText keepBlanks
  = formatOutputStep outputText removeMarkup self node plainText keepBlanks
      (formatOutput outputText removeMarkup (set_outputLines lines self)
                    node plainText keepBlanks)
      lineData.
Proof.
  unfold formatOutput. simpl. rewrite fold_left_app. simpl.
  rewrite (formatOutputStep_formatHtml _ _ _ self) by reflexivity.
  f_equal. apply fold_left_pointwise. intros result line.
  apply formatOutputStep_formatHtml. reflexivity.
Qed.

(** *** Example data *)

Definition emptyFormat (name : string) : NodeFormat.t :=
  NodeFormat.Build name ∅ [] [] [] EmptyString EmptyString
                   true false false false.

(** The field classes of the examples: text fields and number fields. *)
Definition exampleClasses (typeName : string) : bool :=
  String.eqb typeName "TextField" || String.eqb typeName "NumberField".

(** Modelled from the spec: the text field of [fieldformat.py], which is
    not among the sources. Its output is the text stored under the field's
    name in the node's data, and nothing when there is none. *)
Definition textOutput (field : FieldFormat) (data : gmap string string)
    (plainText formatHtml : bool) : string :=
  default EmptyString (data !! FieldFormat.name field).

(** A format with the text fields [A] and [B] and the one output line
    [{*A*}, {*B*}]. *)
Definition formatAB : NodeFormat.t :=
  let self :=
    addField exampleClasses
             (addField exampleClasses (emptyFormat "Item") "A" None 1)
             "B" None 2 in
  set_outputLines [parseLine self "{*A*}, {*B*}"] self.

Definition dataAB (a b : string) : gmap string string :=
  <["B" := b]> (<["A" := a]> ∅).

Lemma formatOutput_line_cases {Node : Type}
    (outputText : FieldFormat -> Node -> bool -> bool -> string)
    (removeMarkup : string -> string) (self : NodeFormat.t)
    node plainText keepBlanks lines lineData :
  let before := formatOutput outputText removeMarkup
                  (set_outputLines lines self) node plainText keepBlanks in
  let after := formatOutput outputText removeMarkup
                 (set_outputLines (lines ++ [lineData]) self)
                 node plainText keepBlanks in
  (after = before ++ [renderedLine outputText removeMarkup self node
                                   plainText lineData]
   <-> keepsLine outputText self node plainText keepBlanks lineData) /\
  (length after = length before
   <-> dropsLine outputText self node plainText keepBlanks lineData).
Proof.
  intros before after. subst before after. rewrite formatOutput_snoc.
  set (before := formatOutput _ _ (set_outputLines lines self) _ _ _).
  destruct (keeps_or_drops outputText self node plainText keepBlanks lineData)
    as [Hk|Hd].
  - rewrite (formatOutputStep_keeps _ _ _ _ _ _ _ _ Hk). split.
    + split; [intros _; exact Hk|reflexivity].
    + split.
      * rewrite length_app. simpl. lia.
      * intros Hd. exfalso. eapply keeps_not_drops; eassumption.
  - pose proof (formatOutputStep_drops_length outputText removeMarkup self
                  node plainText keepBlanks before lineData Hd) as Hlen.
    split.
    + split.
      * intros E. rewrite E, length_app in Hlen. simpl in Hlen. lia.
      * intros Hk. exfalso. eapply keeps_not_drops; eassumption.
    + split; [intros _; exact Hd|intros _; exact Hlen].
Qed.

(** C2. [formatOutput] appends the rendered text of an output line to its
    result exactly when [keepBlanks] is true, or a field token of the line
    rendered non-empty, or the line has no field token; it appends nothing
    (the result keeps its length) exactly when [keepBlanks] is false, the
    line has a field token and every field token rendered empty. For the
    output line [{*A*}, {*B*}] without [keepBlanks], a node with both
    fields empty gets no line and a node with [A] set to [x] gets the
    line [x, ]. *)
Theorem formatOutput_blank_lines :
  (forall (Node : Type)
          (outputText : FieldFormat -> Node -> bool -> bool -> string)
          (removeMarkup : string -> string) (self : NodeFormat.t)
          (node : Node) (plainText keepBlanks : bool)
          (lines : list (list Part)) (lineData : list Part),
      let before := formatOutput outputText removeMarkup
                      (set_outputLines lines self) node plainText keepBlanks in
      let after := formatOutput outputText removeMarkup
                     (set_outputLines (lines ++ [lineData]) self)
                     node plainText keepBlanks in
      (after = before ++ [renderedLine outputText removeMarkup self node
                                       plainText lineData]
       <-> (keepBlanks = true \/
            Exists (fun text => text <> EmptyString)
                   (fieldOutputs outputText self node plainText lineData) \/
            fieldOutputs outputText self node plainText lineData = [])) /\
      (length after = length before
       <-> (keepBlanks = false /\
            fieldOutputs outputText self node plainText lineData <> [] /\
            Forall (fun text => text = EmptyString)
                   (fieldOutputs outputText self node plainText lineData)))) /\
  outputLines formatAB
  = [[PField (FieldFormat.Build "A" "TextField" 1); PText ", ";
      PField (FieldFormat.Build "B" "TextField" 2)]] /\
  formatOutput textOutput id formatAB (dataAB "" "") false false = [] /\
  formatOutput textOutput id formatAB (dataAB "x" "") false false = ["x, "].
Proof.
  split; [|repeat split; vm_compute; reflexivity].
  intros. apply formatOutput_line_cases.
Qed.

(** ** The end tag of a skipped line *)

Definition notlt (c : ascii) : bool := negb (Ascii.eqb c "<").

Definition tagOpens : list string := ["<br"; "<BR"; "<hr"; "<HR"].

(** The tags that [_endTagRe] captures: [<br], [<BR], [<hr] or [<HR], then
    blanks and slashes in any number and order, then [>]. *)
Definition isEndTag (tag : string) : Prop :=
  exists tagOpen run,
    In tagOpen tagOpens /\ all isblankslash run = true /\
    tag = tagOpen +:+ run +:+ ">".

Lemma all_impl (p q : ascii -> bool) s :
  (forall c, p c = true -> q c = true) -> all p s = true -> all q s = true.
Proof.
  intros Hpq. induction s as [|c s IH]; [reflexivity|]. simpl.
  intros H. apply andb_true_iff in H as [Hc Hs].
  now rewrite (Hpq c Hc), (IH Hs).
Qed.

Lemma blankslash_notlt c : isblankslash c = true -> notlt c = true.
Proof. destruct c as [[] [] [] [] [] [] [] []]; vm_compute; congruence. Qed.

Lemma blankslash_isdot c : isblankslash c = true -> isdot c = true.
Proof. destruct c as [[] [] [] [] [] [] [] []]; vm_compute; congruence. Qed.

Lemma isEndTag_cases tag :
  isEndTag tag ->
  exists run, all isblankslash run = true /\
    (tag = "<br" +:+ run +:+ ">" \/ tag = "<BR" +:+ run +:+ ">" \/
     tag = "<hr" +:+ run +:+ ">" \/ tag = "<HR" +:+ run +:+ ">").
Proof.
  intros (tagOpen & run & Hin & Hrun & ->). exists run. split; [assumption|].
  simpl in Hin. destruct Hin as [<-|[<-|[<-|[<-|[]]]]]; auto.
Qed.

Lemma matchTag_run tagOpen run :
  all isblankslash run = true ->
  matchTag tagOpen (tagOpen +:+ run +:+ ">") = Some (tagOpen +:+ run +:+ ">").
Proof.
  intros Hrun. unfold matchTag.
  assert (Hp : forall p r, stripPrefix p (p +:+ r) = Some r).
  { induction p as [|c p IH]; intros r; [reflexivity|].
    rewrite app_String. simpl. now rewrite Ascii.eqb_refl. }
  rewrite Hp. now rewrite (span_run isblankslash run ">" Hrun).
Qed.

Lemma matchEndTag_tag tag : isEndTag tag -> matchEndTag tag = Some tag.
Proof.
  intros H. apply isEndTag_cases in H as (run & Hrun & [->|[->|[->| ->]]]);
    unfold matchEndTag.
  - now rewrite matchTag_run.
  - rewrite (matchTag_run "<BR") by assumption. reflexivity.
  - rewrite (matchTag_run "<hr") by assumption. reflexivity.
  - rewrite (matchTag_run "<HR") by assumption. reflexivity.
Qed.

Lemma stripPrefix_head a p c s :
  Ascii.eqb a c = false -> stripPrefix (String a p) (String c s) = None.
Proof. intros H. cbn [stripPrefix]. now rewrite H. Qed.

Lemma matchEndTag_notlt s : all notlt s = true -> matchEndTag s = None.
Proof.
  destruct s as [|c s]; [reflexivity|]. cbn [all]. intros H.
  apply andb_true_iff in H as [Hc _]. unfold notlt in Hc.
  apply negb_true_iff in Hc. rewrite Ascii.eqb_sym in Hc.
  unfold matchEndTag, matchTag.
  now rewrite !(stripPrefix_head "<" _ c s Hc).
Qed.

Lemma isEndTag_tail tag :
  isEndTag tag ->
  exists t, tag = String "<" t /\ all notlt t = true /\ all isdot tag = true.
Proof.
  intros H. apply isEndTag_cases in H as (run & Hrun & H).
  pose proof (all_impl _ _ run blankslash_notlt Hrun) as Hn.
  pose proof (all_impl _ _ run blankslash_isdot Hrun) as Hd.
  destruct H as [->|[->|[->| ->]]];
    [exists ("br" +:+ run +:+ ">") | exists ("BR" +:+ run +:+ ">")
    |exists ("hr" +:+ run +:+ ">") | exists ("HR" +:+ run +:+ ">")];
    (split; [reflexivity|]; split; rewrite !all_app, ?Hn, ?Hd; reflexivity).
Qed.

Lemma all_drop p j s : all p s = true -> all p (drop j s) = true.
Proof.
  revert s. induction j as [|j IH]; intros s H; destruct s as [|c s];
    simpl; try assumption.
  simpl in H. apply andb_true_iff in H as [_ H]. now apply IH.
Qed.

Lemma drop_app_length (a b : string) j :
  drop (String.length a + j) (a +:+ b) = drop j b.
Proof. induction a as [|c a IH]; [reflexivity|]. rewrite app_String. exact IH. Qed.

Lemma endTagSearch_hit k line tag :
  matchEndTag (drop k line) = Some tag -> endTagSearch k line = Some tag.
Proof. intros H. destruct k; cbn [endTagSearch]; now rewrite H. Qed.

Lemma endTagSearch_miss k line :
  matchEndTag (drop (S k) line) = None ->
  endTagSearch (S k) line = endTagSearch k line.
Proof. intros H. cbn [endTagSearch]. now rewrite H. Qed.

Lemma endTagSearch_tag body tag j :
  isEndTag tag ->
  endTagSearch (String.length body + j) (body +:+ tag) = Some tag.
Proof.
  intros Htag. induction j as [|j IH].
  - apply endTagSearch_hit. rewrite drop_app_length.
    now apply matchEndTag_tag.
  - rewrite Nat.add_succ_r, endTagSearch_miss; [exact IH|].
    rewrite <- Nat.add_succ_r, drop_app_length.
    destruct (isEndTag_tail tag Htag) as (t & -> & Ht & _).
    apply matchEndTag_notlt. cbn [drop]. now apply all_drop.
Qed.

Lemma endTagRe_match_tag body tag :
  all isdot body = true -> isEndTag tag ->
  _endTagRe_match (body +:+ tag) = Some tag.
Proof.
  intros Hbody Htag. unfold _endTagRe_match.
  destruct (isEndTag_tail tag Htag) as (t & _ & _ & Hdot).
  rewrite <- (append_nil_r (body +:+ tag)) at 1.
  rewrite (span_run isdot (body +:+ tag) ""); [|now rewrite all_app, Hbody|exact I].
  simpl. rewrite append_length. now apply endTagSearch_tag.
Qed.

Lemma mapLast_last {A : Type} (f : A -> A) (l : list A) (d : A) :
  l <> [] -> mapLast f l = removelast l ++ [f (List.last l d)].
Proof.
  induction l as [|x l IH]; [congruence|]. intros _.
  destruct l as [|y l]; [reflexivity|].
  change (mapLast f (x :: y :: l)) with (x :: mapLast f (y :: l)).
  rewrite IH by discriminate. reflexivity.
Qed.

(** The tag of a skipped line whose text before the tag holds no newline
    goes to the last line of the result. *)
Lemma formatOutput_end_tag_text {Node : Type}
    (outputText : FieldFormat -> Node -> bool -> bool -> string)
    (removeMarkup : string -> string) (self : NodeFormat.t)
    (node : Node) (keepBlanks : bool)
    (lines : list (list Part)) (lineData : list Part) (body tag : string) :
  formatHtml self = true ->
  dropsLine outputText self node false keepBlanks lineData ->
  renderedLine outputText removeMarkup self node false lineData
  = body +:+ tag ->
  all isdot body = true ->
  isEndTag tag ->
  formatOutput outputText removeMarkup (set_outputLines lines self)
               node false keepBlanks <> [] ->
  formatOutput outputText removeMarkup
               (set_outputLines (lines ++ [lineData]) self)
               node false keepBlanks
  = removelast (formatOutput outputText removeMarkup
                  (set_outputLines lines self) node false keepBlanks)
    ++ [List.last (formatOutput outputText removeMarkup
                     (set_outputLines lines self) node false keepBlanks)
                  EmptyString +:+ tag].
Proof.
  intros Hhtml Hdrop Hline Hbody Htag Hne.
  rewrite formatOutput_snoc, formatOutputStep_drops by assumption.
  rewrite Hhtml, Hline, (endTagRe_match_tag body tag Hbody Htag).
  destruct (formatOutput outputText removeMarkup (set_outputLines lines self)
              node false keepBlanks) as [|l ls] eqn:E; [congruence|].
  simpl negb. simpl andb. cbv iota.
  apply (mapLast_last (fun l0 => l0 +:+ tag)). discriminate.
Qed.

(** *** Parsed lines hold no newline

    The condition on the text before the tag is met by every line that
    [parseLine] produced: its literal parts are pieces of the normalized
    text, and the field tokens of a skipped line rendered nothing. *)

Definition literalsOneLine (lineData : list Part) : Prop :=
  Forall (fun part => match part with
                      | PText text => all isdot text = true
                      | PField _ => True
                      end) lineData.

Lemma notspace_isdot c : notspace c = true -> isdot c = true.
Proof. destruct c as [[] [] [] [] [] [] [] []]; vm_compute; congruence. Qed.

Lemma all_isdot_join ws :
  Forall isWord ws -> all isdot (join " " ws) = true.
Proof.
  induction 1 as [|w ws [_ Hw] Hws IH]; [reflexivity|].
  pose proof (all_impl _ _ w notspace_isdot Hw) as Hd.
  destruct ws as [|w2 ws]; [exact Hd|].
  change (join " " (w :: w2 :: ws)) with (w +:+ " " +:+ join " " (w2 :: ws)).
  now rewrite !all_app, Hd, IH.
Qed.

Lemma all_isdot_normalize s : all isdot (normalize s) = true.
Proof. apply all_isdot_join, split_go_words. exact I. Qed.

Lemma all_concat p parts :
  all p (concat parts) = true -> Forall (fun part => all p part = true) parts.
Proof.
  induction parts as [|part parts IH]; [constructor|].
  unfold concat in *. simpl. rewrite all_app. intros H.
  apply andb_true_iff in H as [H1 H2]. constructor; [exact H1|auto].
Qed.

Lemma parseLine_literalsOneLine self raw :
  literalsOneLine (parseLine self raw).
Proof.
  unfold literalsOneLine, parseLine, _fieldSplitRe_split.
  assert (H : Forall (fun part => all isdot part = true)
                     (NodeFormat.split_go "" (normalize raw))).
  { apply all_concat. rewrite split_go_concat. apply all_isdot_normalize. }
  induction H as [|seg segs Hseg Hsegs IH]; [constructor|].
  simpl. destruct (isempty seg); simpl; [exact IH|].
  constructor; [|exact IH].
  unfold parseField. destruct (_fieldPartRe_match seg) as [[m n]|];
    [|exact Hseg].
  destruct (isempty m); [|exact Hseg].
  destruct (fieldDict self !! n); [exact I|exact Hseg].
Qed.

Lemma renderedLine_oneLine {Node : Type}
    (outputText : FieldFormat -> Node -> bool -> bool -> string)
    (removeMarkup : string -> string) (self : NodeFormat.t)
    (node : Node) (keepBlanks : bool) (lineData : list Part) :
  formatHtml self = true ->
  literalsOneLine lineData ->
  dropsLine outputText self node false keepBlanks lineData ->
  all isdot (renderedLine outputText removeMarkup self node false lineData)
  = true.
Proof.
  intros Hhtml Hlit (_ & _ & Hempty). unfold renderedLine, concat.
  induction Hlit as [|part lineData Hpart Hlit IH]; [reflexivity|].
  destruct part as [text|field]; simpl in *; rewrite Hhtml in *; simpl.
  - rewrite all_app, Hpart. now apply IH.
  - inversion Hempty as [|? ? Hfield Hrest]; subst. rewrite Hfield.
    now apply IH.
Qed.


(** C8 (as amended). With [formatHtml] set and [plainText] not, when a
    line is skipped (it has field tokens and all of them rendered empty),
    its literal parts hold no newline (as in every line that [parseLine]
    produced), its rendered text ends with a tag [<br], [<BR], [<hr] or
    [<HR] closed by blanks and slashes and [>], and the result so far is
    not empty, that tag is appended to the last line of the result;
    nothing else changes. *)
Theorem formatOutput_end_tag {Node : Type}
    (outputText : FieldFormat -> Node -> bool -> bool -> string)
    (removeMarkup : string -> string) (self : NodeFormat.t)
    (node : Node) (keepBlanks : bool)
    (lines : list (list Part)) (lineData : list Part) (body tag : string) :
  formatHtml self = true ->
  literalsOneLine lineData ->
  dropsLine outputText self node false keepBlanks lineData ->
  renderedLine outputText removeMarkup self node false lineData
  = body +:+ tag ->
  isEndTag tag ->
  formatOutput outputText removeMarkup (set_outputLines lines self)
               node false keepBlanks <> [] ->
  formatOutput outputText removeMarkup
               (set_outputLines (lines ++ [lineData]) self)
               node false keepBlanks
  = removelast (formatOutput outputText removeMarkup
                  (set_outputLines lines self) node false keepBlanks)
    ++ [List.last (formatOutput outputText removeMarkup
                     (set_outputLines lines self) node false keepBlanks)
                  EmptyString +:+ tag].
Proof.
  intros Hhtml Hlit Hdrop Hline Htag Hne.
  apply (formatOutput_end_tag_text outputText removeMarkup self node
           keepBlanks lines lineData body tag); try assumption.
  pose proof (renderedLine_oneLine outputText removeMarkup self node
                keepBlanks lineData Hhtml Hlit Hdrop) as H.
  rewrite Hline, all_app in H. now apply andb_true_iff in H as [H _].
Qed.

(** A format in HTML mode with the text field [A], the output line [x] and
    a second output line [tagLine]. *)
Definition formatHtmlA (tagLine : string) : NodeFormat.t :=
  let self :=
    addField exampleClasses
             (NodeFormat.Build "Item" ∅ [] [] [] EmptyString EmptyString
                               true true false false) "A" None 1 in
  set_outputLines [parseLine self "x"; parseLine self tagLine] self.

Lemma formatOutput_end_tag_witness :
  formatOutput textOutput id
    (set_outputLines ([[PText "x"]] ++ [parseLine (formatHtmlA "") "{*A*}<br />"])
                     (formatHtmlA ""))
    ∅ false false
  = ["x<br />"].
Proof.
  apply (formatOutput_end_tag textOutput id (formatHtmlA "") ∅ false
           [[PText "x"]] (parseLine (formatHtmlA "") "{*A*}<br />")
           "" "<br />").
  - reflexivity.
  - apply parseLine_literalsOneLine.
  - split; [reflexivity|]. split; [vm_compute; discriminate|].
    vm_compute. constructor; [reflexivity|constructor].
  - vm_compute. reflexivity.
  - exists "<br", " /". split; [simpl; auto|]. split; reflexivity.
  - vm_compute. discriminate.
Defined.

(** C8, counterexample: a skipped line that ends with the line-break tag
    [<Br>], written in mixed case, leaves the previous line as it is. *)
Lemma formatOutput_end_tag_mixed_case :
  outputLines (formatHtmlA "{*A*}<Br>")
  = [[PText "x"];
     [PField (FieldFormat.Build "A" "TextField" 1); PText "<Br>"]] /\
  formatOutput textOutput id (formatHtmlA "{*A*}<Br>") ∅ false false = ["x"] /\
  formatOutput textOutput id (formatHtmlA "{*A*}<Br>") ∅ false false
  <> ["x<Br>"].
Proof.
  split; [vm_compute; reflexivity|].
  split; [vm_compute; reflexivity|vm_compute; discriminate].
Qed.

(** *** Examples for field references and the round trip *)

Lemma parseField_reference_witness :
  (forall field,
      parseField formatAB (refText "" "A") = PField field <->
      "" = EmptyString /\ fieldDict formatAB !! "A" = Some field) /\
  (("" : string) <> EmptyString \/ fieldDict formatAB !! "A" = None ->
   parseField formatAB (refText "" "A") = PText (refText "" "A")).
Proof.
  apply (parseField_reference formatAB "" "A").
  - left. reflexivity.
  - split; [discriminate|reflexivity].
Defined.

Lemma formatAB_fieldsNamed : fieldsNamed formatAB.
Proof.
  unfold formatAB. cbn zeta.
  intros key field. cbn [fieldDict set_outputLines].
  apply addField_fieldsNamed, addField_fieldsNamed.
  intros k f. cbn. rewrite lookup_empty. discriminate.
Qed.

Lemma parseLine_roundtrip_witness :
  lineText (parseLine formatAB "  {*A*},
     {*?B*}  and {*C*} ")
  = "{*A*}, {*?B*} and {*C*}" /\
  parseLine formatAB
    (lineText (parseLine formatAB "  {*A*},
     {*?B*}  and {*C*} "))
  = parseLine formatAB "  {*A*},
     {*?B*}  and {*C*} ".
Proof.
  apply (parseLine_roundtrip formatAB "  {*A*},
     {*?B*}  and {*C*} ").
  exact formatAB_fieldsNamed.
Defined.

(** ** Reading a title back *)

Definition isdigit (c : ascii) : bool := between 48 57 (code c).

(** Modelled from the spec: [storedTextFromTitle] of the field classes in
    [fieldformat.py], which is not among the sources; the spec gives a
    field the capability "parseFromTitleText(text) -> storedValue or
    failure". A text field stores the title text as it is; a number field
    accepts a run of digits and fails ([ValueError]) on anything else. *)
Definition storedFromTitle (field : FieldFormat) (text : string)
  : option string :=
  if String.eqb (FieldFormat.typeName field) "NumberField"
  then if negb (isempty text) && all isdigit text then Some text else None
  else Some text.

(** The title template [{*First*} {*Last*}] over two text fields. *)
Definition formatName : NodeFormat.t :=
  let self :=
    addField exampleClasses
             (addField exampleClasses (emptyFormat "Person") "First" None 1)
             "Last" None 2 in
  set_titleLine (parseLine self "{*First*} {*Last*}") self.

(** The title template [{*Name*} {*Qty*}] over a text field and a number
    field. *)
Definition formatItem : NodeFormat.t :=
  let self :=
    addField exampleClasses
             (addField exampleClasses (emptyFormat "Item") "Name" None 1)
             "Qty" (Some "Number") 2 in
  set_titleLine (parseLine self "{*Name*} {*Qty*}") self.

Definition titleFields (self : NodeFormat.t) : list FieldFormat :=
  flat_map (fun seg => match seg with
                       | PField field => [field]
                       | PText _ => []
                       end) (titleLine self).

Definition titlePattern (self : NodeFormat.t) : list Pat :=
  List.map (fun seg => match seg with
                       | PField _ => Group
                       | PText text => Lit text
                       end) (titleLine self).

Definition titleExtraText (self : NodeFormat.t) : string :=
  concat (flat_map (fun seg => match seg with
                               | PField _ => []
                               | PText text => [text]
                               end) (titleLine self)).

Lemma extractTitleData_unfold storedTextFromTitle self titleString data :
  extractTitleData storedTextFromTitle self titleString data
  = match reMatch (titlePattern self) titleString with
    | Some groups =>
        storeGroups storedTextFromTitle (titleFields self) groups data
    | None =>
        if isempty (strip (titleExtraText self)) then
          match titleFields self with
          | [] => Raise IndexError data
          | field0 :: fields' =>
              match storedTextFromTitle field0 titleString with
              | Some text =>
                  Return true
                    (fold_left
                       (fun d field =>
                          <[FieldFormat.name field := EmptyString]> d)
                       fields' (<[FieldFormat.name field0 := text]> data))
              | None => Return false data
              end
          end
        else Return false data
    end.
Proof. reflexivity. Qed.

Lemma formatName_title :
  titleFields formatName
  = [FieldFormat.Build "First" "TextField" 1;
     FieldFormat.Build "Last" "TextField" 2] /\
  titlePattern formatName = [Group; Lit " "; Group] /\
  titleExtraText formatName = " ".
Proof. repeat split; vm_compute; reflexivity. Qed.

(** C4 (as amended). For the title template [{*First*} {*Last*}] over two
    registered text fields, [extractTitleData] succeeds on [Ann Lee] and
    sets [First] to [Ann] and [Last] to [Lee]; on [AnnLee] the pattern
    does not match, the only separator is whitespace, and the call
    succeeds as well, setting [First] to [AnnLee] and [Last] to the empty
    string. *)
Theorem extractTitleData_first_last (data : gmap string string) :
  extractTitleData storedFromTitle formatName "Ann Lee" data
  = Return true (<["Last" := "Lee"]> (<["First" := "Ann"]> data)) /\
  extractTitleData storedFromTitle formatName "AnnLee" data
  = Return true (<["Last" := ""]> (<["First" := "AnnLee"]> data)).
Proof.
  destruct formatName_title as (Hf & Hp & He).
  rewrite !extractTitleData_unfold, Hf, Hp, He. split.
  - assert (Hm : reMatch [Group; Lit " "; Group] "Ann Lee"
                 = Some ["Ann"; "Lee"]) by (vm_compute; reflexivity).
    rewrite Hm. reflexivity.
  - assert (Hm : reMatch [Group; Lit " "; Group] "AnnLee" = None)
      by (vm_compute; reflexivity).
    rewrite Hm. reflexivity.
Qed.

(** C4, counterexample: on [AnnLee] the call returns [True], with the
    whole title in [First]. *)
Lemma extractTitleData_AnnLee_succeeds :
  extractTitleData storedFromTitle formatName "AnnLee" ∅
  = Return true (<["Last" := ""]> (<["First" := "AnnLee"]> ∅)) /\
  extractTitleData storedFromTitle formatName "AnnLee" ∅ <> Return false ∅.
Proof. split; [vm_compute; reflexivity|vm_compute; discriminate]. Qed.

(** When the title matches neither the pattern nor the whitespace
    fallback, or the conversion of the first field fails in the fallback,
    [False] is returned before anything is stored. *)
Lemma extractTitleData_mismatch_unchanged
    (storedTextFromTitle : FieldFormat -> string -> option string)
    (self : NodeFormat.t) (titleString : string)
    (data data' : gmap string string) :
  reMatch (titlePattern self) titleString = None ->
  extractTitleData storedTextFromTitle self titleString data
  = Return false data' ->
  data' = data.
Proof.
  intros Hm. rewrite extractTitleData_unfold, Hm.
  destruct (isempty (strip (titleExtraText self))).
  - destruct (titleFields self) as [|f fs]; [discriminate|].
    destruct (storedTextFromTitle f titleString); [discriminate|].
    intros H; now inversion H.
  - intros H; now inversion H.
Qed.

(** Whatever the outcome of the loop over the matched groups, a key that
    is not the name of a title field keeps its entry. *)
Lemma storeGroups_frame
    (storedTextFromTitle : FieldFormat -> string -> option string)
    (fields : list FieldFormat) (groups : list string)
    (data data' : gmap string string) (r : bool) (key : string) :
  storeGroups storedTextFromTitle fields groups data = Return r data' ->
  ~ In key (List.map FieldFormat.name fields) ->
  data' !! key = data !! key.
Proof.
  revert groups data. induction fields as [|f fs IH]; intros groups data.
  - simpl. intros H _. now inversion H.
  - destruct groups as [|g gs]; [discriminate|]. simpl.
    destruct (storedTextFromTitle f g) as [v|].
    + intros H Hnin. rewrite (IH _ _ H) by tauto.
      apply lookup_insert_ne. tauto.
    + intros H _. now inversion H.
Qed.

(** C5, the failing input. The title [Apples many] matches the template
    [{*Name*} {*Qty*}]; [Name] is stored, then the number field [Qty]
    rejects [many] and the call returns [False] with [Name] changed in the
    dictionary it was given. *)
Theorem extractTitleData_failure_keeps_changes :
  extractTitleData storedFromTitle formatItem "Apples many" ∅
  = Return false (<["Name" := "Apples"]> ∅) /\
  (<["Name" := "Apples"]> ∅ : gmap string string) !! "Name"
  <> (∅ : gmap string string) !! "Name".
Proof. split; [vm_compute; reflexivity|vm_compute; discriminate]. Qed.

(** ** Bullets, tables and their removal *)

Lemma parseLine_fieldDict (self1 self2 : NodeFormat.t) text :
  fieldDict self1 = fieldDict self2 ->
  parseLine self1 text = parseLine self2 text.
Proof.
  intros H. unfold parseLine. apply map_ext. intros seg.
  unfold parseField. now rewrite H.
Qed.

Lemma map_parseLine_fieldDict (self1 self2 : NodeFormat.t) texts :
  fieldDict self1 = fieldDict self2 ->
  List.map (parseLine self1) texts = List.map (parseLine self2) texts.
Proof.
  intros H. apply map_ext. intros text. now apply parseLine_fieldDict.
Qed.

Lemma isnil_map {A B : Type} (f : A -> B) l : isnil (List.map f l) = isnil l.
Proof. now destruct l. Qed.

Lemma isnil_false {A : Type} (l : list A) : l <> [] -> isnil l = false.
Proof. destruct l; [congruence|reflexivity]. Qed.

Lemma lineText_rawLines lines : List.map lineText (rawLines lines) = lines.
Proof.
  induction lines as [|l lines IH]; [reflexivity|]. simpl.
  rewrite IH. unfold lineText, concat. simpl. now rewrite append_nil_r.
Qed.

Lemma getOutputLines_original self :
  origOutputLines self <> [] ->
  getOutputLines self true = List.map lineText (origOutputLines self).
Proof.
  intros H. unfold getOutputLines. simpl.
  rewrite (isnil_false _ H). simpl. now rewrite isnil_map, (isnil_false _ H).
Qed.

Lemma getOutputLines_current self :
  outputLines self <> [] ->
  getOutputLines self false = List.map lineText (outputLines self).
Proof.
  intros H. unfold getOutputLines. simpl.
  now rewrite isnil_map, (isnil_false _ H).
Qed.

Lemma updateLineParsing_fieldDict self :
  fieldDict (updateLineParsing self) = fieldDict self.
Proof.
  unfold updateLineParsing. cbn zeta.
  destruct (negb (isnil (origOutputLines _))); reflexivity.
Qed.

Lemma updateLineParsing_sibling self :
  siblingPrefix (updateLineParsing self) = siblingPrefix self /\
  siblingSuffix (updateLineParsing self) = siblingSuffix self.
Proof.
  unfold updateLineParsing. cbn zeta.
  destruct (negb (isnil (origOutputLines _))); split; reflexivity.
Qed.

Lemma updateLineParsing_outputLines self :
  outputLines (updateLineParsing self)
  = List.map (parseLine self) (getOutputLines self false).
Proof.
  unfold updateLineParsing. cbn zeta.
  destruct (negb (isnil (origOutputLines _))); cbn [outputLines set_origOutputLines set_outputLines];
    apply map_parseLine_fieldDict; reflexivity.
Qed.

Lemma updateLineParsing_origOutputLines self :
  origOutputLines self <> [] ->
  origOutputLines (updateLineParsing self)
  = List.map (parseLine self) (List.map lineText (origOutputLines self)).
Proof.
  intros H. unfold updateLineParsing. cbn zeta.
  cbn [origOutputLines set_outputLines set_titleLine].
  rewrite (isnil_false _ H). cbn [negb origOutputLines set_origOutputLines].
  rewrite getOutputLines_original by exact H.
  apply map_parseLine_fieldDict. reflexivity.
Qed.

(** The lines are in parsed form: parsing the text of each line gives the
    line back. *)
Definition parsedLines (self : NodeFormat.t) (lines : list (list Part)) : Prop :=
  List.map (parseLine self) (List.map lineText lines) = lines.

(** Every line that [parseLine] produced is in parsed form. *)
Lemma parseLine_parsedLines self texts :
  fieldsNamed self -> parsedLines self (List.map (parseLine self) texts).
Proof.
  intros Hnamed. unfold parsedLines. rewrite !map_map. apply map_ext.
  intros text. now apply parseLine_roundtrip.
Qed.

(** What [addBullets] and [addTables] share: the current lines are saved,
    the decorated text lines take their place, and all lines are parsed
    again. Removing the decoration then restores the saved lines. *)
Lemma decorate_clear self prefix suffix lines :
  outputLines self <> [] ->
  parsedLines self (outputLines self) ->
  let decorated :=
    updateLineParsing
      (set_outputLines (rawLines lines)
         (set_origOutputLines (outputLines self)
            (set_sibling prefix suffix self))) in
  outputLines (clearBulletsAndTables decorated) = outputLines self /\
  origOutputLines (clearBulletsAndTables decorated) = [] /\
  siblingPrefix (clearBulletsAndTables decorated) = EmptyString /\
  siblingSuffix (clearBulletsAndTables decorated) = EmptyString.
Proof.
  intros Hne Hparsed decorated.
  assert (Horig : origOutputLines decorated = outputLines self).
  { unfold decorated. rewrite updateLineParsing_origOutputLines by exact Hne.
    cbn [origOutputLines set_outputLines set_origOutputLines].
    etransitivity; [|exact Hparsed].
    apply map_parseLine_fieldDict. reflexivity. }
  assert (Hfd : fieldDict decorated = fieldDict self).
  { unfold decorated. now rewrite updateLineParsing_fieldDict. }
  clearbody decorated.
  set (restored := set_outputLines (outputLines self)
                     (set_sibling EmptyString EmptyString decorated)).
  assert (Hclear : clearBulletsAndTables decorated
                   = set_origOutputLines [] (updateLineParsing restored)).
  { unfold clearBulletsAndTables. cbn zeta.
    cbn [origOutputLines set_sibling]. rewrite Horig, (isnil_false _ Hne).
    reflexivity. }
  rewrite Hclear. cbn [outputLines siblingPrefix siblingSuffix
                       origOutputLines set_origOutputLines].
  assert (Hout : outputLines restored = outputLines self) by reflexivity.
  assert (Hfd' : fieldDict restored = fieldDict self) by exact Hfd.
  assert (Hsib : siblingPrefix restored = EmptyString /\
                 siblingSuffix restored = EmptyString) by (split; reflexivity).
  clearbody restored.
  split; [|split; [reflexivity|]].
  - rewrite updateLineParsing_outputLines.
    rewrite getOutputLines_current by (rewrite Hout; exact Hne).
    rewrite Hout. etransitivity; [|exact Hparsed].
    apply map_parseLine_fieldDict. exact Hfd'.
  - destruct (updateLineParsing_sibling restored) as [Hp Hs].
    destruct Hsib as [Hp' Hs']. now rewrite Hp, Hs, Hp', Hs'.
Qed.

Lemma addBullets_decorated self :
  exists lines,
    addBullets self
    = updateLineParsing
        (set_outputLines (rawLines lines)
           (set_origOutputLines (outputLines self)
              (set_sibling "<ul>" "</ul>" self))).
Proof. eexists. unfold addBullets. cbn zeta. reflexivity. Qed.

Lemma addTables_decorated self decorated :
  addTables self = Return tt decorated ->
  exists prefix lines,
    decorated
    = updateLineParsing
        (set_outputLines (rawLines lines)
           (set_origOutputLines (outputLines self)
              (set_sibling prefix "</table>" self))).
Proof.
  unfold addTables. cbn zeta.
  destruct (tableLines self _) as [e|[newLines headings]]; [discriminate|].
  destruct (List.map _ newLines) as [|l ls] eqn:E; [discriminate|].
  intros H. inversion H. eexists. eexists. reflexivity.
Qed.

(** C7 (as amended). For a format whose list of output lines is not empty
    and holds lines in parsed form, [clearBulletsAndTables] after
    [addBullets], or after an [addTables] that returned, leaves exactly
    the output lines held before the decoration, no saved original lines,
    and an empty sibling prefix and suffix. *)
Theorem clearBulletsAndTables_restores (self : NodeFormat.t) :
  outputLines self <> [] ->
  parsedLines self (outputLines self) ->
  (outputLines (clearBulletsAndTables (addBullets self)) = outputLines self /\
   origOutputLines (clearBulletsAndTables (addBullets self)) = [] /\
   siblingPrefix (clearBulletsAndTables (addBullets self)) = EmptyString /\
   siblingSuffix (clearBulletsAndTables (addBullets self)) = EmptyString) /\
  (forall decorated,
      addTables self = Return tt decorated ->
      outputLines (clearBulletsAndTables decorated) = outputLines self /\
      origOutputLines (clearBulletsAndTables decorated) = [] /\
      siblingPrefix (clearBulletsAndTables decorated) = EmptyString /\
      siblingSuffix (clearBulletsAndTables decorated) = EmptyString).
Proof.
  intros Hne Hparsed. split.
  - destruct (addBullets_decorated self) as [lines ->].
    now apply decorate_clear.
  - intros decorated H.
    destruct (addTables_decorated self decorated H) as (prefix & lines & ->).
    now apply decorate_clear.
Qed.

Lemma formatAB_parsedLines : parsedLines formatAB (outputLines formatAB).
Proof.
  apply (parseLine_parsedLines formatAB ["{*A*}, {*B*}"]).
  exact formatAB_fieldsNamed.
Qed.

Lemma clearBulletsAndTables_restores_witness :
  outputLines (clearBulletsAndTables (addBullets formatAB))
  = outputLines formatAB /\
  siblingPrefix (clearBulletsAndTables (addBullets formatAB)) = EmptyString /\
  siblingSuffix (clearBulletsAndTables (addBullets formatAB)) = EmptyString.
Proof.
  assert (Hne : outputLines formatAB <> []) by (vm_compute; discriminate).
  destruct (clearBulletsAndTables_restores formatAB Hne formatAB_parsedLines)
    as [(Ho & _ & Hp & Hs) _].
  split; [exact Ho|]. split; [exact Hp|exact Hs].
Defined.

(** A format whose one output line [a {*A*} b] has lost its field to
    [removeField]: two literal parts are left side by side. *)
Definition formatRemoved : NodeFormat.t :=
  let self := addField exampleClasses (emptyFormat "Item") "A" None 1 in
  removeField (set_outputLines [parseLine self "a {*A*} b"] self)
              (FieldFormat.Build "A" "TextField" 1).

(** C7, counterexample: a format with no output line at all comes back
    from [addBullets] and [clearBulletsAndTables] with one empty line, and
    a line that is not in parsed form comes back parsed again, with its
    neighbouring literals joined. *)
Lemma clearBulletsAndTables_not_restored :
  (outputLines (emptyFormat "Item") = [] /\
   outputLines (clearBulletsAndTables (addBullets (emptyFormat "Item")))
   = [[]] /\
   outputLines (clearBulletsAndTables (addBullets (emptyFormat "Item")))
   <> outputLines (emptyFormat "Item")) /\
  (outputLines formatRemoved = [[PText "a "; PText " b"]] /\
   outputLines (clearBulletsAndTables (addBullets formatRemoved))
   = [[PText "a b"]] /\
   outputLines (clearBulletsAndTables (addBullets formatRemoved))
   <> outputLines formatRemoved).
Proof.
  split.
  - split; [reflexivity|].
    split; [vm_compute; reflexivity|vm_compute; discriminate].
  - split; [vm_compute; reflexivity|].
    split; [vm_compute; reflexivity|vm_compute; discriminate].
Qed.

(** * Properties of [treestructure.py] *)

Import TreeStructure.

(** ** Deleting a spot *)

(** The nodes that a walk from the top-level list reaches. *)
Definition reachableb (store : Store) (self : TreeStructure.t) (a : addr)
  : bool :=
  existsb (fun top => match descendantGen store top with
                      | Some nodes => existsb (Nat.eqb a) nodes
                      | None => false
                      end) (TreeStructure.childList self).

Section DeleteFacts.
Variable removeInvalidSpotRefs : Store -> TreeStructure.t -> addr -> Store.

(** A node visited with at most one spot leaves the dictionary and is
    left without spots. *)
Lemma deleteStep_last_spot store self a node :
  store !! a = Some node ->
  length (TreeNode.spotRefs node) <= 1 ->
  deleteStep removeInvalidSpotRefs (store, self) a
  = (<[a := TreeNode.set_spotRefs [] node]> store,
     set_nodeDict (delete (TreeNode.uId node) (nodeDict self)) self).
Proof.
  intros Ha Hlen. unfold deleteStep. rewrite Ha.
  apply Nat.leb_le in Hlen. now rewrite Hlen.
Qed.

(** A node visited with more than one spot stays in the dictionary,
    whatever becomes of its spots. *)
Lemma deleteStep_more_spots store self a node :
  store !! a = Some node ->
  1 < length (TreeNode.spotRefs node) ->
  deleteStep removeInvalidSpotRefs (store, self) a
  = (removeInvalidSpotRefs store self a, self).
Proof.
  intros Ha Hlen. unfold deleteStep. rewrite Ha.
  apply Nat.leb_gt in Hlen. now rewrite Hlen.
Qed.

(** Deleting a spot of a childless node that has another spot leaves the
    structure's dictionary as it was, whatever [removeInvalidSpotRefs]
    does to the node's spots: also when the node was under one parent
    only, so that the removal from the parent's child list ends every
    spot it had. *)
Lemma deleteNodeSpot_cloned_leaf store self spot p parentNode node l :
  parentSpot spot = Some p ->
  store !! nodeRef p = Some parentNode ->
  list_remove (nodeRef spot) (TreeNode.childList parentNode) = Some l ->
  nodeRef spot <> nodeRef p ->
  store !! nodeRef spot = Some node ->
  TreeNode.childList node = [] ->
  1 < length (TreeNode.spotRefs node) ->
  exists store',
    deleteNodeSpot removeInvalidSpotRefs store self spot
    = Return tt (store', self) /\
    (exists parentNode',
        store' = removeInvalidSpotRefs
                   (<[nodeRef p := parentNode']> store) self (nodeRef spot) /\
        TreeNode.childList parentNode' = l).
Proof.
  intros Hp Hparent Hrem Hne Hnode Hleaf Hlen.
  unfold deleteNodeSpot. rewrite Hp, Hparent, Hrem.
  set (store1 := <[nodeRef p := TreeNode.set_childList l parentNode]> store).
  assert (H1 : store1 !! nodeRef spot = Some node).
  { unfold store1. rewrite lookup_insert_ne by congruence. exact Hnode. }
  assert (Hgen : descendantGen store1 (nodeRef spot) = Some [nodeRef spot]).
  { unfold descendantGen. cbn [descend]. rewrite H1, Hleaf. reflexivity. }
  rewrite Hgen. cbn [fold_left].
  rewrite (deleteStep_more_spots _ _ _ _ H1 Hlen).
  eexists. split; [reflexivity|].
  exists (TreeNode.set_childList l parentNode). split; reflexivity.
Qed.

End DeleteFacts.

(** *** What the loop does when no node of the subtree is shared *)

Lemma list_remove_length x l l' :
  list_remove x l = Some l' -> length l = S (length l').
Proof.
  revert l'. induction l as [|y l IH]; intros l'; simpl; [discriminate|].
  destruct (x =? y).
  - intros H; now inversion H.
  - destruct (list_remove x l) as [r|]; [|discriminate].
    intros H; inversion H; subst. simpl. now rewrite (IH r).
Qed.

(** [list.remove] takes out the first occurrence: a node listed once is no
    longer in the list, and the other entries keep their order. *)
Lemma list_remove_once x l l' :
  list_remove x l = Some l' -> NoDup l ->
  (x ∉ l') /\ l' = List.filter (fun y => negb (x =? y)) l.
Proof.
  revert l'. induction l as [|y l IH]; intros l'; simpl; [discriminate|].
  intros H Hnd. apply NoDup_cons in Hnd as [Hy Hnd].
  destruct (x =? y) eqn:E.
  - apply Nat.eqb_eq in E. subst y. inversion H; subst. split; [exact Hy|].
    simpl. clear -Hy. induction l' as [|z l IH]; [reflexivity|].
    apply not_elem_of_cons in Hy as [Hz Hy]. simpl.
    apply Nat.eqb_neq in Hz. rewrite Hz. simpl. now rewrite <- IH.
  - destruct (list_remove x l) as [r|]; [|discriminate].
    inversion H; subst. destruct (IH r eq_refl Hnd) as [Hr ->].
    apply Nat.eqb_neq in E. split; [|reflexivity].
    apply not_elem_of_cons. split; [exact E|exact Hr].
Qed.

Section DeleteLoopFacts.
Variable removeInvalidSpotRefs : Store -> TreeStructure.t -> addr -> Store.

(** When every node that the loop visits has at most one spot, the loop
    takes each of them out of the dictionary and touches no other key. *)
Lemma deleteLoop_reclaims nodes :
  forall store self,
    (forall a, a ∈ nodes ->
       exists node, store !! a = Some node /\
                    length (TreeNode.spotRefs node) <= 1) ->
    exists store',
      fold_left (deleteStep removeInvalidSpotRefs) nodes (store, self)
      = (store',
         set_nodeDict
           (fold_left (fun nd a =>
                         match store !! a with
                         | Some node => delete (TreeNode.uId node) nd
                         | None => nd
                         end) nodes (nodeDict self)) self) /\
      (forall a node, store !! a = Some node ->
         exists node', store' !! a = Some node' /\
           TreeNode.uId node' = TreeNode.uId node /\
           TreeNode.data node' = TreeNode.data node /\
           TreeNode.childList node' = TreeNode.childList node /\
           (a ∈ nodes -> TreeNode.spotRefs node' = []) /\
           (a ∉ nodes ->
            TreeNode.spotRefs node' = TreeNode.spotRefs node)).
Proof.
  induction nodes as [|a0 nodes IH]; intros store self Hall.
  - exists store. split; [now destruct self|].
    intros a node H. exists node. repeat split; try assumption.
    intros Ha. inversion Ha.
  - destruct (Hall a0) as (node0 & Hnode0 & Hlen0); [left|].
    cbn [fold_left].
    rewrite (deleteStep_last_spot _ _ _ _ _ Hnode0 Hlen0), Hnode0.
    set (store1 := <[a0 := TreeNode.set_spotRefs [] node0]> store).
    destruct (IH store1 (set_nodeDict (delete (TreeNode.uId node0)
                                              (nodeDict self)) self))
      as (store' & Hfold & Hstore).
    { intros a Ha. destruct (decide (a = a0)) as [->|Hne].
      - exists (TreeNode.set_spotRefs [] node0).
        split; [apply lookup_insert_eq|simpl; lia].
      - destruct (Hall a) as (node & Hnode & Hlen); [now right|].
        exists node. split; [|exact Hlen]. unfold store1.
        now rewrite lookup_insert_ne by congruence. }
    exists store'. split.
    + rewrite Hfold. apply f_equal.
      etransitivity;
        [|apply (f_equal (fun v => set_nodeDict v self));
          apply fold_left_pointwise with
            (f := fun nd a => match store1 !! a with
                              | Some node => delete (TreeNode.uId node) nd
                              | None => nd
                              end)];
        [reflexivity|].
      intros nd a. unfold store1.
      destruct (decide (a = a0)) as [->|Hne].
      * now rewrite lookup_insert_eq, Hnode0.
      * now rewrite lookup_insert_ne by congruence.
    + intros a node Ha. destruct (decide (a = a0)) as [->|Hne].
      * assert (node = node0) by congruence. subst node.
        destruct (Hstore a0 (TreeNode.set_spotRefs [] node0))
          as (node' & Hn' & Hu & Hd & Hc & Hin & Hout);
          [apply lookup_insert_eq|].
        exists node'. split; [exact Hn'|]. repeat split; try assumption.
        -- intros _. destruct (decide (a0 ∈ nodes)) as [Hi|Hi];
             [now apply Hin|now rewrite (Hout Hi)].
        -- intros Hni. exfalso. apply Hni. left.
      * destruct (Hstore a node) as (node' & Hn' & Hu & Hd & Hc & Hin & Hout).
        { unfold store1. now rewrite lookup_insert_ne by congruence. }
        exists node'. split; [exact Hn'|]. repeat split; try assumption.
        -- intros Hi. apply elem_of_cons in Hi as [?|Hi]; [congruence|auto].
        -- intros Hni. apply Hout. intros Hi. apply Hni. now right.
Qed.

End DeleteLoopFacts.

Lemma fold_delete_lookup (store : Store) nodes (nd : gmap string addr) key :
  fold_left (fun nd a =>
               match store !! a with
               | Some node => delete (TreeNode.uId node) nd
               | None => nd
               end) nodes nd !! key
  = if existsb (fun a => match store !! a with
                         | Some node => String.eqb (TreeNode.uId node) key
                         | None => false
                         end) nodes
    then None else nd !! key.
Proof.
  revert nd. induction nodes as [|a nodes IH]; intros nd; [reflexivity|].
  cbn [fold_left existsb]. rewrite IH.
  destruct (existsb _ nodes); [now rewrite orb_true_r|].
  rewrite orb_false_r. destruct (store !! a) as [node|]; [|reflexivity].
  destruct (String.eqb_spec (TreeNode.uId node) key) as [->|Hne].
  - apply lookup_delete_eq.
  - now apply lookup_delete_ne.
Qed.

(** Deleting the only spot of a subtree without shared nodes: the ids of
    all its nodes leave the dictionary, and no other id does. *)
Lemma deleteLoop_reclaims_lookup
    (removeInvalidSpotRefs : Store -> TreeStructure.t -> addr -> Store)
    nodes store self :
  (forall a, a ∈ nodes ->
     exists node, store !! a = Some node /\
                  length (TreeNode.spotRefs node) <= 1) ->
  let self' :=
    snd (fold_left (deleteStep removeInvalidSpotRefs) nodes (store, self)) in
  TreeStructure.childList self' = TreeStructure.childList self /\
  (forall a node, a ∈ nodes -> store !! a = Some node ->
     nodeDict self' !! TreeNode.uId node = None) /\
  (forall key,
     (forall a node, a ∈ nodes -> store !! a = Some node ->
        TreeNode.uId node <> key) ->
     nodeDict self' !! key = nodeDict self !! key).
Proof.
  intros Hall self'.
  destruct (deleteLoop_reclaims removeInvalidSpotRefs nodes store self Hall)
    as (store' & Hfold & _).
  subst self'. rewrite Hfold. cbn [snd nodeDict set_nodeDict
                                   TreeStructure.childList].
  split; [reflexivity|]. split.
  - intros a node Ha Hnode. rewrite fold_delete_lookup.
    assert (E : existsb (fun a => match store !! a with
                                  | Some n => String.eqb (TreeNode.uId n)
                                                         (TreeNode.uId node)
                                  | None => false
                                  end) nodes = true).
    { apply existsb_exists. exists a. split; [now apply list_elem_of_In|].
      rewrite Hnode. apply String.eqb_refl. }
    now rewrite E.
  - intros key Hkey. rewrite fold_delete_lookup.
    destruct (existsb _ nodes) eqn:E; [|reflexivity].
    apply existsb_exists in E as (a & Ha & E).
    destruct (store !! a) as [node|] eqn:Hnode; [|discriminate].
    apply String.eqb_eq in E. exfalso.
    apply (Hkey a node); [now apply list_elem_of_In|exact Hnode|exact E].
Qed.

(** *** A cloned parent

    Top level: [A] and [B]. [P] is a child of both (a clone), and [X] is
    the only child of [P]: [X] has one spot under each spot of [P]. *)

Definition spotA : TreeSpot := Spot 1 None.
Definition spotB : TreeSpot := Spot 2 None.
Definition spotPA : TreeSpot := Spot 3 (Some spotA).
Definition spotPB : TreeSpot := Spot 3 (Some spotB).
Definition spotXA : TreeSpot := Spot 4 (Some spotPA).
Definition spotXB : TreeSpot := Spot 4 (Some spotPB).

Definition cloneStore : Store :=
  <[1 := TreeNode.Build "a" "Item" ∅ [3] [spotA]]>
  (<[2 := TreeNode.Build "b" "Item" ∅ [3] [spotB]]>
  (<[3 := TreeNode.Build "p" "Item" ∅ [4] [spotPA; spotPB]]>
  (<[4 := TreeNode.Build "x" "Item" ∅ [] [spotXA; spotXB]]> ∅))).

Definition cloneStruct : TreeStructure.t :=
  TreeStructure.Build
    (<["a" := 1]> (<["b" := 2]> (<["p" := 3]> (<["x" := 4]> ∅))))
    [1; 2] ∅.

(** The store after [deleteNodeSpot(spotXA)]: [P] has lost its child and
    [X] both its spots. *)
Definition cloneStoreAfter : Store :=
  <[1 := TreeNode.Build "a" "Item" ∅ [3] [spotA]]>
  (<[2 := TreeNode.Build "b" "Item" ∅ [3] [spotB]]>
  (<[3 := TreeNode.Build "p" "Item" ∅ [] [spotPA; spotPB]]>
  (<[4 := TreeNode.Build "x" "Item" ∅ [] []]> ∅))).

(** C1, the failing input. Before the call every id of the dictionary is
    reachable. Deleting the spot of [X] under the first spot of [P]
    removes [X] from the child list of [P], which ends both spots of [X];
    the loop sees two spots, so it does not take [X] out of the
    dictionary: [x] stays in [nodeDict] with no spot left and out of reach
    of the top-level list. *)
Theorem deleteNodeSpot_leaves_orphan :
  reachableb cloneStore cloneStruct 4 = true /\
  deleteNodeSpot validSpotRefs cloneStore cloneStruct spotXA
  = Return tt (cloneStoreAfter, cloneStruct) /\
  nodeDict cloneStruct !! "x" = Some 4 /\
  TreeNode.spotRefs <$> (cloneStoreAfter !! 4) = Some [] /\
  reachableb cloneStoreAfter cloneStruct 4 = false.
Proof. repeat split; vm_compute; reflexivity. Qed.

(** On the same structure, deleting the only spot of [B] takes [b] out of
    the dictionary and keeps the clone [P] and its child [X], each with
    the one spot that is left under [A]. *)
Example deleteNodeSpot_keeps_clone :
  deleteNodeSpot validSpotRefs cloneStore cloneStruct spotB
  = Return tt
      (<[1 := TreeNode.Build "a" "Item" ∅ [3] [spotA]]>
       (<[2 := TreeNode.Build "b" "Item" ∅ [3] []]>
       (<[3 := TreeNode.Build "p" "Item" ∅ [4] [spotPA]]>
       (<[4 := TreeNode.Build "x" "Item" ∅ [] [spotXA]]> ∅))),
       TreeStructure.Build
         (<["a" := 1]> (<["p" := 3]> (<["x" := 4]> ∅))) [1] ∅).
Proof. vm_compute. reflexivity. Qed.

(** ** Merging another structure *)

(** The state that a call leaves behind, returned or raised. *)
Definition finalState {R S : Type} (o : Outcome R S) : S :=
  match o with
  | Return _ s => s
  | Raise _ s => s
  end.

(** The dictionary files every node under its own id. *)
Definition dictNamed (store : Store) (nd : gmap string addr) : Prop :=
  forall key a,
    nd !! key = Some a ->
    exists node, store !! a = Some node /\ TreeNode.uId node = key.

Lemma fold_insert_union (store : Store) (l : list (string * addr))
    (target : gmap string addr) :
  NoDup l.*1 ->
  (forall key a, (key, a) ∈ l ->
     exists node, store !! a = Some node /\ TreeNode.uId node = key) ->
  fold_left (fun nd entry =>
               match store !! snd entry with
               | Some node => <[TreeNode.uId node := snd entry]> nd
               | None => nd
               end) l target
  = list_to_map l ∪ target.
Proof.
  revert target. induction l as [|[key a] l IH]; intros target Hnd Hnamed.
  - simpl. now rewrite (left_id_L ∅ (∪)).
  - simpl in *. apply NoDup_cons in Hnd as [Hnotin Hnd].
    destruct (Hnamed key a) as (node & Hnode & Hkey); [left|].
    rewrite Hnode, Hkey. rewrite IH.
    + rewrite <- insert_union_l. symmetry. apply insert_union_r.
      now apply not_elem_of_list_to_map_1.
    + exact Hnd.
    + intros k b Hin. apply Hnamed. now right.
Qed.

Lemma mergeNodeDict_union store target source :
  dictNamed store source ->
  mergeNodeDict store target source = source ∪ target.
Proof.
  intros Hnamed. unfold mergeNodeDict. rewrite fold_insert_union.
  - now rewrite list_to_map_to_list.
  - apply NoDup_fst_map_to_list.
  - intros key a Hin. apply Hnamed. now apply elem_of_map_to_list.
Qed.

Section MergeFacts.
Variable addSpotRef : Store -> addr -> option addr -> Store.

Lemma addTopNodes_nodeDict nodes st parent position :
  nodeDict (snd (finalState (addTopNodes addSpotRef nodes st parent position)))
  = nodeDict (snd st).
Proof.
  revert st parent position.
  induction nodes as [|a nodes IH]; intros [store self] parent position;
    [reflexivity|].
  cbn [addTopNodes]. destruct parent as [|p|].
  - rewrite IH. reflexivity.
  - destruct (store !! p); [|reflexivity]. rewrite IH. reflexivity.
  - reflexivity.
Qed.

Lemma addTopNodes_node_returns p nodes :
  (forall st a parent b,
     is_Some (st !! b) -> is_Some (addSpotRef st a parent !! b)) ->
  forall store self position,
    is_Some (store !! p) ->
    exists st,
      addTopNodes addSpotRef nodes (store, self) (ParentNode p) position
      = Return tt st.
Proof.
  intros Hkeeps. induction nodes as [|a nodes IH];
    intros store self position [parentNode Hp]; [now eexists|].
  cbn [addTopNodes]. rewrite Hp. apply IH, Hkeeps.
  rewrite lookup_insert_eq. now eexists.
Qed.

(** C9 (as amended). [addNodesFromStruct] does not look for ids that the
    two dictionaries share, and a shared id does not end the call. The
    dictionary is merged before the first top-level node is placed:
    whether the call returns or raises, the dictionary it leaves is the
    other structure's dictionary laid over the structure's own, so every
    id of the other structure refers to the other structure's node, also
    an id that the structure had for a node of its own, and the
    remaining ids keep their nodes. How the call ends is decided by the
    parent and the number of top-level nodes alone. Under a node of the
    store it returns, [addSpotRef] taking no node out of the store. With
    the structure itself as parent it returns for at most one top-level
    node and raises [AttributeError] for two or more, [parent] being
    [None] after the first. With [None] as parent it returns when there
    is no top-level node and raises [AttributeError] otherwise. *)
Theorem addNodesFromStruct_nodeDict store self treeStruct parent position :
  dictNamed store (nodeDict treeStruct) ->
  let outcome :=
    addNodesFromStruct addSpotRef store self treeStruct parent position in
  nodeDict (snd (finalState outcome)) = nodeDict treeStruct ∪ nodeDict self /\
  match parent with
  | ParentNode p =>
      (forall st a parent' b,
         is_Some (st !! b) -> is_Some (addSpotRef st a parent' !! b)) ->
      is_Some (store !! p) ->
      exists st, outcome = Return tt st
  | ParentSelf =>
      match childList treeStruct with
      | [] | [_] => exists st, outcome = Return tt st
      | _ :: _ :: _ => exists st, outcome = Raise AttributeError st
      end
  | ParentNone =>
      match childList treeStruct with
      | [] => exists st, outcome = Return tt st
      | _ :: _ => exists st, outcome = Raise AttributeError st
      end
  end.
Proof.
  intros Hnamed outcome. split.
  - unfold outcome, addNodesFromStruct. cbn zeta.
    rewrite addTopNodes_nodeDict.
    cbn [snd nodeDict set_nodeDict set_treeFormats].
    now apply mergeNodeDict_union.
  - unfold outcome, addNodesFromStruct. cbn zeta.
    destruct parent as [|p|].
    + destruct (childList treeStruct) as [|a [|b rest]];
        cbn [addTopNodes]; now eexists.
    + intros Hkeeps Hp. now apply addTopNodes_node_returns.
    + destruct (childList treeStruct) as [|a rest];
        cbn [addTopNodes]; now eexists.
Qed.

End MergeFacts.

(** Modelled from the spec: [addSpotRef] of [treenode.py], which is not
    among the sources; "creating new spots accordingly". The node gets a
    spot under each spot of its parent, or a top-level spot when the
    parent is [None]; when that adds a spot, its children get theirs in
    the same way. [fuel] bounds the depth of the walk. *)
Fixpoint addSpots (fuel : nat) (store : Store) (a : addr)
    (parent : option addr) : Store :=
  match fuel with
  | O => store
  | S fuel' =>
      match store !! a with
      | None => store
      | Some node =>
          let parentSpots :=
            match parent with
            | None => [None]
            | Some p =>
                match store !! p with
                | Some parentNode => Some <$> TreeNode.spotRefs parentNode
                | None => []
                end
            end in
          let added :=
            List.filter
              (fun spot => negb (existsb (spot_eqb spot)
                                         (TreeNode.spotRefs node)))
              (Spot a <$> parentSpots) in
          if isnil added then store
          else
            fold_left (fun st child => addSpots fuel' st child (Some a))
                      (TreeNode.childList node)
                      (<[a := TreeNode.set_spotRefs
                                (TreeNode.spotRefs node ++ added) node]> store)
      end
  end.

(** Modelled from the spec: [addSpotRef] of [treenode.py], as the walk
    above with one step of fuel for each node of the store. *)
Definition addSpotRefModel (store : Store) (a : addr) (parent : option addr)
  : Store :=
  addSpots (S (size store)) store a parent.

(** *** A pasted copy that kept its id

    The structure holds the node [1] under the id [n]. The structure to
    merge holds another node, [2], under the same id. *)

Definition mergeStore : Store :=
  <[1 := TreeNode.Build "n" "Item" (<["Name" := "kept"]> ∅) [] [Spot 1 None]]>
  (<[2 := TreeNode.Build "n" "Item" (<["Name" := "pasted"]> ∅) [] []]> ∅).

Definition mergeTarget : TreeStructure.t :=
  TreeStructure.Build (<["n" := 1]> ∅) [1] ∅.

Definition mergeSource : TreeStructure.t :=
  TreeStructure.Build (<["n" := 2]> ∅) [2] ∅.

Lemma mergeSource_named : dictNamed mergeStore (nodeDict mergeSource).
Proof.
  intros key a H. unfold mergeSource in H. cbn [nodeDict] in H.
  apply lookup_insert_Some in H as [[<- <-]|[_ H]].
  - eexists. split; [vm_compute; reflexivity|reflexivity].
  - rewrite lookup_empty in H. discriminate.
Qed.

Lemma addNodesFromStruct_nodeDict_witness :
  nodeDict (snd (finalState
                   (addNodesFromStruct addSpotRefModel mergeStore mergeTarget
                                       mergeSource ParentSelf (-1))))
  = nodeDict mergeSource ∪ nodeDict mergeTarget /\
  exists st,
    addNodesFromStruct addSpotRefModel mergeStore mergeTarget mergeSource
                       ParentSelf (-1)
    = Return tt st.
Proof.
  exact (addNodesFromStruct_nodeDict addSpotRefModel mergeStore mergeTarget
           mergeSource ParentSelf (-1) mergeSource_named).
Defined.

Definition mergeStoreAfter : Store :=
  <[1 := TreeNode.Build "n" "Item" (<["Name" := "kept"]> ∅) [] [Spot 1 None]]>
  (<[2 := TreeNode.Build "n" "Item" (<["Name" := "pasted"]> ∅) []
                         [Spot 2 None]]> ∅).

(** C9, counterexample: the merge returns, and the id [n] of the structure
    now refers to the pasted node [2] instead of its own node [1]. *)
Lemma addNodesFromStruct_overwrites :
  nodeDict mergeTarget !! "n" = Some 1 /\
  nodeDict mergeSource !! "n" = Some 2 /\
  addNodesFromStruct addSpotRefModel mergeStore mergeTarget mergeSource
                     ParentSelf (-1)
  = Return tt (mergeStoreAfter,
               TreeStructure.Build (<["n" := 2]> ∅) [1; 2] ∅).
Proof.
  split; [reflexivity|]. split; [reflexivity|]. vm_compute. reflexivity.
Qed.

(** ** Replacing duplicate ids *)

Section ReplaceFacts.
Variable uuid1 : nat -> string.
Variable duplicateDict : gmap string addr.

(** What the call may change of a node: its id, and only when that id is
    one of the duplicates. *)
Definition sameButId (node node' : TreeNode.t) : Prop :=
  TreeNode.data node' = TreeNode.data node /\
  TreeNode.childList node' = TreeNode.childList node /\
  TreeNode.spotRefs node' = TreeNode.spotRefs node /\
  TreeNode.formatRef node' = TreeNode.formatRef node /\
  (duplicateDict !! TreeNode.uId node = None ->
   TreeNode.uId node' = TreeNode.uId node).

Lemma sameButId_refl node : sameButId node node.
Proof. repeat split. Qed.

(** The result of the loop over the nodes [nodes], from the state
    [(store, self)] to the state [(store', self')]. *)
Definition replaced (nodes : list addr) (store : Store) (self : TreeStructure.t)
    (store' : Store) (self' : TreeStructure.t) : Prop :=
  size (nodeDict self') = size (nodeDict self) /\
  TreeStructure.childList self' = TreeStructure.childList self /\
  treeFormats self' = treeFormats self /\
  (forall key a, a ∉ nodes ->
     nodeDict self' !! key = Some a <-> nodeDict self !! key = Some a) /\
  (forall key a, a ∈ nodes ->
     nodeDict self' !! key = Some a -> duplicateDict !! key = None) /\
  (forall a, a ∈ nodes -> exists key, nodeDict self' !! key = Some a) /\
  (forall a node, store !! a = Some node ->
     exists node', store' !! a = Some node' /\ sameButId node node') /\
  dictNamed store' (nodeDict self').

Lemma dictNamed_key store nd key key' a :
  dictNamed store nd -> nd !! key = Some a -> nd !! key' = Some a ->
  key = key'.
Proof.
  intros Hnamed H1 H2.
  destruct (Hnamed _ _ H1) as (n1 & Hn1 & <-).
  destruct (Hnamed _ _ H2) as (n2 & Hn2 & <-). congruence.
Qed.

Lemma replaceLoop_spec nodes :
  forall store self calls,
    NoDup nodes ->
    dictNamed store (nodeDict self) ->
    (forall a, a ∈ nodes -> exists key, nodeDict self !! key = Some a) ->
    (forall i j, uuid1 i = uuid1 j -> i = j) ->
    (forall i, calls <= i ->
       nodeDict self !! uuid1 i = None /\ duplicateDict !! uuid1 i = None) ->
    exists store' self' calls',
      replaceLoop uuid1 duplicateDict nodes (store, self, calls)
      = Return tt (store', self', calls') /\
      replaced nodes store self store' self'.
Proof.
  induction nodes as [|a0 nodes IH];
    intros store self calls Hnd Hnamed Hin Hinj Hfresh.
  - exists store, self, calls. split; [reflexivity|].
    split; [reflexivity|]. split; [reflexivity|]. split; [reflexivity|].
    split; [tauto|].
    split; [intros key a H; inversion H|].
    split; [intros a H; inversion H|].
    split; [|exact Hnamed].
    intros a node H. exists node. split; [exact H|apply sameButId_refl].
  - apply NoDup_cons in Hnd as [Hnotin Hnd].
    destruct (Hin a0) as [key0 Hkey0]; [left|].
    destruct (Hnamed _ _ Hkey0) as (node0 & Hnode0 & Hid0).
    cbn [replaceLoop]. unfold replaceStep. rewrite Hnode0.
    destruct (decide (is_Some (duplicateDict !! TreeNode.uId node0)))
      as [Hdup|Hdup].
    + (* the id is a duplicate: the node is filed under a fresh id *)
      rewrite Hid0, Hkey0. cbn zeta.
      set (u := uuid1 calls).
      set (node1 := TreeNode.set_uId u node0).
      set (store1 := <[a0 := node1]> store).
      set (nd1 := <[u := a0]> (delete key0 (nodeDict self))).
      assert (Hself1 : addNodeDictRef
                         (set_nodeDict (delete key0 (nodeDict self)) self)
                         a0 node1
                       = set_nodeDict nd1 self) by reflexivity.
      rewrite Hself1. clear Hself1.
      destruct (Hfresh calls (le_n _)) as [Hu_nd Hu_dup]. fold u in Hu_nd, Hu_dup.
      assert (Hnd1 : forall key a, a <> a0 ->
                nd1 !! key = Some a <-> nodeDict self !! key = Some a).
      { intros key a Hne. unfold nd1. split.
        - intros H. apply lookup_insert_Some in H as [[_ ?]|[_ H]];
            [congruence|].
          now apply lookup_delete_Some in H as [_ H].
        - intros H. rewrite lookup_insert_ne by congruence.
          apply lookup_delete_Some. split; [congruence|exact H]. }
      assert (Hnd1_a0 : forall key, nd1 !! key = Some a0 <-> key = u).
      { intros key. unfold nd1. split.
        - intros H. apply lookup_insert_Some in H as [[? _]|[_ H]];
            [congruence|].
          apply lookup_delete_Some in H as [Hne H].
          exfalso. apply Hne. eapply dictNamed_key; eassumption.
        - intros ->. apply lookup_insert_eq. }
      destruct (IH store1 (set_nodeDict nd1 self) (S calls))
        as (store' & self' & calls' & Hloop & Hsize & Hcl & Htf & Hout
            & Hin' & Hkeep & Hstore & Hnamed').
      * exact Hnd.
      * intros key a H. cbn [nodeDict set_nodeDict] in H.
        destruct (decide (a = a0)) as [->|Hne].
        -- apply Hnd1_a0 in H as ->. exists node1.
           split; [apply lookup_insert_eq|reflexivity].
        -- apply (Hnd1 _ _ Hne) in H.
           destruct (Hnamed _ _ H) as (n & Hn & Hk). exists n.
           split; [|exact Hk]. unfold store1.
           now rewrite lookup_insert_ne by congruence.
      * intros a Ha. destruct (Hin a) as [key Hkey]; [now right|].
        exists key. cbn [nodeDict set_nodeDict]. apply Hnd1; [|exact Hkey].
        intros ->. contradiction.
      * exact Hinj.
      * intros i Hi. destruct (Hfresh i) as [H1 H2]; [lia|].
        split; [|exact H2]. cbn [nodeDict set_nodeDict]. unfold nd1.
        apply lookup_insert_None. split.
        -- apply lookup_delete_None. now right.
        -- unfold u. intros E. apply Hinj in E. lia.
      * exists store', self', calls'. split; [exact Hloop|].
        cbn [nodeDict set_nodeDict TreeStructure.childList treeFormats] in *.
        split; [|split; [exact Hcl|split; [exact Htf|]]].
        { rewrite Hsize. unfold nd1. rewrite map_size_insert_None.
          - rewrite map_size_delete_Some by eauto.
            destruct (size (nodeDict self)) eqn:E; [|reflexivity].
            apply map_size_empty_inv in E. rewrite E in Hkey0.
            rewrite lookup_empty in Hkey0. discriminate.
          - apply lookup_delete_None. now right. }
        split; [|split; [|split; [|split; [|exact Hnamed']]]].
        -- intros key a Ha. rewrite not_elem_of_cons in Ha.
           destruct Ha as [Hne Ha]. rewrite (Hout key a Ha).
           now apply Hnd1.
        -- intros key a Ha H. apply elem_of_cons in Ha as [->|Ha].
           ++ apply (Hout key a0 Hnotin) in H. apply Hnd1_a0 in H as ->.
              exact Hu_dup.
           ++ now apply (Hin' key a).
        -- intros a Ha. apply elem_of_cons in Ha as [->|Ha].
           ++ exists u. apply (Hout u a0 Hnotin). now apply Hnd1_a0.
           ++ now apply Hkeep.
        -- intros a node Ha. destruct (decide (a = a0)) as [->|Hne].
           ++ destruct (Hstore a0 node1) as (node' & Hn' & Hs');
                [apply lookup_insert_eq|].
              exists node'. split; [exact Hn'|].
              assert (node = node0) by congruence. subst node.
              destruct Hs' as (Hd & Hc & Hsp & Hf & _).
              repeat split; try assumption.
              intros Hnone. destruct Hdup as [x Hx]. congruence.
           ++ apply Hstore. unfold store1.
              now rewrite lookup_insert_ne by congruence.
    + (* the id is not a duplicate: nothing changes *)
      assert (Hnone : duplicateDict !! TreeNode.uId node0 = None).
      { destruct (duplicateDict !! TreeNode.uId node0) eqn:E; [|reflexivity].
        exfalso. apply Hdup. eauto. }
      destruct (IH store self calls)
        as (store' & self' & calls' & Hloop & Hsize & Hcl & Htf & Hout
            & Hin' & Hkeep & Hstore & Hnamed'); try assumption.
      * intros a Ha. apply Hin. now right.
      * exists store', self', calls'. split; [exact Hloop|].
        split; [exact Hsize|]. split; [exact Hcl|]. split; [exact Htf|].
        split; [|split; [|split; [|split; [exact Hstore|exact Hnamed']]]].
        -- intros key a Ha. rewrite not_elem_of_cons in Ha.
           destruct Ha as [_ Ha]. now apply Hout.
        -- intros key a Ha H. apply elem_of_cons in Ha as [->|Ha].
           ++ apply (Hout key a0 Hnotin) in H.
              rewrite (dictNamed_key _ _ _ _ _ Hnamed H Hkey0), <- Hid0.
              exact Hnone.
           ++ now apply (Hin' key a).
        -- intros a Ha. apply elem_of_cons in Ha as [->|Ha].
           ++ exists key0. now apply (Hout key0 a0 Hnotin).
           ++ now apply Hkeep.
Qed.

End ReplaceFacts.

Lemma dictNamed_values store (nd : gmap string addr) :
  dictNamed store nd ->
  NoDup (snd <$> map_to_list nd) /\
  (forall a, a ∈ snd <$> map_to_list nd <-> exists key, nd !! key = Some a).
Proof.
  intros Hnamed. split.
  - apply NoDup_fmap_2_strong; [|apply NoDup_map_to_list].
    intros [k1 a1] [k2 a2] H1 H2 E. simpl in E. subst a2.
    apply elem_of_map_to_list in H1, H2.
    now rewrite (dictNamed_key _ _ _ _ _ Hnamed H1 H2).
  - intros a. rewrite list_elem_of_fmap. split.
    + intros ([k b] & -> & H). exists k. now apply elem_of_map_to_list.
    + intros [k H]. exists (k, a). split; [reflexivity|].
      now apply elem_of_map_to_list.
Qed.

(** C10. [replaceDuplicateIds] returns and changes nothing but ids and the
    keys they are filed under: the dictionary has as many entries as
    before, for the same node objects; every node keeps its data, its
    child list, its spots and its format; a node whose id is not in
    [duplicateDict] keeps its id; and, the minted ids being new and
    different from each other, no key of the dictionary is a key of
    [duplicateDict] afterwards. *)
Theorem replaceDuplicateIds_frame (uuid1 : nat -> string)
    (store : Store) (self : TreeStructure.t) (calls : nat)
    (duplicateDict : gmap string addr) :
  dictNamed store (nodeDict self) ->
  (forall i j, uuid1 i = uuid1 j -> i = j) ->
  (forall i, calls <= i ->
     nodeDict self !! uuid1 i = None /\ duplicateDict !! uuid1 i = None) ->
  exists store' self' calls',
    replaceDuplicateIds uuid1 store self calls duplicateDict
    = Return tt (store', self', calls') /\
    size (nodeDict self') = size (nodeDict self) /\
    (forall a, (exists key, nodeDict self' !! key = Some a)
               <-> (exists key, nodeDict self !! key = Some a)) /\
    (forall a node, store !! a = Some node ->
       exists node', store' !! a = Some node' /\
         TreeNode.data node' = TreeNode.data node /\
         TreeNode.childList node' = TreeNode.childList node /\
         TreeNode.spotRefs node' = TreeNode.spotRefs node /\
         TreeNode.formatRef node' = TreeNode.formatRef node /\
         (duplicateDict !! TreeNode.uId node = None ->
          TreeNode.uId node' = TreeNode.uId node)) /\
    (forall key, is_Some (nodeDict self' !! key) ->
                 duplicateDict !! key = None) /\
    dictNamed store' (nodeDict self') /\
    TreeStructure.childList self' = TreeStructure.childList self /\
    treeFormats self' = treeFormats self.
Proof.
  intros Hnamed Hinj Hfresh.
  destruct (dictNamed_values store (nodeDict self) Hnamed) as [Hnd Hval].
  destruct (replaceLoop_spec uuid1 duplicateDict
              (snd <$> map_to_list (nodeDict self)) store self calls)
    as (store' & self' & calls' & Hloop & Hsize & Hcl & Htf & Hout
        & Hin & Hkeep & Hstore & Hnamed'); try assumption.
  { intros a Ha. now apply Hval. }
  exists store', self', calls'. split; [exact Hloop|].
  split; [exact Hsize|].
  assert (Hsame : forall a, (exists key, nodeDict self' !! key = Some a)
                            <-> (exists key, nodeDict self !! key = Some a)).
  { intros a. split.
    - intros [key H].
      destruct (decide (a ∈ snd <$> map_to_list (nodeDict self))) as [Ha|Ha].
      + now apply Hval.
      + exists key. now apply (Hout key a Ha).
    - intros H. apply Hkeep. now apply Hval. }
  split; [exact Hsame|]. split; [exact Hstore|].
  split; [|split; [exact Hnamed'|split; [exact Hcl|exact Htf]]].
  intros key [a H]. apply (Hin key a); [|exact H].
  apply Hval, Hsame. now exists key.
Qed.

(** *** Two nodes, one with a duplicate id *)

(** Identifiers that differ from each other: [u], [0u], [00u], ... *)
Fixpoint mintedId (n : nat) : string :=
  match n with
  | O => "u"
  | S n' => String "0" (mintedId n')
  end.

Lemma mintedId_inj i j : mintedId i = mintedId j -> i = j.
Proof.
  revert j. induction i as [|i IH]; intros [|j] H; simpl in H;
    try discriminate; [reflexivity|].
  inversion H. f_equal. now apply IH.
Qed.

Definition pasteStore : Store :=
  <[1 := TreeNode.Build "a" "Item" (<["Name" := "one"]> ∅) [2] []]>
  (<[2 := TreeNode.Build "b" "Item" (<["Name" := "two"]> ∅) [] []]> ∅).

Definition pasteStruct : TreeStructure.t :=
  TreeStructure.Build (<["a" := 1]> (<["b" := 2]> ∅)) [1] ∅.

Definition pasteDuplicates : gmap string addr := <["b" := 7]> ∅.

Lemma mintedId_not_ab i : mintedId i <> "a" /\ mintedId i <> "b".
Proof. destruct i as [|[|i]]; split; discriminate. Qed.

Lemma replaceDuplicateIds_frame_witness :
  exists store' self' calls',
    replaceDuplicateIds mintedId pasteStore pasteStruct 0 pasteDuplicates
    = Return tt (store', self', calls') /\
    size (nodeDict self') = size (nodeDict pasteStruct) /\
    (forall key, is_Some (nodeDict self' !! key) ->
                 pasteDuplicates !! key = None).
Proof.
  destruct (replaceDuplicateIds_frame mintedId pasteStore pasteStruct 0
              pasteDuplicates)
    as (store' & self' & calls' & Hret & Hsize & _ & _ & Hkeys & _).
  - intros key a H. unfold pasteStruct in H. cbn [nodeDict] in H.
    apply lookup_insert_Some in H as [[<- <-]|[_ H]].
    + eexists. split; [vm_compute; reflexivity|reflexivity].
    + apply lookup_insert_Some in H as [[<- <-]|[_ H]].
      * eexists. split; [vm_compute; reflexivity|reflexivity].
      * rewrite lookup_empty in H. discriminate.
  - exact mintedId_inj.
  - intros i _. destruct (mintedId_not_ab i) as [Ha Hb].
    unfold pasteStruct, pasteDuplicates. cbn [nodeDict].
    rewrite !lookup_insert_ne, !lookup_empty by congruence. now split.
  - exists store', self', calls'. split; [exact Hret|].
    split; [exact Hsize|exact Hkeys].
Defined.

(** On this input the node [2] is filed under the minted id [u], and the
    node [1] still holds it in its child list. *)
Example replaceDuplicateIds_paste :
  replaceDuplicateIds mintedId pasteStore pasteStruct 0 pasteDuplicates
  = Return tt
      (<[1 := TreeNode.Build "a" "Item" (<["Name" := "one"]> ∅) [2] []]>
       (<[2 := TreeNode.Build "u" "Item" (<["Name" := "two"]> ∅) [] []]> ∅),
       TreeStructure.Build (<["a" := 1]> (<["u" := 2]> ∅)) [1] ∅,
       1).
Proof. vm_compute. reflexivity. Qed.

(** * Further properties of [nodeformat.py] *)

(** ** What [parseLine] returns *)

Lemma split_go_nonempty w s : Text.split_go (Some w) s <> [].
Proof.
  revert w. induction s as [|c s IH]; intros w; simpl; [discriminate|].
  destruct (isspace c); [discriminate|apply IH].
Qed.

Lemma split_blank s : Text.split s = [] <-> all isspace s = true.
Proof.
  unfold Text.split. induction s as [|c s IH]; simpl; [tauto|].
  destruct (isspace c); simpl; [exact IH|].
  split; [|discriminate]. intros H. exfalso. exact (split_go_nonempty _ _ H).
Qed.

Lemma join_empty ws : Forall isWord ws -> join " " ws = "" -> ws = [].
Proof.
  intros H. destruct H as [|w ws [Hne _] Hws]; [reflexivity|].
  destruct ws as [|w2 ws]; simpl; [congruence|].
  destruct w; [congruence|discriminate].
Qed.

Lemma normalize_blank s : normalize s = "" <-> all isspace s = true.
Proof.
  rewrite <- split_blank. unfold normalize. split.
  - apply join_empty, split_go_words. exact I.
  - intros ->. reflexivity.
Qed.

Lemma concat_nonempty_nil parts :
  List.filter (fun part => negb (isempty part)) parts = [] <->
  concat parts = "".
Proof.
  induction parts as [|p parts IH]; [tauto|].
  unfold concat in *. destruct p as [|c p]; simpl; [exact IH|].
  split; discriminate.
Qed.

Lemma parseLine_nil self s : parseLine self s = [] <-> normalize s = "".
Proof.
  unfold parseLine, _fieldSplitRe_split.
  pose proof (split_go_concat "" (normalize s)) as H.
  change ("" +:+ normalize s) with (normalize s) in H.
  rewrite <- H at 2. rewrite <- concat_nonempty_nil.
  destruct (List.filter _ _); simpl; split; try reflexivity; discriminate.
Qed.

(** X1. [parseLine] returns the empty line exactly for text that is empty
    or all whitespace. *)
Theorem parseLine_blank (self : NodeFormat.t) (s : string) :
  parseLine self s = [] <-> all isspace s = true.
Proof. rewrite parseLine_nil. apply normalize_blank. Qed.

(** The parts of a parsed line. *)
Definition wellFormedPart (self : NodeFormat.t) (part : Part) : Prop :=
  match part with
  | PText text => text <> "" /\ all isdot text = true
  | PField field =>
      exists fieldName,
        validName fieldName /\ fieldDict self !! fieldName = Some field
  end.

(** X2. Every part of a parsed line is a literal that is not empty and
    holds no newline, or a field object that the field table holds under
    a name of the pattern's form. *)
Theorem parseLine_parts (self : NodeFormat.t) (s : string) :
  Forall (wellFormedPart self) (parseLine self s).
Proof.
  pose proof (parseLine_literalsOneLine self s) as Hlit.
  unfold literalsOneLine, parseLine in *.
  induction (_fieldSplitRe_split (normalize s)) as [|seg segs IH];
    [constructor|].
  simpl in *. destruct seg as [|c seg]; simpl in *; [now apply IH|].
  inversion Hlit as [|? ? Hpart Hrest]; subst.
  constructor; [|now apply IH].
  unfold parseField in *. unfold _fieldPartRe_match in *.
  destruct (matchFieldRef (String c seg)) as [[[m n] r]|] eqn:E;
    [|split; [discriminate|exact Hpart]].
  destruct (isempty m); [|split; [discriminate|exact Hpart]].
  destruct (fieldDict self !! n) as [f|] eqn:Hf;
    [|split; [discriminate|exact Hpart]].
  exists n. split; [|exact Hf]. now apply (matchFieldRef_valid _ _ _ _ E).
Qed.

(** X3. [parseField] anchors its pattern at the start only: text that
    begins with a reference to a registered field gives the field object,
    whatever follows the reference. *)
Theorem parseField_prefix (self : NodeFormat.t) fieldName field rest :
  validName fieldName ->
  fieldDict self !! fieldName = Some field ->
  parseField self (refText "" fieldName +:+ rest) = PField field.
Proof.
  intros Hn Hf. unfold parseField, _fieldPartRe_match.
  rewrite (matchFieldRef_complete "" fieldName rest); [|now left|exact Hn].
  simpl. now rewrite Hf.
Qed.

Lemma parseField_prefix_witness :
  parseField formatAB "{*A*} and more"
  = PField (FieldFormat.Build "A" "TextField" 1).
Proof.
  apply (parseField_prefix formatAB "A" _ " and more").
  - split; [discriminate|reflexivity].
  - reflexivity.
Defined.

(** ** Setting and reading the format lines *)

(** X4. Reading the title line back after [changeTitleLine] gives the
    text with its whitespace normalized, and the title line is never left
    without a part. *)
Theorem changeTitleLine_getTitleLine (self : NodeFormat.t) (text : string) :
  fieldsNamed self ->
  getTitleLine (changeTitleLine self text) = normalize text /\
  titleLine (changeTitleLine self text) <> [].
Proof.
  intros Hnamed. unfold changeTitleLine, getTitleLine. cbn zeta.
  cbn [titleLine set_titleLine].
  destruct (parseLine self text) as [|p ps] eqn:E; cbn [isnil].
  - split; [|discriminate]. apply parseLine_nil in E. now rewrite E.
  - split; [|discriminate]. rewrite <- E. now apply lineText_parseLine.
Qed.

Lemma changeTitleLine_getTitleLine_witness :
  getTitleLine (changeTitleLine formatAB "  {*A*}   -
   {*B*} ") = "{*A*} - {*B*}" /\
  titleLine (changeTitleLine formatAB "  {*A*}   -
   {*B*} ") <> [].
Proof.
  apply (changeTitleLine_getTitleLine formatAB "  {*A*}   -
   {*B*} ").
  exact formatAB_fieldsNamed.
Defined.

Lemma lineText_filter_parse self lines :
  fieldsNamed self ->
  List.map lineText
    (List.filter (fun newLine => negb (isnil newLine))
                 (List.map (parseLine self) lines))
  = List.filter (fun line => negb (isempty line))
                (List.map normalize lines).
Proof.
  intros Hnamed. induction lines as [|l lines IH]; [reflexivity|].
  simpl. destruct (parseLine self l) as [|p ps] eqn:E; simpl.
  - apply parseLine_nil in E. now rewrite E.
  - rewrite <- E, lineText_parseLine by exact Hnamed.
    destruct (normalize l) eqn:En.
    + apply (parseLine_nil self) in En. congruence.
    + simpl. now rewrite IH.
Qed.

(** X5. Without bullets and tables, [changeOutputLines] returns, and
    reading the output lines back gives the lines with their whitespace
    normalized and the blank ones left out; when none is left, the one
    empty line. The saved original lines are not touched. *)
Theorem changeOutputLines_getOutputLines (self : NodeFormat.t)
    (lines : list string) :
  fieldsNamed self ->
  useBullets self = false ->
  useTables self = false ->
  exists self',
    changeOutputLines self lines false = Return tt self' /\
    getOutputLines self' false
    = (match List.filter (fun line => negb (isempty line))
                         (List.map normalize lines) with
       | [] => [""]
       | kept => kept
       end) /\
    origOutputLines self' = origOutputLines self /\
    fieldDict self' = fieldDict self.
Proof.
  intros Hnamed Hb Ht. unfold changeOutputLines. cbn zeta.
  set (self1 := set_outputLines _ self).
  assert (Hb1 : useBullets self1 = false) by exact Hb.
  assert (Ht1 : useTables self1 = false) by exact Ht.
  rewrite Hb1, Ht1. exists self1.
  split; [reflexivity|]. split; [|split; reflexivity].
  unfold getOutputLines, self1. cbn [andb outputLines set_outputLines].
  rewrite isnil_map.
  pose proof (lineText_filter_parse self lines Hnamed) as Htext.
  cbn [orb] in *. rewrite Htext.
  destruct (List.filter _ (List.map normalize lines)) eqn:E.
  - destruct (List.filter _ (List.map (parseLine self) lines));
      [reflexivity|discriminate].
  - destruct (List.filter _ (List.map (parseLine self) lines));
      [discriminate|reflexivity].
Qed.

Lemma changeOutputLines_getOutputLines_witness :
  exists self',
    changeOutputLines formatAB ["{*A*}:   {*B*}"; "   "; "end"] false
    = Return tt self' /\
    getOutputLines self' false = ["{*A*}: {*B*}"; "end"].
Proof.
  destruct (changeOutputLines_getOutputLines formatAB
              ["{*A*}:   {*B*}"; "   "; "end"] formatAB_fieldsNamed
              eq_refl eq_refl) as (self' & Hret & Hget & _).
  exists self'. split; [exact Hret|exact Hget].
Defined.

(** X6. [addOutputLine] with blank text changes nothing; with other text
    it adds one line at the end, the parsed text, which is not empty. *)
Theorem addOutputLine_lines (self : NodeFormat.t) (line : string) :
  addOutputLine self line
  = (if all isspace line then self
     else set_outputLines (outputLines self ++ [parseLine self line]) self) /\
  (all isspace line = false <-> parseLine self line <> []).
Proof.
  unfold addOutputLine. cbn zeta.
  assert (H : parseLine self line = [] <-> all isspace line = true)
    by (rewrite parseLine_nil; apply normalize_blank).
  destruct (all isspace line).
  - rewrite (proj2 H eq_refl). split; [reflexivity|].
    split; [discriminate|congruence].
  - destruct (parseLine self line) as [|p ps].
    + destruct H as [H _]. discriminate (H eq_refl).
    + split; [reflexivity|]. split; [discriminate|reflexivity].
Qed.

Lemma getOutputLines_nonempty self useOriginal :
  getOutputLines self useOriginal <> [].
Proof.
  unfold getOutputLines. cbn zeta.
  destruct (isnil (List.map lineText _)) eqn:E; [discriminate|].
  intros H. rewrite H in E. discriminate.
Qed.

Lemma map_parseLine_roundtrip self texts :
  fieldsNamed self ->
  List.map (parseLine self)
           (List.map lineText (List.map (parseLine self) texts))
  = List.map (parseLine self) texts.
Proof.
  intros Hnamed. rewrite !map_map. apply map_ext.
  intros text. rewrite lineText_parseLine by exact Hnamed.
  apply parseLine_normalize.
Qed.

Lemma updateLineParsing_titleLine self :
  titleLine (updateLineParsing self) = parseLine self (getTitleLine self).
Proof.
  unfold updateLineParsing. cbn zeta.
  destruct (negb (isnil (origOutputLines _))); reflexivity.
Qed.

Lemma updateLineParsing_orig_nil self :
  origOutputLines self = [] -> origOutputLines (updateLineParsing self) = [].
Proof.
  intros H. unfold updateLineParsing. cbn zeta.
  cbn [origOutputLines set_outputLines set_titleLine]. rewrite H.
  cbn [isnil negb origOutputLines set_outputLines set_titleLine]. exact H.
Qed.

Lemma updateLineParsing_flags self :
  NodeFormat.name (updateLineParsing self) = NodeFormat.name self /\
  spaceBetween (updateLineParsing self) = spaceBetween self /\
  formatHtml (updateLineParsing self) = formatHtml self /\
  useBullets (updateLineParsing self) = useBullets self /\
  useTables (updateLineParsing self) = useTables self.
Proof.
  unfold updateLineParsing. cbn zeta.
  destruct (negb (isnil (origOutputLines _))); repeat split.
Qed.

Lemma format_eq (f g : NodeFormat.t) :
  NodeFormat.name f = NodeFormat.name g ->
  fieldDict f = fieldDict g ->
  titleLine f = titleLine g ->
  outputLines f = outputLines g ->
  origOutputLines f = origOutputLines g ->
  siblingPrefix f = siblingPrefix g ->
  siblingSuffix f = siblingSuffix g ->
  spaceBetween f = spaceBetween g ->
  formatHtml f = formatHtml g ->
  useBullets f = useBullets g ->
  useTables f = useTables g ->
  f = g.
Proof. destruct f, g. simpl. intros. now subst. Qed.

(** X7. [updateLineParsing] is idempotent: once the lines have been
    written as text and parsed again, doing it once more changes
    nothing. *)
Theorem updateLineParsing_idempotent (self : NodeFormat.t) :
  fieldsNamed self ->
  updateLineParsing (updateLineParsing self) = updateLineParsing self.
Proof.
  intros Hnamed.
  set (self1 := updateLineParsing self).
  assert (Hfd : fieldDict self1 = fieldDict self)
    by apply updateLineParsing_fieldDict.
  assert (Hnamed1 : fieldsNamed self1).
  { intros key field H. apply Hnamed. now rewrite <- Hfd. }
  assert (Htitle : titleLine self1 = parseLine self (getTitleLine self))
    by apply updateLineParsing_titleLine.
  assert (Hout : outputLines self1
                 = List.map (parseLine self) (getOutputLines self false))
    by apply updateLineParsing_outputLines.
  destruct (updateLineParsing_flags self1) as (Hn & Hsb & Hfh & Hub & Hut).
  destruct (updateLineParsing_sibling self1) as [Hsp Hss].
  assert (Hout1 : outputLines self1 <> []).
  { rewrite Hout. intros H. apply map_eq_nil in H.
    exact (getOutputLines_nonempty _ _ H). }
  apply format_eq; try assumption.
  - apply updateLineParsing_fieldDict.
  - rewrite updateLineParsing_titleLine. unfold getTitleLine.
    rewrite Htitle. rewrite (parseLine_fieldDict self1 self) by exact Hfd.
    rewrite lineText_parseLine by exact Hnamed. apply parseLine_normalize.
  - rewrite updateLineParsing_outputLines.
    rewrite getOutputLines_current by exact Hout1.
    rewrite (map_parseLine_fieldDict self1 self) by exact Hfd.
    rewrite Hout. now apply map_parseLine_roundtrip.
  - destruct (origOutputLines self) as [|l ls] eqn:Horig.
    + assert (H1 : origOutputLines self1 = [])
        by now apply updateLineParsing_orig_nil.
      rewrite H1. now apply updateLineParsing_orig_nil.
    + assert (H1 : origOutputLines self1
                   = List.map (parseLine self)
                              (List.map lineText (origOutputLines self))).
      { apply updateLineParsing_origOutputLines. now rewrite Horig. }
      rewrite updateLineParsing_origOutputLines.
      * rewrite (map_parseLine_fieldDict self1 self) by exact Hfd.
        rewrite H1. now apply map_parseLine_roundtrip.
      * rewrite H1, Horig. discriminate.
Qed.

Lemma updateLineParsing_idempotent_witness :
  updateLineParsing (updateLineParsing formatRemoved)
  = updateLineParsing formatRemoved.
Proof.
  apply updateLineParsing_idempotent.
  intros key field H. unfold formatRemoved in H. cbn in H.
  apply lookup_insert_Some in H as [[<- <-]|[_ H]]; [reflexivity|].
  rewrite lookup_empty in H. discriminate.
Defined.

(** ** Removing a field from the lines *)

Lemma filter_not_field field line :
  ~ In (PField field)
       (List.filter (fun part => negb (isField field part)) line).
Proof.
  intros H. apply filter_In in H as [_ H]. simpl in H.
  rewrite bool_decide_eq_true_2 in H by reflexivity. discriminate.
Qed.

Lemma filter_keeps_others field part line :
  part <> PField field ->
  In part line ->
  In part (List.filter (fun part => negb (isField field part)) line).
Proof.
  intros Hne Hin. apply filter_In. split; [exact Hin|].
  destruct part as [text|f]; [reflexivity|]. simpl.
  rewrite bool_decide_eq_false_2; [reflexivity|]. congruence.
Qed.

(** X8. After [removeField] the field object occurs neither in the title
    line nor in an output line and no output line is empty; the field
    table is as before (the field stays registered). Every other part of
    the title line and of the output lines is still there, another field
    object of the same name and type included. *)
Theorem removeField_lines (self : NodeFormat.t) (field : FieldFormat) :
  ~ In (PField field) (titleLine (removeField self field)) /\
  Forall (fun line => line <> [] /\ ~ In (PField field) line)
         (outputLines (removeField self field)) /\
  fieldDict (removeField self field) = fieldDict self /\
  (forall part, part <> PField field ->
     In part (titleLine self) ->
     In part (titleLine (removeField self field))) /\
  (forall line part, part <> PField field ->
     In line (outputLines self) -> In part line ->
     exists line', In line' (outputLines (removeField self field)) /\
                   In part line').
Proof.
  unfold removeField. cbn zeta.
  cbn [titleLine outputLines fieldDict set_outputLines set_titleLine].
  split; [apply filter_not_field|]. split; [|split; [reflexivity|split]].
  - apply List.Forall_forall. intros line Hin.
    apply filter_In in Hin as [Hin Hne]. split.
    + destruct line; [discriminate|discriminate].
    + apply in_map_iff in Hin as (l0 & <- & _). apply filter_not_field.
  - intros part Hne Hin. now apply filter_keeps_others.
  - intros line part Hne Hline Hpart.
    exists (List.filter (fun part => negb (isField field part)) line).
    pose proof (filter_keeps_others field part line Hne Hpart) as Hkept.
    split; [|exact Hkept].
    apply filter_In. split.
    + apply in_map_iff. now exists line.
    + destruct (List.filter _ line); [destruct Hkept|reflexivity].
Qed.

(** A format whose title line still refers to the first field object of
    the name [A], while the table holds a second one: [addField] has
    replaced the object, and the title line was not parsed again. *)
Definition formatStale : NodeFormat.t :=
  let self := addField exampleClasses (emptyFormat "Item") "A" None 1 in
  addField exampleClasses (changeTitleLine self "{*A*}") "A" None 2.

(** Removing the object of the table leaves the older object in the
    title line; removing the older object empties it. *)
Example removeField_other_object :
  fieldDict formatStale !! "A" = Some (FieldFormat.Build "A" "TextField" 2) /\
  titleLine formatStale = [PField (FieldFormat.Build "A" "TextField" 1)] /\
  titleLine (removeField formatStale (FieldFormat.Build "A" "TextField" 2))
  = [PField (FieldFormat.Build "A" "TextField" 1)] /\
  titleLine (removeField formatStale (FieldFormat.Build "A" "TextField" 1))
  = [].
Proof. repeat split; vm_compute; reflexivity. Qed.

(** ** More on output *)

Section OutputMore.
Context {Node : Type}.
Variable outputText : FieldFormat -> Node -> bool -> bool -> string.
Variable removeMarkup : string -> string.
Variable self : NodeFormat.t.
Variable node : Node.
Variable plainText keepBlanks : bool.

(** The test of [formatOutput] for keeping a line, on what the fields of
    the line render. *)
Definition keepsLineb (lineData : list Part) : bool :=
  let outs := fieldOutputs outputText self node plainText lineData in
  keepBlanks || existsb (fun text => negb (isempty text)) outs || isnil outs.

Lemma keepsLineb_true lineData :
  keepsLineb lineData = true ->
  keepsLine outputText self node plainText keepBlanks lineData.
Proof.
  unfold keepsLineb, keepsLine. cbn zeta. intros H.
  apply orb_true_iff in H as [H|H].
  - apply orb_true_iff in H as [H|H]; [now left|]. right. left.
    apply existsb_exists in H as (t & Hin & Ht). apply Exists_exists.
    exists t. split; [now apply list_elem_of_In|].
    destruct t; [discriminate|discriminate].
  - right. right. now destruct (fieldOutputs _ _ _ _ _).
Qed.

Lemma keepsLineb_false lineData :
  keepsLineb lineData = false ->
  dropsLine outputText self node plainText keepBlanks lineData.
Proof.
  intros H.
  destruct (keeps_or_drops outputText self node plainText keepBlanks lineData)
    as [Hk|Hd]; [|exact Hd].
  exfalso. unfold keepsLineb, keepsLine in *. cbn zeta in H.
  apply orb_false_iff in H as [H Hnil].
  apply orb_false_iff in H as [Hkb Hex].
  destruct Hk as [Hk|[Hk|Hk]].
  - congruence.
  - apply Exists_exists in Hk as (t & Hin & Ht).
    assert (E : existsb (fun text => negb (isempty text))
                  (fieldOutputs outputText self node plainText lineData)
                = true).
    { apply existsb_exists. exists t. split; [now apply list_elem_of_In|].
      destruct t; [congruence|reflexivity]. }
    congruence.
  - rewrite Hk in Hnil. discriminate.
Qed.

Lemma fold_formatOutputStep_length lines result :
  length (fold_left (formatOutputStep outputText removeMarkup self node
                                      plainText keepBlanks) lines result)
  = length result + length (List.filter keepsLineb lines).
Proof.
  revert result. induction lines as [|l lines IH]; intros result.
  - simpl. lia.
  - cbn [fold_left List.filter]. rewrite IH.
    destruct (keepsLineb l) eqn:E.
    + rewrite formatOutputStep_keeps by now apply keepsLineb_true.
      rewrite length_app. simpl. lia.
    + rewrite formatOutputStep_drops_length by now apply keepsLineb_false.
      lia.
Qed.

Lemma fold_formatOutputStep_plain lines result :
  formatHtml self && negb plainText = false ->
  fold_left (formatOutputStep outputText removeMarkup self node
                              plainText keepBlanks) lines result
  = result ++ List.map (renderedLine outputText removeMarkup self node
                                     plainText)
                       (List.filter keepsLineb lines).
Proof.
  intros Hmode. revert result.
  induction lines as [|l lines IH]; intros result.
  - simpl. now rewrite app_nil_r.
  - cbn [fold_left List.filter]. rewrite IH.
    destruct (keepsLineb l) eqn:E.
    + rewrite formatOutputStep_keeps by now apply keepsLineb_true.
      now rewrite <- app_assoc.
    + rewrite formatOutputStep_drops by now apply keepsLineb_false.
      now rewrite Hmode.
Qed.

End OutputMore.

(** X9. In every mode [formatOutput] returns one line for each output
    line that passes the test [keepBlanks or numFullFields or not
    numEmptyFields], and none for the others: the end tags of skipped
    lines never add a line. With [keepBlanks] it returns one line for
    each output line. *)
Theorem formatOutput_length {Node : Type}
    (outputText : FieldFormat -> Node -> bool -> bool -> string)
    (removeMarkup : string -> string) (self : NodeFormat.t)
    (node : Node) (plainText keepBlanks : bool) :
  length (formatOutput outputText removeMarkup self node plainText keepBlanks)
  = length (List.filter (keepsLineb outputText self node plainText keepBlanks)
                        (outputLines self)) /\
  length (formatOutput outputText removeMarkup self node plainText true)
  = length (outputLines self).
Proof.
  unfold formatOutput. rewrite !fold_formatOutputStep_length. simpl.
  split; [reflexivity|]. f_equal.
  induction (outputLines self) as [|l ls IH]; [reflexivity|].
  simpl. now rewrite IH.
Qed.

(** X10. When the format is not HTML, or plain text is asked for, the
    result of [formatOutput] is the rendered text of the kept lines, in
    order, and nothing of a skipped line reaches it. *)
Theorem formatOutput_plain {Node : Type}
    (outputText : FieldFormat -> Node -> bool -> bool -> string)
    (removeMarkup : string -> string) (self : NodeFormat.t)
    (node : Node) (plainText keepBlanks : bool) :
  formatHtml self = false \/ plainText = true ->
  formatOutput outputText removeMarkup self node plainText keepBlanks
  = List.map (renderedLine outputText removeMarkup self node plainText)
             (List.filter
                (keepsLineb outputText self node plainText keepBlanks)
                (outputLines self)).
Proof.
  intros Hmode. unfold formatOutput.
  rewrite fold_formatOutputStep_plain; [reflexivity|].
  destruct Hmode as [-> | ->]; [reflexivity|apply andb_false_r].
Qed.

Lemma formatOutput_plain_witness :
  formatOutput textOutput id (formatHtmlA "{*A*}<br />") ∅ true false = ["x"].
Proof.
  rewrite (formatOutput_plain textOutput id (formatHtmlA "{*A*}<br />")
             ∅ true false); [|now right].
  vm_compute. reflexivity.
Defined.

(** ** Titles *)

Lemma firstLine_isdot s : all isdot (firstLine s) = true.
Proof.
  induction s as [|c s IH]; [reflexivity|]. simpl.
  destruct (Ascii.eqb c "010") eqn:E; [reflexivity|].
  simpl. unfold isdot at 1. now rewrite E.
Qed.

Lemma lstrip_head s : headFails isspace (lstrip s).
Proof.
  induction s as [|c s IH]; [exact I|]. simpl.
  destruct (isspace c) eqn:E; [exact IH|exact E].
Qed.

Lemma rstrip_head s : headFails isspace s -> headFails isspace (rstrip s).
Proof.
  destruct s as [|c s]; [trivial|]. simpl. intros Hc.
  destruct (rstrip s); [now rewrite Hc|exact Hc].
Qed.

Lemma firstLine_head s : headFails isspace s -> headFails isspace (firstLine s).
Proof.
  destruct s as [|c s]; [trivial|]. simpl. intros Hc.
  destruct (Ascii.eqb c "010"); [exact I|exact Hc].
Qed.

(** X11. A title is one line that does not start with whitespace: the
    result of [formatTitle] holds no newline, whatever the fields render,
    and its first character, if any, is not whitespace. *)
Theorem formatTitle_one_line {Node : Type}
    (outputText : FieldFormat -> Node -> bool -> bool -> string)
    (self : NodeFormat.t) (node : Node) :
  all isdot (formatTitle outputText self node) = true /\
  headFails isspace (formatTitle outputText self node).
Proof.
  unfold formatTitle. cbn zeta. split; [apply firstLine_isdot|].
  apply firstLine_head, rstrip_head, lstrip_head.
Qed.

(** ** Matching a title against the title line *)

(** The text that a pattern stands for once its groups are given. *)
Fixpoint fillPattern (pattern : list Pat) (groups : list string) : string :=
  match pattern with
  | [] => ""
  | Lit text :: pattern' => text +:+ fillPattern pattern' groups
  | Group :: pattern' =>
      match groups with
      | g :: groups' => g +:+ fillPattern pattern' groups'
      | [] => fillPattern pattern' []
      end
  end.

Definition countGroups (pattern : list Pat) : nat :=
  length (List.filter (fun p => match p with Group => true | Lit _ => false end)
                      pattern).

(** The loop of a group: [k] characters held, one given back at a time. *)
Fixpoint giveBack (rest : string -> option (list string)) (s : string)
    (k : nat) : option (list string) :=
  match rest (drop k s) with
  | Some groups => Some (take k s :: groups)
  | None =>
      match k with
      | O => None
      | S k' => giveBack rest s k'
      end
  end.

Lemma reMatch_group pattern s :
  reMatch (Group :: pattern) s
  = giveBack (reMatch pattern) s (String.length (fst (span isdot s))).
Proof.
  cbn [reMatch]. generalize (String.length (fst (span isdot s))) as k.
  induction k as [|k IH]; cbn [giveBack];
    destruct (reMatch pattern (drop _ s)); try reflexivity.
  exact IH.
Qed.

Lemma giveBack_sound rest s k0 groups :
  giveBack rest s k0 = Some groups ->
  exists k groups', k <= k0 /\ rest (drop k s) = Some groups' /\
                    groups = take k s :: groups'.
Proof.
  induction k0 as [|k0 IH]; cbn [giveBack].
  - destruct (rest (drop 0 s)) as [g|] eqn:E; [|discriminate].
    intros H; inversion H. exists 0, g. auto.
  - destruct (rest (drop (S k0) s)) as [g|] eqn:E.
    + intros H; inversion H. exists (S k0), g. auto.
    + intros H. destruct (IH H) as (k & g & Hk & Hr & Hg).
      exists k, g. split; [lia|auto].
Qed.

Lemma giveBack_complete rest s k0 k :
  k <= k0 -> is_Some (rest (drop k s)) -> is_Some (giveBack rest s k0).
Proof.
  intros Hk Hsome. induction k0 as [|k0 IH]; cbn [giveBack].
  - assert (k = 0) by lia. subst k. destruct Hsome as [g ->]. eauto.
  - destruct (rest (drop (S k0) s)) as [g|] eqn:E; [eauto|].
    apply IH. destruct (decide (k = S k0)) as [->|Hne]; [|lia].
    rewrite E in Hsome. destruct Hsome; discriminate.
Qed.

Lemma take_drop k s : take k s +:+ drop k s = s.
Proof.
  revert s. induction k as [|k IH]; intros [|c s]; try reflexivity.
  cbn [take drop]. rewrite app_String. now rewrite IH.
Qed.

Lemma take_span_all p k s :
  k <= String.length (fst (span p s)) -> all p (take k s) = true.
Proof.
  revert s. induction k as [|k IH]; intros [|c s] Hk; try reflexivity.
  cbn [span] in Hk. cbn [take all].
  destruct (p c) eqn:Hc; [|simpl in Hk; lia].
  destruct (span p s) as [a b] eqn:E. simpl in Hk.
  rewrite IH; [reflexivity|]. rewrite E. simpl. lia.
Qed.

Lemma span_length_run p a b :
  all p a = true -> String.length a <= String.length (fst (span p (a +:+ b))).
Proof.
  induction a as [|c a IH]; [simpl; lia|]. cbn [all]. intros H.
  apply andb_true_iff in H as [Hc Ha]. rewrite app_String. cbn [span].
  rewrite Hc. specialize (IH Ha).
  destruct (span p (a +:+ b)) as [x y]. simpl in *. lia.
Qed.

Lemma stripPrefix_sound p s r : stripPrefix p s = Some r -> s = p +:+ r.
Proof.
  revert s. induction p as [|a p IH]; intros s; simpl.
  - intros H; now inversion H.
  - destruct s as [|b s]; [discriminate|].
    destruct (Ascii.eqb_spec a b) as [->|]; [|discriminate].
    intros H. rewrite app_String. f_equal. now apply IH.
Qed.

Lemma stripPrefix_app p r : stripPrefix p (p +:+ r) = Some r.
Proof.
  induction p as [|c p IH]; [reflexivity|].
  rewrite app_String. simpl. now rewrite Ascii.eqb_refl.
Qed.

Lemma reMatch_length pattern : forall s groups,
  reMatch pattern s = Some groups -> length groups = countGroups pattern.
Proof.
  induction pattern as [|[|text] pattern IH]; intros s groups.
  - simpl. intros H; inversion H. reflexivity.
  - rewrite reMatch_group. intros H.
    apply giveBack_sound in H as (k & groups' & Hk & Hrest & ->).
    unfold countGroups in *. simpl. now rewrite (IH _ _ Hrest).
  - cbn [reMatch]. destruct (stripPrefix text s) as [r|] eqn:E;
      [|discriminate].
    intros H. exact (IH _ _ H).
Qed.

(** X12. When the pattern of a title line matches a title, the groups put
    back between the separators give the beginning of the title; no group
    holds a newline, and there is one group for each field. *)
Theorem reMatch_prefix (pattern : list Pat) (s : string)
    (groups : list string) :
  reMatch pattern s = Some groups ->
  (exists rest, s = fillPattern pattern groups +:+ rest) /\
  Forall (fun g => all isdot g = true) groups /\
  length groups = countGroups pattern.
Proof.
  revert s groups. induction pattern as [|[|text] pattern IH];
    intros s groups.
  - simpl. intros H; inversion H. split; [now exists s|].
    split; [constructor|reflexivity].
  - rewrite reMatch_group. intros H.
    apply giveBack_sound in H as (k & groups' & Hk & Hrest & ->).
    destruct (IH _ _ Hrest) as ([rest Hs] & Hdots & Hlen).
    split; [|split].
    + exists rest. cbn [fillPattern]. rewrite append_assoc, <- Hs.
      now rewrite take_drop.
    + constructor; [now apply take_span_all|exact Hdots].
    + unfold countGroups in *. simpl. now rewrite Hlen.
  - cbn [reMatch]. destruct (stripPrefix text s) as [r|] eqn:E;
      [|discriminate].
    intros H. destruct (IH _ _ H) as ([rest Hs] & Hdots & Hlen).
    split; [|split; [exact Hdots|exact Hlen]].
    exists rest. cbn [fillPattern]. rewrite append_assoc, <- Hs.
    now apply stripPrefix_sound.
Qed.

Lemma reMatch_prefix_witness :
  (exists rest, "Ann Lee" = fillPattern [Group; Lit " "; Group] ["Ann"; "Lee"]
                            +:+ rest) /\
  Forall (fun g => all isdot g = true) ["Ann"; "Lee"] /\
  length ["Ann"; "Lee"] = countGroups [Group; Lit " "; Group].
Proof.
  apply (reMatch_prefix [Group; Lit " "; Group] "Ann Lee" ["Ann"; "Lee"]).
  vm_compute. reflexivity.
Defined.

Lemma reMatch_complete pattern :
  forall vals rest,
    Forall (fun v => all isdot v = true) vals ->
    length vals = countGroups pattern ->
    is_Some (reMatch pattern (fillPattern pattern vals +:+ rest)).
Proof.
  induction pattern as [|[|text] pattern IH]; intros vals rest Hdots Hlen.
  - simpl. eauto.
  - destruct vals as [|v vals]; [discriminate|].
    inversion Hdots as [|? ? Hv Hvals]; subst.
    rewrite reMatch_group. cbn [fillPattern]. rewrite append_assoc.
    apply (giveBack_complete _ _ _ (String.length v)).
    + now apply span_length_run.
    + rewrite <- (Nat.add_0_r (String.length v)), drop_app_length.
      cbn [drop]. apply IH; [exact Hvals|].
      unfold countGroups in *. simpl in Hlen. lia.
  - cbn [reMatch fillPattern]. rewrite append_assoc, stripPrefix_app.
    now apply IH.
Qed.

Lemma titlePattern_groups self :
  countGroups (titlePattern self) = length (titleFields self).
Proof.
  unfold countGroups, titlePattern, titleFields.
  induction (titleLine self) as [|[text|field] line IH]; simpl; auto.
Qed.

Lemma storeGroups_total
    (storedTextFromTitle : FieldFormat -> string -> option string)
    fields groups data :
  (forall field text, is_Some (storedTextFromTitle field text)) ->
  length groups = length fields ->
  exists data', storeGroups storedTextFromTitle fields groups data
                = Return true data'.
Proof.
  intros Htotal. revert groups data.
  induction fields as [|f fields IH]; intros groups data Hlen.
  - simpl. eauto.
  - destruct groups as [|g groups]; [discriminate|]. simpl.
    destruct (Htotal f g) as [v ->]. apply IH. simpl in Hlen. lia.
Qed.

(** X13. A title that the title line can produce is accepted: when each
    field is given a value without newline, the text made of the values
    and the separators (and any text after it) matches, and with field
    types that convert every text [extractTitleData] returns [True]. *)
Theorem extractTitleData_accepts
    (storedTextFromTitle : FieldFormat -> string -> option string)
    (self : NodeFormat.t) (vals : list string) (rest : string)
    (data : gmap string string) :
  (forall field text, is_Some (storedTextFromTitle field text)) ->
  Forall (fun v => all isdot v = true) vals ->
  length vals = length (titleFields self) ->
  exists data',
    extractTitleData storedTextFromTitle self
      (fillPattern (titlePattern self) vals +:+ rest) data
    = Return true data'.
Proof.
  intros Htotal Hdots Hlen. rewrite extractTitleData_unfold.
  destruct (reMatch_complete (titlePattern self) vals rest Hdots) as [g Hg].
  { now rewrite titlePattern_groups. }
  rewrite Hg. apply storeGroups_total; [exact Htotal|].
  pose proof (reMatch_length _ _ _ Hg) as Hn.
  now rewrite Hn, titlePattern_groups.
Qed.

Lemma extractTitleData_accepts_witness :
  exists data',
    extractTitleData (fun _ text => Some text) formatName
      (fillPattern (titlePattern formatName) ["Mary Ann"; "Lee"] +:+ "") ∅
    = Return true data'.
Proof.
  apply (extractTitleData_accepts (fun _ text => Some text) formatName
           ["Mary Ann"; "Lee"] "" ∅).
  - intros field text. eauto.
  - repeat constructor.
  - vm_compute. reflexivity.
Defined.

Lemma fold_insert_frame (fields : list FieldFormat) (d : gmap string string)
    (key : string) :
  ~ In key (List.map FieldFormat.name fields) ->
  fold_left (fun d field => <[FieldFormat.name field := ""]> d) fields d
    !! key = d !! key.
Proof.
  revert d. induction fields as [|f fields IH]; intros d Hnin; [reflexivity|].
  simpl in *. rewrite IH by tauto. apply lookup_insert_ne. tauto.
Qed.

Lemma storeGroups_frame_any
    (storedTextFromTitle : FieldFormat -> string -> option string)
    fields groups data key :
  ~ In key (List.map FieldFormat.name fields) ->
  finalState (storeGroups storedTextFromTitle fields groups data) !! key
  = data !! key.
Proof.
  revert groups data. induction fields as [|f fields IH];
    intros groups data Hnin; [reflexivity|].
  destruct groups as [|g groups]; [reflexivity|]. simpl in *.
  destruct (storedTextFromTitle f g); [|reflexivity].
  rewrite IH by tauto. apply lookup_insert_ne. tauto.
Qed.

(** X14. Whatever the title and however the call ends, [extractTitleData]
    leaves every entry of the data alone whose key is not the name of a
    field of the title line. *)
Theorem extractTitleData_frame
    (storedTextFromTitle : FieldFormat -> string -> option string)
    (self : NodeFormat.t) (titleString : string)
    (data : gmap string string) (key : string) :
  ~ In key (List.map FieldFormat.name (titleFields self)) ->
  finalState (extractTitleData storedTextFromTitle self titleString data)
    !! key
  = data !! key.
Proof.
  intros Hnin. rewrite extractTitleData_unfold.
  destruct (reMatch (titlePattern self) titleString).
  - now apply storeGroups_frame_any.
  - destruct (isempty (strip (titleExtraText self))); [|reflexivity].
    destruct (titleFields self) as [|f fields]; [reflexivity|].
    destruct (storedTextFromTitle f titleString); [|reflexivity].
    simpl in *. rewrite fold_insert_frame by tauto.
    apply lookup_insert_ne. tauto.
Qed.

Lemma extractTitleData_frame_witness :
  finalState (extractTitleData storedFromTitle formatItem "Apples many"
                (<["Note" := "ripe"]> ∅)) !! "Note"
  = (<["Note" := "ripe"]> ∅ : gmap string string) !! "Note".
Proof.
  apply (extractTitleData_frame storedFromTitle formatItem "Apples many"
           (<["Note" := "ripe"]> ∅) "Note").
  vm_compute. intros [H|[H|[]]]; discriminate.
Defined.

(** ** Tables and bullets *)

(** X15. On a format none of whose output lines has text (a new format,
    for one), [addTables] raises [IndexError]; the sibling prefix and
    suffix have been set by then, the lines are as they were. *)
Theorem addTables_no_text (self : NodeFormat.t) :
  Forall (fun line => line = "") (getOutputLines self true) ->
  addTables self
  = Raise IndexError (set_sibling tableOpen "</table>" self).
Proof.
  intros Hall. unfold addTables. cbn zeta.
  assert (E : List.filter (fun line => negb (isempty line))
                          (getOutputLines self true) = []).
  { induction Hall as [|l ls -> Hls IH]; [reflexivity|exact IH]. }
  rewrite E. reflexivity.
Qed.

Lemma addTables_no_text_witness :
  addTables (emptyFormat "Item")
  = Raise IndexError (set_sibling tableOpen "</table>" (emptyFormat "Item")).
Proof.
  apply addTables_no_text. vm_compute. repeat constructor.
Defined.

Lemma addBullets_fieldDict self : fieldDict (addBullets self) = fieldDict self.
Proof.
  destruct (addBullets_decorated self) as [lines ->].
  now rewrite updateLineParsing_fieldDict.
Qed.

Lemma addBullets_outputLines_parsed self :
  fieldsNamed self ->
  outputLines (addBullets self) <> [] /\
  parsedLines (addBullets self) (outputLines (addBullets self)).
Proof.
  intros Hnamed. pose proof (addBullets_fieldDict self) as Hfd.
  destruct (addBullets_decorated self) as [lines E]. rewrite E in *.
  rewrite updateLineParsing_outputLines. split.
  - intros H. apply map_eq_nil in H.
    exact (getOutputLines_nonempty _ _ H).
  - unfold parsedLines.
    rewrite (map_parseLine_fieldDict (updateLineParsing _) self) by exact Hfd.
    rewrite (map_parseLine_fieldDict
               (set_outputLines _ _) self (getOutputLines _ _))
      by reflexivity.
    now apply map_parseLine_roundtrip.
Qed.

(** X16. [clearBulletsAndTables] undoes the last decoration only: a
    second [addBullets] saves the lines that carry the bullets of the
    first as the original ones, and clearing afterwards leaves the format
    with those lines. *)
Theorem addBullets_twice_clear (self : NodeFormat.t) :
  fieldsNamed self ->
  outputLines (clearBulletsAndTables (addBullets (addBullets self)))
  = outputLines (addBullets self).
Proof.
  intros Hnamed.
  destruct (addBullets_outputLines_parsed self Hnamed) as [Hne Hparsed].
  destruct (addBullets_decorated (addBullets self)) as [lines ->].
  now apply decorate_clear.
Qed.

Lemma addBullets_twice_clear_witness :
  outputLines (clearBulletsAndTables (addBullets (addBullets formatAB)))
  = outputLines (addBullets formatAB).
Proof. apply addBullets_twice_clear. exact formatAB_fieldsNamed. Defined.

(** X17. After [addBullets] on a format that has output lines, the text
    of the lines without the bullets can still be read:
    [getOutputLines(True)] gives the text that [getOutputLines(False)]
    gave before, with its whitespace normalized. The sibling prefix and
    suffix are the list tags. *)
Theorem addBullets_original_text (self : NodeFormat.t) :
  fieldsNamed self ->
  outputLines self <> [] ->
  getOutputLines (addBullets self) true
  = List.map normalize (getOutputLines self false) /\
  siblingPrefix (addBullets self) = "<ul>" /\
  siblingSuffix (addBullets self) = "</ul>".
Proof.
  intros Hnamed Hne. destruct (addBullets_decorated self) as [lines E].
  rewrite E. set (self1 := set_outputLines _ _).
  destruct (updateLineParsing_sibling self1) as [Hp Hs].
  split; [|split; [now rewrite Hp|now rewrite Hs]].
  assert (Horig1 : origOutputLines self1 = outputLines self) by reflexivity.
  assert (Hfd1 : fieldDict self1 = fieldDict self) by reflexivity.
  assert (Horig : origOutputLines (updateLineParsing self1)
                  = List.map (parseLine self)
                             (List.map lineText (outputLines self))).
  { rewrite updateLineParsing_origOutputLines by now rewrite Horig1.
    rewrite Horig1. now apply map_parseLine_fieldDict. }
  clearbody self1.
  rewrite getOutputLines_original.
  - rewrite Horig, getOutputLines_current by exact Hne.
    rewrite !map_map. apply map_ext. intros line.
    now apply lineText_parseLine.
  - rewrite Horig. intros H. apply map_eq_nil, map_eq_nil in H. congruence.
Qed.

Lemma addBullets_original_text_witness :
  getOutputLines (addBullets formatAB) true
  = List.map normalize (getOutputLines formatAB false) /\
  siblingPrefix (addBullets formatAB) = "<ul>" /\
  siblingSuffix (addBullets formatAB) = "</ul>".
Proof.
  apply addBullets_original_text; [exact formatAB_fieldsNamed|].
  vm_compute. discriminate.
Defined.

(** ** Adding a list of fields *)

Lemma namechar_notspace c : isnamechar c = true -> notspace c = true.
Proof. destruct c as [[] [] [] [] [] [] [] []]; vm_compute; congruence. Qed.

Lemma all_namechar_notspace s :
  all isnamechar s = true -> all notspace s = true.
Proof.
  induction s as [|c s IH]; [reflexivity|]. simpl. intros H.
  apply andb_true_iff in H as [Hc Hs].
  now rewrite (namechar_notspace c Hc), IH.
Qed.

Lemma normalize_word w : isWord w -> normalize w = w.
Proof.
  intros Hw. unfold normalize.
  change w with (join " " [w]) at 1. rewrite split_join; [reflexivity|].
  now constructor.
Qed.

Lemma refText_word fieldName : validName fieldName -> isWord (refText "" fieldName).
Proof.
  intros [Hne Hall]. split; [discriminate|].
  unfold refText. rewrite !all_app.
  now rewrite (all_namechar_notspace _ Hall).
Qed.

Lemma split_go_match acc s modifier fieldName rest :
  matchFieldRef s = Some (modifier, fieldName, rest) ->
  NodeFormat.split_go acc s
  = acc :: refText modifier fieldName :: NodeFormat.split_go "" rest.
Proof.
  funelim (NodeFormat.split_go acc s); simp split_go; intros Hm.
  - discriminate.
  - rewrite e in Hm. inversion Hm; subst. reflexivity.
  - rewrite e in Hm. discriminate.
Qed.

Lemma parseLine_reference self fieldName field :
  validName fieldName ->
  fieldDict self !! fieldName = Some field ->
  parseLine self (refText "" fieldName) = [PField field].
Proof.
  intros Hn Hf. unfold parseLine. cbn zeta.
  rewrite (normalize_word _ (refText_word _ Hn)).
  pose proof (matchFieldRef_complete "" fieldName "" (or_introl eq_refl) Hn)
    as Hm.
  rewrite append_nil_r in Hm.
  unfold _fieldSplitRe_split.
  rewrite (split_go_match _ _ _ _ _ Hm). simp split_go.
  cbn [List.filter isempty negb List.map].
  assert (Hne : isempty (refText "" fieldName) = false) by reflexivity.
  rewrite Hne. cbn [negb List.map].
  unfold parseField, _fieldPartRe_match. rewrite Hm. cbn [isempty].
  now rewrite Hf.
Qed.

Lemma fieldClass_text hasFieldClass :
  fieldClass hasFieldClass "TextField" = "TextField".
Proof. unfold fieldClass. now destruct (hasFieldClass "TextField"). Qed.

Lemma addFieldListStep_old hasFieldClass self next name field :
  fieldDict self !! name = Some field ->
  addFieldListStep hasFieldClass (self, next) name = (self, next).
Proof. intros H. unfold addFieldListStep, addFieldIfNew. now rewrite H. Qed.

Lemma addFieldListStep_new hasFieldClass self next name :
  fieldDict self !! name = None ->
  addFieldListStep hasFieldClass (self, next) name
  = (addField hasFieldClass self name None next, S next).
Proof. intros H. unfold addFieldListStep, addFieldIfNew. now rewrite H. Qed.

Lemma addFieldListStep_fold hasFieldClass nameList : forall self next,
  let st := fold_left (addFieldListStep hasFieldClass) nameList (self, next) in
  next <= snd st /\
  (forall key, key ∈ nameList -> is_Some (fieldDict (fst st) !! key)) /\
  (forall key field, fieldDict self !! key = Some field ->
                     fieldDict (fst st) !! key = Some field) /\
  (forall key field,
     fieldDict self !! key = None ->
     fieldDict (fst st) !! key = Some field ->
     key ∈ nameList /\ FieldFormat.name field = key /\
     FieldFormat.typeName field = "TextField" /\
     next <= FieldFormat.objId field < snd st) /\
  fst st = set_fieldDict (fieldDict (fst st)) self.
Proof.
  induction nameList as [|name nameList IH]; intros self next; cbn zeta.
  - cbn [fold_left fst snd]. split; [lia|]. split; [|split; [|split]].
    + intros key H. now apply not_elem_of_nil in H.
    + auto.
    + intros key field Hnone Hsome. congruence.
    + now destruct self.
  - cbn [fold_left].
    destruct (fieldDict self !! name) as [f|] eqn:E.
    + rewrite (addFieldListStep_old _ _ _ _ _ E).
      destruct (IH self next) as (Hle & Hin & Hold & Hnew & Hsame).
      split; [exact Hle|]. split; [|split; [|split; [|exact Hsame]]].
      * intros key Hkey. apply elem_of_cons in Hkey as [->|Hkey].
        -- rewrite (Hold name f E). now eexists.
        -- now apply Hin.
      * exact Hold.
      * intros key field Hnone Hsome.
        destruct (Hnew key field Hnone Hsome) as (Hk & Hrest).
        split; [now right|exact Hrest].
    + rewrite (addFieldListStep_new _ _ _ _ E).
      set (self1 := addField hasFieldClass self name None next).
      assert (Hname : fieldDict self1 !! name
                      = Some (FieldFormat.Build name "TextField" next)).
      { unfold self1, addField. cbn [fieldDict set_fieldDict default].
        change ("Text" +:+ "Field") with "TextField".
        rewrite fieldClass_text. apply lookup_insert_eq. }
      assert (Hother : forall key, key <> name ->
                 fieldDict self1 !! key = fieldDict self !! key).
      { intros key Hne. unfold self1, addField.
        cbn [fieldDict set_fieldDict]. apply lookup_insert_ne. congruence. }
      assert (Hself1 : self1 = set_fieldDict (fieldDict self1) self)
        by now destruct self.
      clearbody self1.
      destruct (IH self1 (S next)) as (Hle & Hin & Hold & Hnew & Hsame).
      split; [lia|]. split; [|split; [|split]].
      * intros key Hkey. apply elem_of_cons in Hkey as [->|Hkey].
        -- rewrite (Hold _ _ Hname). now eexists.
        -- now apply Hin.
      * intros key field H. apply Hold.
        rewrite Hother; [exact H|congruence].
      * intros key field Hnone Hsome.
        destruct (decide (key = name)) as [->|Hne].
        -- rewrite (Hold _ _ Hname) in Hsome. inversion Hsome; subst field.
           cbn. split; [left|]. split; [reflexivity|].
           split; [reflexivity|lia].
        -- rewrite <- (Hother key Hne) in Hnone.
           destruct (Hnew key field Hnone Hsome) as (Hk & Hn & Ht & Hid).
           split; [now right|]. split; [exact Hn|]. split; [exact Ht|lia].
      * rewrite Hsame at 1. rewrite Hself1. now destruct self.
Qed.

(** X18. [addFieldList] with both flags set, for names that the pattern
    of a reference accepts and a format without bullets and tables: the
    call returns, the title line is the one reference to the field
    registered under the first name, and there is one output line for
    each name, the reference to its field. A name registered before
    refers to the field object it had: no field registered before is
    replaced. A name that was new refers to a new text field of that
    name, an object created by the call. *)
Theorem addFieldList_lines (hasFieldClass : string -> bool)
    (self : NodeFormat.t) (first : string) (rest : list string)
    (next : nat) :
  Forall validName (first :: rest) ->
  useBullets self = false ->
  useTables self = false ->
  exists self' next',
    addFieldList hasFieldClass self (first :: rest) true true next
    = Return tt (self', next') /\
    (exists field, fieldDict self' !! first = Some field /\
                   titleLine self' = [PField field]) /\
    Forall2 (fun name line =>
               exists field, fieldDict self' !! name = Some field /\
                             line = [PField field])
            (first :: rest) (outputLines self') /\
    (forall key field, fieldDict self !! key = Some field ->
                       fieldDict self' !! key = Some field) /\
    (forall key field,
       fieldDict self !! key = None ->
       fieldDict self' !! key = Some field ->
       key ∈ first :: rest /\ FieldFormat.name field = key /\
       FieldFormat.typeName field = "TextField" /\
       next <= FieldFormat.objId field < next').
Proof.
  intros Hvalid Hb Ht. unfold addFieldList.
  destruct (addFieldListStep_fold hasFieldClass (first :: rest) self next)
    as (_ & Hin & Hold & Hnew & Hsame).
  destruct (fold_left (addFieldListStep hasFieldClass) (first :: rest)
                      (self, next)) as [added next'].
  cbn [fst snd] in *.
  destruct (Hin first) as [field0 Hfield0]; [left|].
  assert (Hfirst : parseLine added (refText "" first) = [PField field0]).
  { apply parseLine_reference; [now inversion Hvalid|exact Hfield0]. }
  unfold changeTitleLine. cbn zeta. rewrite Hfirst. cbn [isnil].
  set (titled := set_titleLine _ added).
  assert (Hlines : forall names,
             Forall validName names ->
             (forall n, n ∈ names -> n ∈ first :: rest) ->
             let lines :=
               List.filter (fun newLine => false || negb (isnil newLine))
                 (List.map (parseLine titled)
                           (List.map (refText "") names)) in
             Forall2 (fun name line =>
                        exists field, fieldDict added !! name = Some field /\
                                      line = [PField field])
                     names lines).
  { induction names as [|n names IHn]; intros Hv Hsub; [constructor|].
    cbn zeta. cbn [List.map List.filter].
    destruct (Hin n) as [field Hfield]; [apply Hsub; left|].
    rewrite (parseLine_reference titled n field);
      [|now inversion Hv|exact Hfield].
    cbn [isnil negb orb]. constructor.
    - exists field. split; [exact Hfield|reflexivity].
    - apply IHn; [now inversion Hv|]. intros m Hm. apply Hsub. now right. }
  specialize (Hlines (first :: rest) Hvalid (fun n H => H)). cbn zeta in Hlines.
  unfold changeOutputLines. cbn zeta.
  set (self1 := set_outputLines _ titled) in *.
  assert (Hb1 : useBullets self1 = false).
  { unfold self1, titled. rewrite Hsame. exact Hb. }
  assert (Ht1 : useTables self1 = false).
  { unfold self1, titled. rewrite Hsame. exact Ht. }
  rewrite Hb1, Ht1. exists self1, next'. split; [reflexivity|].
  split; [exists field0; split; [exact Hfield0|reflexivity]|].
  split; [exact Hlines|]. split; [exact Hold|exact Hnew].
Qed.

Lemma addFieldList_lines_witness :
  exists self' next',
    addFieldList exampleClasses formatAB ["B"; "New"] true true 3
    = Return tt (self', next') /\
    titleLine self' = [PField (FieldFormat.Build "B" "TextField" 2)] /\
    (exists field, outputLines self'
                   = [[PField (FieldFormat.Build "B" "TextField" 2)];
                      [PField field]] /\
                   FieldFormat.name field = "New" /\
                   FieldFormat.typeName field = "TextField" /\
                   3 <= FieldFormat.objId field).
Proof.
  destruct (addFieldList_lines exampleClasses formatAB "B" ["New"] 3)
    as (self' & next' & Hret & (f & Hf & Htitle) & Hlines & Hold & Hnew).
  - repeat constructor; discriminate.
  - reflexivity.
  - reflexivity.
  - exists self', next'. split; [exact Hret|].
    assert (HB : fieldDict self' !! "B"
                 = Some (FieldFormat.Build "B" "TextField" 2))
      by (apply Hold; reflexivity).
    split; [rewrite Htitle; congruence|].
    inversion Hlines as [|? l1 ? ls1 (f1 & Hf1 & ->) Hrest]; subst.
    inversion Hrest as [|? l2 ? ls2 (f2 & Hf2 & ->) Hnil]; subst.
    inversion Hnil; subst.
    exists f2. split; [f_equal; congruence|].
    destruct (Hnew "New" f2 eq_refl Hf2) as (_ & Hn & Ht & Hid & _).
    split; [exact Hn|]. split; [exact Ht|exact Hid].
Defined.

(** * Further properties of [treestructure.py] *)

(** ** The node dictionary *)

Lemma structure_eq (s1 s2 : TreeStructure.t) :
  nodeDict s1 = nodeDict s2 ->
  TreeStructure.childList s1 = TreeStructure.childList s2 ->
  treeFormats s1 = treeFormats s2 ->
  s1 = s2.
Proof. destruct s1, s2. simpl. intros. now subst. Qed.

(** X19. [removeNodeDictRef] takes back what [addNodeDictRef] entered
    when the id was new, and does nothing (the [KeyError] is caught) for
    a node whose id is not in the dictionary. *)
Theorem removeNodeDictRef_addNodeDictRef (self : TreeStructure.t)
    (a : addr) (node : TreeNode.t) :
  nodeDict self !! TreeNode.uId node = None ->
  removeNodeDictRef (addNodeDictRef self a node) node = self /\
  removeNodeDictRef self node = self.
Proof.
  intros Hnone. split; apply structure_eq; try reflexivity;
    unfold removeNodeDictRef, addNodeDictRef;
    cbn [nodeDict set_nodeDict].
  - rewrite delete_insert_eq. now apply delete_id.
  - now apply delete_id.
Qed.

Lemma removeNodeDictRef_addNodeDictRef_witness :
  removeNodeDictRef
    (addNodeDictRef cloneStruct 9 (TreeNode.Build "new" "Item" ∅ [] []))
    (TreeNode.Build "new" "Item" ∅ [] [])
  = cloneStruct /\
  removeNodeDictRef cloneStruct (TreeNode.Build "new" "Item" ∅ [] [])
  = cloneStruct.
Proof.
  apply (removeNodeDictRef_addNodeDictRef cloneStruct 9
           (TreeNode.Build "new" "Item" ∅ [] [])).
  vm_compute. reflexivity.
Defined.

(** ** Deleting a spot *)

Lemma list_remove_None x l : list_remove x l = None <-> ~ In x l.
Proof.
  induction l as [|y l IH]; simpl; [tauto|].
  destruct (Nat.eqb_spec x y) as [->|Hne].
  - split; [discriminate|]. intros H. exfalso. apply H. now left.
  - destruct (list_remove x l); split; try discriminate.
    + intros H. exfalso. destruct IH as [_ IH].
      discriminate IH. intros Hin. apply H. now right.
    + intros _ [H|H]; [congruence|]. now apply (proj1 IH).
    + reflexivity.
Qed.

(** No child reference of the store dangles. *)
Definition closedStore (store : Store) : Prop :=
  forall a node c,
    store !! a = Some node -> In c (TreeNode.childList node) ->
    is_Some (store !! c).

(** The child references of the store have no cycle: they go down along
    some measure. *)
Definition acyclicStore (store : Store) : Prop :=
  exists rank : addr -> nat,
    forall a node c,
      store !! a = Some node -> In c (TreeNode.childList node) ->
      rank c < rank a.

Lemma descend_enough (store : Store) (rank : addr -> nat) fuel :
  forall (a : addr) (S : gset addr),
    (forall x, x ∈ S ->
       exists node, store !! x = Some node /\
         forall c, In c (TreeNode.childList node) ->
                   c ∈ S /\ rank c < rank x) ->
    a ∈ S -> size S <= fuel ->
    is_Some (descend fuel store a).
Proof.
  induction fuel as [|fuel IH]; intros a S Hclosed Ha Hsize.
  - assert (Hempty : S ≡ ∅) by (apply size_empty_inv; lia). set_solver.
  - destruct (Hclosed a Ha) as (node & Hnode & Hchildren).
    cbn [descend]. rewrite Hnode.
    assert (Hsub : forall c, In c (TreeNode.childList node) ->
                             is_Some (descend fuel store c)).
    { intros c Hc.
      apply (IH c (filter (fun x => rank x < rank a) S)).
      - intros x Hx. apply elem_of_filter in Hx as [Hrank Hx].
        destruct (Hclosed x Hx) as (nodeX & HnodeX & HchildrenX).
        exists nodeX. split; [exact HnodeX|]. intros d Hd.
        destruct (HchildrenX d Hd) as [HdS Hdrank].
        split; [|exact Hdrank]. apply elem_of_filter. split; [lia|exact HdS].
      - apply elem_of_filter. destruct (Hchildren c Hc). split; assumption.
      - assert (Hlt : filter (fun x => rank x < rank a) S ⊂ S).
        { split.
          - intros x Hx. now apply elem_of_filter in Hx as [_ Hx].
          - intros Hsub. specialize (Hsub a Ha).
            apply elem_of_filter in Hsub as [Hlt _]. lia. }
        apply subset_size in Hlt. lia. }
    clear Hchildren.
    induction (TreeNode.childList node) as [|c cs IHcs]; [now eexists|].
    destruct (Hsub c (or_introl eq_refl)) as [l1 Hl1].
    destruct IHcs as [l Hl]; [intros d Hd; apply Hsub; now right|].
    rewrite Hl1.
    match type of Hl with
    | ?fx ≫= _ = _ => destruct fx as [l2|] eqn:E; [|discriminate]
    end.
    now eexists.
Qed.

Lemma descendantGen_total (store : Store) (a : addr) :
  closedStore store -> acyclicStore store -> is_Some (store !! a) ->
  is_Some (descendantGen store a).
Proof.
  intros Hclosed [rank Hrank] Ha. unfold descendantGen.
  apply (descend_enough store rank _ a (dom store)).
  - intros x Hx. apply elem_of_dom in Hx as [node Hnode].
    exists node. split; [exact Hnode|]. intros c Hc. split.
    + apply elem_of_dom. exact (Hclosed x node c Hnode Hc).
    + exact (Hrank x node c Hnode Hc).
  - now apply elem_of_dom.
  - rewrite size_dom. lia.
Qed.

Lemma descendantGen_head (store : Store) (a : addr) nodes :
  descendantGen store a = Some nodes -> exists rest, nodes = a :: rest.
Proof.
  unfold descendantGen. cbn [descend]. destruct (store !! a); [|discriminate].
  match goal with |- ?fx ≫= _ = _ -> _ => destruct fx as [l|] end;
    [|discriminate].
  cbn. intros H; inversion H. now eexists.
Qed.

Section DeleteMore.
Variable removeInvalidSpotRefs : Store -> TreeStructure.t -> addr -> Store.

(** X20. A spot whose node is not in the child list of its parent (the
    top-level list for a spot without parent) cannot be deleted:
    [deleteNodeSpot] raises [ValueError] and nothing has changed. *)
Theorem deleteNodeSpot_not_a_child store self spot :
  match parentSpot spot with
  | None => ~ In (nodeRef spot) (TreeStructure.childList self)
  | Some p =>
      exists parentNode,
        store !! nodeRef p = Some parentNode /\
        ~ In (nodeRef spot) (TreeNode.childList parentNode)
  end ->
  deleteNodeSpot removeInvalidSpotRefs store self spot
  = Raise ValueError (store, self).
Proof.
  unfold deleteNodeSpot. cbn zeta. destruct (parentSpot spot) as [p|].
  - intros (parentNode & Hp & Hnin). rewrite Hp.
    apply list_remove_None in Hnin. now rewrite Hnin.
  - intros Hnin. apply list_remove_None in Hnin. now rewrite Hnin.
Qed.

Lemma deleteStep_submap st a :
  nodeDict (snd (deleteStep removeInvalidSpotRefs st a)) ⊆ nodeDict (snd st) /\
  TreeStructure.childList (snd (deleteStep removeInvalidSpotRefs st a))
  = TreeStructure.childList (snd st) /\
  treeFormats (snd (deleteStep removeInvalidSpotRefs st a))
  = treeFormats (snd st).
Proof.
  destruct st as [store self]. unfold deleteStep.
  destruct (store !! a) as [node|]; [|now split].
  destruct (length (TreeNode.spotRefs node) <=? 1); [|now split].
  cbn [snd removeNodeDictRef nodeDict set_nodeDict TreeStructure.childList
       treeFormats].
  split; [apply delete_subseteq|split; reflexivity].
Qed.

Lemma deleteLoop_submap nodes st :
  nodeDict (snd (fold_left (deleteStep removeInvalidSpotRefs) nodes st))
  ⊆ nodeDict (snd st) /\
  TreeStructure.childList
    (snd (fold_left (deleteStep removeInvalidSpotRefs) nodes st))
  = TreeStructure.childList (snd st) /\
  treeFormats (snd (fold_left (deleteStep removeInvalidSpotRefs) nodes st))
  = treeFormats (snd st).
Proof.
  revert st. induction nodes as [|a nodes IH]; intros st; [now split|].
  cbn [fold_left]. destruct (IH (deleteStep removeInvalidSpotRefs st a))
    as (H1 & H2 & H3).
  destruct (deleteStep_submap st a) as (K1 & K2 & K3).
  split; [now transitivity
            (nodeDict (snd (deleteStep removeInvalidSpotRefs st a)))|].
  split; congruence.
Qed.

(** X21. [deleteNodeSpot] only ever takes entries out of the dictionary:
    however the call ends and whatever [removeInvalidSpotRefs] does,
    every id of the dictionary afterwards was there before with the same
    node, and the table of formats is untouched. *)
Theorem deleteNodeSpot_submap store self spot :
  nodeDict (snd (finalState
                   (deleteNodeSpot removeInvalidSpotRefs store self spot)))
  ⊆ nodeDict self /\
  treeFormats (snd (finalState
                      (deleteNodeSpot removeInvalidSpotRefs store self spot)))
  = treeFormats self.
Proof.
  unfold deleteNodeSpot. cbn zeta.
  destruct (parentSpot spot) as [p|].
  - destruct (store !! nodeRef p) as [parentNode|]; [|now split].
    destruct (list_remove _ _) as [l|]; [|now split].
    destruct (descendantGen _ _) as [nodes|]; [|now split].
    cbn [finalState].
    destruct (deleteLoop_submap nodes
                (<[nodeRef p := TreeNode.set_childList l parentNode]> store,
                 self)) as (H1 & _ & H3).
    now split.
  - destruct (list_remove _ _) as [l|]; [|now split].
    destruct (descendantGen _ _) as [nodes|]; [|now split].
    cbn [finalState].
    destruct (deleteLoop_submap nodes (store, set_childList l self))
      as (H1 & _ & H3).
    now split.
Qed.

(** X22. Deleting the top-level spot of a subtree none of whose nodes has
    a second spot, in a store whose child references lead to nodes and
    have no cycle: the walk over the subtree ends, the call returns, the
    top-level list has lost the node (its first occurrence), the ids of
    all nodes of the subtree are out of the dictionary and every other
    id keeps its node. *)
Theorem deleteNodeSpot_top_exclusive store self spot l :
  closedStore store ->
  acyclicStore store ->
  is_Some (store !! nodeRef spot) ->
  parentSpot spot = None ->
  list_remove (nodeRef spot) (TreeStructure.childList self) = Some l ->
  (forall nodes a,
     descendantGen store (nodeRef spot) = Some nodes -> a ∈ nodes ->
     exists node, store !! a = Some node /\
                  length (TreeNode.spotRefs node) <= 1) ->
  exists nodes store' self',
    descendantGen store (nodeRef spot) = Some (nodeRef spot :: nodes) /\
    deleteNodeSpot removeInvalidSpotRefs store self spot
    = Return tt (store', self') /\
    TreeStructure.childList self' = l /\
    (forall a node, a ∈ nodeRef spot :: nodes -> store !! a = Some node ->
       nodeDict self' !! TreeNode.uId node = None) /\
    (forall key,
       (forall a node, a ∈ nodeRef spot :: nodes -> store !! a = Some node ->
          TreeNode.uId node <> key) ->
       nodeDict self' !! key = nodeDict self !! key).
Proof.
  intros Hclosed Hacyclic Hroot Hp Hrem Hall.
  destruct (descendantGen_total store (nodeRef spot) Hclosed Hacyclic Hroot)
    as [nodes Hgen].
  destruct (descendantGen_head _ _ _ Hgen) as [rest ->].
  unfold deleteNodeSpot. cbn zeta. rewrite Hp, Hrem, Hgen.
  destruct (fold_left (deleteStep removeInvalidSpotRefs) (nodeRef spot :: rest)
                      (store, set_childList l self)) as [store' self'] eqn:E.
  exists rest, store', self'. split; [reflexivity|]. split; [reflexivity|].
  pose proof (deleteLoop_reclaims_lookup removeInvalidSpotRefs
                (nodeRef spot :: rest) store (set_childList l self)
                (fun a Ha => Hall _ a Hgen Ha)) as H.
  cbn zeta in H. rewrite E in H. exact H.
Qed.

End DeleteMore.

Lemma deleteNodeSpot_not_a_child_witness :
  deleteNodeSpot validSpotRefs cloneStore cloneStruct (Spot 4 None)
  = Raise ValueError (cloneStore, cloneStruct).
Proof.
  apply (deleteNodeSpot_not_a_child validSpotRefs cloneStore cloneStruct
           (Spot 4 None)).
  simpl. intros [H|[H|[]]]; discriminate.
Defined.

(** *** A structure without shared nodes: [a] with the child [c], and
    [b], both at the top level *)

Definition plainStore : Store :=
  <[1 := TreeNode.Build "a" "Item" ∅ [3] [Spot 1 None]]>
  (<[2 := TreeNode.Build "b" "Item" ∅ [] [Spot 2 None]]>
  (<[3 := TreeNode.Build "c" "Item" ∅ [] [Spot 3 (Some (Spot 1 None))]]> ∅)).

Definition plainStruct : TreeStructure.t :=
  TreeStructure.Build (<["a" := 1]> (<["b" := 2]> (<["c" := 3]> ∅))) [1; 2] ∅.

Lemma plainStore_nodes a node :
  plainStore !! a = Some node ->
  (a = 1 /\ TreeNode.childList node = [3]) \/
  (a <> 1 /\ TreeNode.childList node = []).
Proof.
  unfold plainStore. intros H.
  apply lookup_insert_Some in H as [[<- <-]|[Hne H]]; [now left|].
  right. split; [congruence|].
  apply lookup_insert_Some in H as [[<- <-]|[_ H]]; [reflexivity|].
  apply lookup_insert_Some in H as [[<- <-]|[_ H]]; [reflexivity|].
  rewrite lookup_empty in H. discriminate.
Qed.

Lemma plainStore_closed : closedStore plainStore.
Proof.
  intros a node c Ha Hc.
  destruct (plainStore_nodes a node Ha) as [[-> Hcl]|[_ Hcl]];
    rewrite Hcl in Hc; [|destruct Hc].
  destruct Hc as [<-|[]]. vm_compute. now eexists.
Qed.

Lemma plainStore_acyclic : acyclicStore plainStore.
Proof.
  exists (fun a => if a =? 1 then 1 else 0). intros a node c Ha Hc.
  destruct (plainStore_nodes a node Ha) as [[-> Hcl]|[_ Hcl]];
    rewrite Hcl in Hc; [|destruct Hc].
  destruct Hc as [<-|[]]. simpl. lia.
Qed.

Lemma deleteNodeSpot_top_exclusive_witness :
  exists nodes store' self',
    descendantGen plainStore 1 = Some (1 :: nodes) /\
    deleteNodeSpot validSpotRefs plainStore plainStruct (Spot 1 None)
    = Return tt (store', self') /\
    TreeStructure.childList self' = [2] /\
    nodeDict self' !! "a" = None /\
    nodeDict self' !! "c" = None /\
    nodeDict self' !! "b" = Some 2.
Proof.
  destruct (deleteNodeSpot_top_exclusive validSpotRefs plainStore plainStruct
              (Spot 1 None) [2] plainStore_closed plainStore_acyclic)
    as (nodes & store' & self' & Hgen & Hret & Hcl & Hgone & Hkept);
    [vm_compute; now eexists|reflexivity|reflexivity| |].
  - intros nodes a Hgen Ha. vm_compute in Hgen. inversion Hgen; subst nodes.
    apply elem_of_cons in Ha as [->|Ha].
    + eexists. split; [vm_compute; reflexivity|simpl; lia].
    + apply list_elem_of_singleton in Ha as ->.
      eexists. split; [vm_compute; reflexivity|simpl; lia].
  - assert (Hnodes : nodes = [3]).
    { cbn [nodeRef] in Hgen. vm_compute in Hgen. now inversion Hgen. }
    subst nodes. cbn [nodeRef] in *.
    exists [3], store', self'. split; [exact Hgen|]. split; [exact Hret|].
    split; [exact Hcl|]. split; [|split].
    + apply (Hgone 1 (TreeNode.Build "a" "Item" ∅ [3] [Spot 1 None]));
        [left|vm_compute; reflexivity].
    + apply (Hgone 3 (TreeNode.Build "c" "Item" ∅ []
                                     [Spot 3 (Some (Spot 1 None))]));
        [right; left|vm_compute; reflexivity].
    + rewrite Hkept; [vm_compute; reflexivity|].
      intros a node Ha Hnode. apply elem_of_cons in Ha as [->|Ha].
      * vm_compute in Hnode. inversion Hnode. discriminate.
      * apply list_elem_of_singleton in Ha as ->.
        vm_compute in Hnode. inversion Hnode. discriminate.
Defined.

(** ** Duplicate ids and merging *)

Lemma replaceLoop_nothing (uuid1 : nat -> string)
    (duplicateDict : gmap string addr) nodes store self calls :
  (forall a node, a ∈ nodes -> store !! a = Some node ->
     duplicateDict !! TreeNode.uId node = None) ->
  replaceLoop uuid1 duplicateDict nodes (store, self, calls)
  = Return tt (store, self, calls).
Proof.
  induction nodes as [|a nodes IH]; intros Hall; [reflexivity|].
  cbn [replaceLoop]. unfold replaceStep.
  destruct (store !! a) as [node|] eqn:E.
  - destruct (decide (is_Some (duplicateDict !! TreeNode.uId node)))
      as [[x Hx]|_].
    + rewrite (Hall a node) in Hx; [discriminate|left|exact E].
    + apply IH. intros b n Hb. apply Hall. now right.
  - apply IH. intros b n Hb. apply Hall. now right.
Qed.

(** X23. When no id of the structure is a key of [duplicateDict],
    [replaceDuplicateIds] changes nothing and mints no id. *)
Theorem replaceDuplicateIds_nothing (uuid1 : nat -> string)
    (store : Store) (self : TreeStructure.t) (calls : nat)
    (duplicateDict : gmap string addr) :
  dictNamed store (nodeDict self) ->
  (forall key, is_Some (nodeDict self !! key) ->
               duplicateDict !! key = None) ->
  replaceDuplicateIds uuid1 store self calls duplicateDict
  = Return tt (store, self, calls).
Proof.
  intros Hnamed Hdisj. unfold replaceDuplicateIds.
  apply replaceLoop_nothing. intros a node Ha Hnode.
  apply list_elem_of_fmap in Ha as ([key b] & -> & Hin).
  apply elem_of_map_to_list in Hin. simpl in Hnode.
  destruct (Hnamed _ _ Hin) as (n & Hn & Hkey).
  assert (n = node) by congruence. subst n. rewrite Hkey.
  apply Hdisj. eauto.
Qed.

Lemma pasteStruct_named : dictNamed pasteStore (nodeDict pasteStruct).
Proof.
  intros key a H. unfold pasteStruct in H. cbn [nodeDict] in H.
  apply lookup_insert_Some in H as [[<- <-]|[_ H]].
  - eexists. split; [vm_compute; reflexivity|reflexivity].
  - apply lookup_insert_Some in H as [[<- <-]|[_ H]].
    + eexists. split; [vm_compute; reflexivity|reflexivity].
    + rewrite lookup_empty in H. discriminate.
Qed.

Lemma replaceDuplicateIds_nothing_witness :
  replaceDuplicateIds mintedId pasteStore pasteStruct 0 (<["z" := 7]> ∅)
  = Return tt (pasteStore, pasteStruct, 0).
Proof.
  apply replaceDuplicateIds_nothing; [exact pasteStruct_named|].
  intros key [a H]. unfold pasteStruct in H. cbn [nodeDict] in H.
  apply lookup_insert_Some in H as [[<- _]|[_ H]]; [reflexivity|].
  apply lookup_insert_Some in H as [[<- _]|[_ H]]; [reflexivity|].
  rewrite lookup_empty in H. discriminate.
Defined.

(** X24. The use that [replaceDuplicateIds] is made for: once the ids of
    the structure to paste have been replaced against the dictionary of
    the receiving structure, [addNodesFromStruct] overwrites nothing.
    Every entry of the receiving structure is kept, every node of the
    pasted structure is entered, and the dictionary has the size of the
    two together. *)
Theorem replaceDuplicateIds_then_merge (uuid1 : nat -> string)
    (addSpotRef : Store -> addr -> option addr -> Store)
    (store : Store) (source target : TreeStructure.t) (calls : nat)
    (parent : Parent) (position : Z)
    (store' : Store) (source' : TreeStructure.t) (calls' : nat) :
  dictNamed store (nodeDict source) ->
  (forall i j, uuid1 i = uuid1 j -> i = j) ->
  (forall i, calls <= i ->
     nodeDict source !! uuid1 i = None /\
     nodeDict target !! uuid1 i = None) ->
  replaceDuplicateIds uuid1 store source calls (nodeDict target)
  = Return tt (store', source', calls') ->
  let merged :=
    nodeDict (snd (finalState
                     (addNodesFromStruct addSpotRef store' target source'
                                         parent position))) in
  (forall key a, nodeDict target !! key = Some a -> merged !! key = Some a) /\
  (forall key a, nodeDict source' !! key = Some a -> merged !! key = Some a) /\
  size merged = size (nodeDict target) + size (nodeDict source).
Proof.
  intros Hnamed Hinj Hfresh Hret merged.
  destruct (dictNamed_values store (nodeDict source) Hnamed) as [Hnd Hval].
  destruct (replaceLoop_spec uuid1 (nodeDict target)
              (snd <$> map_to_list (nodeDict source)) store source calls)
    as (store1 & source1 & calls1 & Hloop & Hsize & _ & _ & Hout
        & Hin & Hkeep & _ & Hnamed'); try assumption.
  { intros a Ha. now apply Hval. }
  unfold replaceDuplicateIds in Hret. rewrite Hloop in Hret.
  inversion Hret; subst store1 source1 calls1. clear Hret.
  assert (Hdisj : forall key a, nodeDict source' !! key = Some a ->
                                nodeDict target !! key = None).
  { intros key a H.
    destruct (decide (a ∈ snd <$> map_to_list (nodeDict source))) as [Ha|Ha].
    - now apply (Hin key a).
    - apply (Hout key a Ha) in H. exfalso. apply Ha, Hval. eauto. }
  assert (Hmerged : merged = nodeDict source' ∪ nodeDict target).
  { unfold merged, addNodesFromStruct. cbn zeta.
    rewrite addTopNodes_nodeDict.
    cbn [snd nodeDict set_nodeDict set_treeFormats].
    now apply mergeNodeDict_union. }
  assert (Hdisjoint : nodeDict source' ##ₘ nodeDict target).
  { apply map_disjoint_spec. intros key a b Ha Hb.
    rewrite (Hdisj key a Ha) in Hb. discriminate. }
  rewrite Hmerged. split; [|split].
  - intros key a H. apply lookup_union_Some_raw. right.
    split; [|exact H].
    destruct (nodeDict source' !! key) as [b|] eqn:E; [|reflexivity].
    rewrite (Hdisj key b E) in H. discriminate.
  - intros key a H. apply lookup_union_Some_raw. now left.
  - rewrite map_size_disj_union by exact Hdisjoint. lia.
Qed.

Lemma mintedId_not_n i : mintedId i <> "n".
Proof. destruct i as [|i]; discriminate. Qed.

Definition mergeStoreRenamed : Store :=
  <[1 := TreeNode.Build "n" "Item" (<["Name" := "kept"]> ∅) [] [Spot 1 None]]>
  (<[2 := TreeNode.Build "u" "Item" (<["Name" := "pasted"]> ∅) [] []]> ∅).

Definition mergeSourceRenamed : TreeStructure.t :=
  TreeStructure.Build (<["u" := 2]> ∅) [2] ∅.

Lemma replaceDuplicateIds_then_merge_witness :
  let merged :=
    nodeDict (snd (finalState
                     (addNodesFromStruct addSpotRefModel mergeStoreRenamed
                        mergeTarget mergeSourceRenamed ParentSelf (-1)))) in
  (forall key a, nodeDict mergeTarget !! key = Some a ->
                 merged !! key = Some a) /\
  (forall key a, nodeDict mergeSourceRenamed !! key = Some a ->
                 merged !! key = Some a) /\
  size merged = size (nodeDict mergeTarget) + size (nodeDict mergeSource).
Proof.
  apply (replaceDuplicateIds_then_merge mintedId addSpotRefModel mergeStore
           mergeSource mergeTarget 0 ParentSelf (-1) mergeStoreRenamed
           mergeSourceRenamed 1).
  - exact mergeSource_named.
  - exact mintedId_inj.
  - intros i _. pose proof (mintedId_not_n i) as Hn.
    unfold mergeSource, mergeTarget. cbn [nodeDict].
    rewrite !lookup_insert_ne, !lookup_empty by congruence. now split.
  - vm_compute. reflexivity.
Defined.

(** X25. With the structure itself as parent, [addNodesFromStruct] places
    the first top-level node of the other structure and then raises
    [AttributeError] at the second: [parent] has become [None]. The
    top-level list has gained the first node only. *)
Theorem addNodesFromStruct_self_two_nodes
    (addSpotRef : Store -> addr -> option addr -> Store)
    (store : Store) (self treeStruct : TreeStructure.t) (position : Z)
    (a b : addr) (rest : list addr) :
  TreeStructure.childList treeStruct = a :: b :: rest ->
  exists store' self',
    addNodesFromStruct addSpotRef store self treeStruct ParentSelf position
    = Raise AttributeError (store', self') /\
    store' = addSpotRef store a None /\
    TreeStructure.childList self'
    = (if (0 <=? position)%Z
       then list_insert_at (Z.to_nat position) a
                           (TreeStructure.childList self)
       else TreeStructure.childList self ++ [a]).
Proof.
  intros Hnodes. unfold addNodesFromStruct. cbn zeta. rewrite Hnodes.
  cbn [addTopNodes]. eexists _, _. split; [reflexivity|].
  split; reflexivity.
Qed.

Lemma addNodesFromStruct_self_two_nodes_witness :
  exists store' self',
    addNodesFromStruct addSpotRefModel plainStore
                       (TreeStructure.Build ∅ [] ∅) plainStruct ParentSelf 0
    = Raise AttributeError (store', self') /\
    store' = addSpotRefModel plainStore 1 None /\
    TreeStructure.childList self' = [1].
Proof.
  exact (addNodesFromStruct_self_two_nodes addSpotRefModel plainStore
           (TreeStructure.Build ∅ [] ∅) plainStruct 0 1 2 [] eq_refl).
Defined.

(** The nodes spliced into [l] at [position], as [list.insert] places
    them one after the other. *)
Definition spliced (position : Z) (nodes l : list addr) : list addr :=
  if (0 <=? position)%Z
  then firstn (Z.to_nat position) l ++ nodes ++ skipn (Z.to_nat position) l
  else l ++ nodes.

Lemma list_insert_at_min n a l :
  list_insert_at n a l
  = firstn (n `min` length l) l ++ a :: skipn (n `min` length l) l.
Proof.
  unfold list_insert_at.
  destruct (Nat.le_gt_cases n (length l)) as [H|H].
  - now rewrite Nat.min_l by exact H.
  - rewrite Nat.min_r by lia.
    rewrite (firstn_all2 (n := n)) by lia.
    rewrite (skipn_all2 (n := n)) by lia.
    now rewrite firstn_all, skipn_all.
Qed.

Lemma splice_min n nodes (l : list addr) :
  firstn n l ++ nodes ++ skipn n l
  = firstn (n `min` length l) l ++ nodes ++ skipn (n `min` length l) l.
Proof.
  destruct (Nat.le_gt_cases n (length l)) as [H|H].
  - now rewrite Nat.min_l by exact H.
  - rewrite Nat.min_r by lia.
    rewrite (firstn_all2 (n := n)) by lia.
    rewrite (skipn_all2 (n := n)) by lia.
    now rewrite firstn_all, skipn_all.
Qed.

Lemma spliced_cons position a nodes l :
  spliced (if (0 <=? position)%Z then (position + 1)%Z else position) nodes
          (if (0 <=? position)%Z
           then list_insert_at (Z.to_nat position) a l
           else l ++ [a])
  = spliced position (a :: nodes) l.
Proof.
  unfold spliced. destruct (0 <=? position)%Z eqn:E.
  - apply Z.leb_le in E.
    replace (0 <=? position + 1)%Z with true by (symmetry; apply Z.leb_le; lia).
    replace (Z.to_nat (position + 1)) with (S (Z.to_nat position)) by lia.
    generalize (Z.to_nat position). intros n.
    rewrite list_insert_at_min, (splice_min n (a :: nodes)).
    set (m := n `min` length l).
    assert (Hm : m <= length l) by (unfold m; lia).
    assert (Hlen : length (firstn m l) = m) by (rewrite length_firstn; lia).
    rewrite splice_min.
    replace (S n `min` length (firstn m l ++ a :: skipn m l)) with (S m).
    2:{ rewrite length_app. cbn [length]. rewrite Hlen, length_skipn.
        unfold m. lia. }
    rewrite firstn_app, skipn_app, Hlen.
    replace (S m - m) with 1 by lia.
    rewrite (firstn_all2 (n := S m)) by lia.
    rewrite (skipn_all2 (n := S m)) by lia.
    cbn [firstn skipn]. rewrite <- !app_assoc. reflexivity.
  - rewrite E. rewrite <- app_assoc. reflexivity.
Qed.

Section SpliceFacts.

Variable addSpotRef : Store -> addr -> option addr -> Store.

(** [addSpotRef] of [treenode.py] writes spot references only: every node
    keeps its child list. *)
Hypothesis addSpotRef_childList : forall store a parent b node,
  store !! b = Some node ->
  exists node', addSpotRef store a parent !! b = Some node' /\
                TreeNode.childList node' = TreeNode.childList node.

Lemma addTopNodes_splice p nodes : forall store self position parentNode,
  store !! p = Some parentNode ->
  exists store' parentNode',
    addTopNodes addSpotRef nodes (store, self) (ParentNode p) position
    = Return tt (store', self) /\
    store' !! p = Some parentNode' /\
    TreeNode.childList parentNode'
    = spliced position nodes (TreeNode.childList parentNode).
Proof.
  induction nodes as [|a nodes IH]; intros store self position parentNode Hp.
  - exists store, parentNode. split; [reflexivity|]. split; [exact Hp|].
    unfold spliced. destruct (0 <=? position)%Z.
    + cbn [app]. now rewrite firstn_skipn.
    + now rewrite app_nil_r.
  - cbn [addTopNodes]. rewrite Hp.
    set (placed := if (0 <=? position)%Z
                   then list_insert_at (Z.to_nat position) a
                                       (TreeNode.childList parentNode)
                   else TreeNode.childList parentNode ++ [a]).
    destruct (addSpotRef_childList
                (<[p := TreeNode.set_childList placed parentNode]> store)
                a (Some p) p (TreeNode.set_childList placed parentNode))
      as (node1 & Hnode1 & Hcl1); [apply lookup_insert_eq|].
    destruct (IH _ self
                 (if (0 <=? position)%Z then (position + 1)%Z else position)
                 node1 Hnode1)
      as (store' & parentNode' & Hret & Hp' & Hcl').
    exists store', parentNode'. split; [exact Hret|]. split; [exact Hp'|].
    rewrite Hcl', Hcl1. cbn [TreeNode.childList TreeNode.set_childList].
    apply spliced_cons.
Qed.

(** X26. Under a node as parent, [addNodesFromStruct] returns, and the
    parent's child list is its old list with the top-level nodes of the
    other structure spliced in at [position], in their order (appended
    when [position] is negative). The top-level list of the structure is
    not changed. *)
Theorem addNodesFromStruct_splice (store : Store)
    (self treeStruct : TreeStructure.t) (p : addr)
    (parentNode : TreeNode.t) (position : Z) :
  store !! p = Some parentNode ->
  exists store' self' parentNode',
    addNodesFromStruct addSpotRef store self treeStruct (ParentNode p)
                       position
    = Return tt (store', self') /\
    store' !! p = Some parentNode' /\
    TreeNode.childList parentNode'
    = spliced position (TreeStructure.childList treeStruct)
              (TreeNode.childList parentNode) /\
    TreeStructure.childList self' = TreeStructure.childList self.
Proof.
  intros Hp. unfold addNodesFromStruct. cbn zeta.
  destruct (addTopNodes_splice p (TreeStructure.childList treeStruct) store
              (set_nodeDict
                 (mergeNodeDict store (nodeDict self) (nodeDict treeStruct))
                 (set_treeFormats
                    (fold_left
                       (fun formats entry =>
                          addTypeIfMissing formats (snd entry))
                       (map_to_list (treeFormats treeStruct))
                       (treeFormats self)) self))
              position parentNode Hp)
    as (store' & parentNode' & Hret & Hp' & Hcl).
  eexists store', _, parentNode'. split; [exact Hret|].
  split; [exact Hp'|]. split; [exact Hcl|reflexivity].
Qed.

End SpliceFacts.

Lemma addSpots_childList fuel : forall store a parent b node,
  store !! b = Some node ->
  exists node', addSpots fuel store a parent !! b = Some node' /\
                TreeNode.childList node' = TreeNode.childList node.
Proof.
  induction fuel as [|fuel IH]; intros store a parent b node Hb;
    [now exists node|].
  cbn [addSpots]. destruct (store !! a) as [nodeA|] eqn:Ea; [|now exists node].
  match goal with |- context [isnil ?l] => destruct (isnil l) end;
    [now exists node|].
  match goal with
  | |- context [fold_left _ _ ?st0] =>
      assert (H0 : exists node', st0 !! b = Some node' /\
                     TreeNode.childList node' = TreeNode.childList node)
  end.
  { destruct (decide (b = a)) as [->|Hne].
    - rewrite lookup_insert_eq. eexists. split; [reflexivity|].
      rewrite Hb in Ea. inversion Ea. reflexivity.
    - rewrite lookup_insert_ne by congruence. now exists node. }
  match goal with |- context [fold_left _ _ ?st0] => generalize dependent st0 end.
  induction (TreeNode.childList nodeA) as [|child children IHc];
    intros st0 H0; [exact H0|].
  cbn [fold_left]. apply IHc.
  destruct H0 as (node0 & Hnode0 & Hcl0).
  destruct (IH st0 child (Some a) b node0 Hnode0) as (node1 & Hnode1 & Hcl1).
  exists node1. split; [exact Hnode1|congruence].
Qed.

(** *** Two nodes pasted under a node that has a child *)

Definition spliceStore : Store :=
  <[5 := TreeNode.Build "x" "Item" ∅ [] []]>
  (<[6 := TreeNode.Build "y" "Item" ∅ [] []]> plainStore).

Definition spliceSource : TreeStructure.t :=
  TreeStructure.Build (<["x" := 5]> (<["y" := 6]> ∅)) [5; 6] ∅.

Lemma addNodesFromStruct_splice_witness :
  exists store' self' parentNode',
    addNodesFromStruct addSpotRefModel spliceStore plainStruct spliceSource
                       (ParentNode 1) 0
    = Return tt (store', self') /\
    store' !! 1 = Some parentNode' /\
    TreeNode.childList parentNode' = [5; 6; 3] /\
    TreeStructure.childList self' = [1; 2].
Proof.
  apply (addNodesFromStruct_splice addSpotRefModel
           (fun store a parent => addSpots_childList _ store a parent)
           spliceStore plainStruct spliceSource 1
           (TreeNode.Build "a" "Item" ∅ [3] [Spot 1 None]) 0).
  vm_compute. reflexivity.
Defined.

(** ** Renamed fields *)

Lemma renameStep_fold l : forall tmp0 d0 tmp d,
  fold_left renameStep l (tmp0, d0) = (tmp, d) ->
  (forall key, d !! key = if decide (key ∈ l.*1) then None else d0 !! key) /\
  (forall key, (forall oldName, (oldName, key) ∈ l -> d0 !! oldName = None) ->
               tmp !! key = tmp0 !! key) /\
  (NoDup l.*1 ->
   forall oldName newName value,
     (oldName, newName) ∈ l -> d0 !! oldName = Some value ->
     (forall other, (other, newName) ∈ l -> is_Some (d0 !! other) ->
                    other = oldName) ->
     tmp !! newName = Some value).
Proof.
  induction l as [|[old0 new0] l IH]; intros tmp0 d0 tmp d Hfold.
  - cbn in Hfold. inversion Hfold; subst. split; [|split].
    + intros key. rewrite decide_False; [reflexivity|]. cbn. apply not_elem_of_nil.
    + reflexivity.
    + intros _ oldName newName value H. now apply not_elem_of_nil in H.
  - cbn [fold_left] in Hfold. unfold renameStep at 2 in Hfold.
    destruct (d0 !! old0) as [v0|] eqn:E0.
    + destruct (IH _ _ _ _ Hfold) as (Hd & Htmp & Hren). split; [|split].
      * intros key. rewrite Hd. cbn [fmap list_fmap fst].
        destruct (decide (key ∈ l.*1)) as [Hin|Hin].
        -- rewrite decide_True; [reflexivity|now right].
        -- destruct (decide (key = old0)) as [->|Hne].
           ++ rewrite decide_True by left. apply lookup_delete_eq.
           ++ rewrite decide_False.
              ** apply lookup_delete_ne. congruence.
              ** intros H. apply elem_of_cons in H as [H|H]; [congruence|].
                 contradiction.
      * intros key Hnone.
        assert (Hne : new0 <> key).
        { intros ->. rewrite (Hnone old0) in E0; [discriminate|left]. }
        rewrite Htmp.
        -- now apply lookup_insert_ne.
        -- intros oldName Hin.
           destruct (decide (oldName = old0)) as [->|Hneq];
             [apply lookup_delete_eq|].
           rewrite lookup_delete_ne by congruence. apply Hnone. now right.
      * intros Hnd oldName newName value Hin Hval Huniq.
        cbn [fmap list_fmap fst] in Hnd. apply NoDup_cons in Hnd as [Hnotin Hnd].
        apply elem_of_cons in Hin as [Heq|Hin].
        -- inversion Heq; subst oldName newName.
           assert (v0 = value) by congruence. subst v0.
           rewrite Htmp; [apply lookup_insert_eq|].
           intros other Hother.
           destruct (d0 !! other) as [w|] eqn:Ew.
           ++ exfalso. apply Hnotin.
              rewrite <- (Huniq other); [|now right|eauto].
              apply list_elem_of_fmap. now exists (other, new0).
           ++ apply lookup_delete_None. now right.
        -- assert (Hneq : oldName <> old0).
           { intros ->. apply Hnotin. apply list_elem_of_fmap.
             now exists (old0, newName). }
           apply (Hren Hnd oldName newName value Hin).
           ++ rewrite lookup_delete_ne by congruence. exact Hval.
           ++ intros other Hother [w Hw].
              apply lookup_delete_Some in Hw as [_ Hw].
              apply Huniq; [now right|eauto].
    + destruct (IH _ _ _ _ Hfold) as (Hd & Htmp & Hren). split; [|split].
      * intros key. rewrite Hd. cbn [fmap list_fmap fst].
        destruct (decide (key ∈ l.*1)) as [Hin|Hin].
        -- rewrite decide_True; [reflexivity|now right].
        -- destruct (decide (key = old0)) as [->|Hne].
           ++ rewrite decide_True by left. exact E0.
           ++ rewrite decide_False; [reflexivity|].
              intros H. apply elem_of_cons in H as [H|H]; [congruence|].
              contradiction.
      * intros key Hnone. apply Htmp. intros oldName Hin.
        apply Hnone. now right.
      * intros Hnd oldName newName value Hin Hval Huniq.
        cbn [fmap list_fmap fst] in Hnd. apply NoDup_cons in Hnd as [Hnotin Hnd].
        apply elem_of_cons in Hin as [Heq|Hin].
        -- inversion Heq; subst oldName newName. congruence.
        -- apply (Hren Hnd oldName newName value Hin Hval).
           intros other Hother Hsome. apply Huniq; [now right|exact Hsome].
Qed.

(** X27. A renamed field keeps its value under the new name, whatever
    else is renamed at the same time, as long as no other field that the
    node has is renamed to the same name. In particular two fields may
    swap their names. *)
Theorem renameFields_renamed (fieldRenameDict : list (string * string))
    (data : gmap string string) (oldName newName value : string) :
  NoDup fieldRenameDict.*1 ->
  (oldName, newName) ∈ fieldRenameDict ->
  data !! oldName = Some value ->
  (forall other, (other, newName) ∈ fieldRenameDict ->
                 is_Some (data !! other) -> other = oldName) ->
  renameFields fieldRenameDict data !! newName = Some value.
Proof.
  intros Hnd Hin Hval Huniq. unfold renameFields.
  destruct (fold_left renameStep fieldRenameDict (∅, data)) as [tmp d] eqn:E.
  destruct (renameStep_fold _ _ _ _ _ E) as (_ & _ & Hren).
  apply lookup_union_Some_l. now apply (Hren Hnd oldName newName value).
Qed.

Lemma renameFields_renamed_witness :
  let data : gmap string string := <["a" := "1"]> (<["b" := "2"]> ∅) in
  renameFields [("a", "b"); ("b", "a")] data !! "b" = Some "1".
Proof.
  apply (renameFields_renamed [("a", "b"); ("b", "a")] _ "a" "b" "1").
  - cbn. apply NoDup_cons. split.
    + intros H. apply list_elem_of_singleton in H. discriminate.
    + apply NoDup_singleton.
  - left.
  - reflexivity.
  - intros other H _. apply elem_of_cons in H as [H|H]; [congruence|].
    apply list_elem_of_singleton in H. discriminate.
Defined.

(** X28. A name that no field of the node is renamed to keeps its value
    unless it is itself renamed, and an old name is gone from the data
    afterwards. *)
Theorem renameFields_others (fieldRenameDict : list (string * string))
    (data : gmap string string) (key : string) :
  (forall oldName, (oldName, key) ∈ fieldRenameDict ->
                   data !! oldName = None) ->
  renameFields fieldRenameDict data !! key
  = if decide (key ∈ fieldRenameDict.*1) then None else data !! key.
Proof.
  intros Hnone. unfold renameFields.
  destruct (fold_left renameStep fieldRenameDict (∅, data)) as [tmp d] eqn:E.
  destruct (renameStep_fold _ _ _ _ _ E) as (Hd & Htmp & _).
  rewrite <- Hd. apply lookup_union_r. rewrite Htmp by exact Hnone.
  apply lookup_empty.
Qed.

Lemma renameFields_others_witness :
  let data : gmap string string := <["a" := "1"]> (<["c" := "3"]> ∅) in
  renameFields [("a", "b")] data !! "c" = Some "3" /\
  renameFields [("a", "b")] data !! "a" = None.
Proof.
  split.
  - rewrite (renameFields_others [("a", "b")] _ "c");
      [vm_compute; reflexivity|].
    intros oldName H. apply list_elem_of_singleton in H. discriminate.
  - rewrite (renameFields_others [("a", "b")] _ "a");
      [vm_compute; reflexivity|].
    intros oldName H. apply list_elem_of_singleton in H. discriminate.
Defined.
